(** * llmcli: a shallow embedding of the model manager

    The development follows the Go packages of the repository:
    [internal/db] (the metadata store), [internal/model] (acquisition,
    removal, aliasing, import) and [internal/server] (readiness polling,
    streaming chat, process termination), preceded by the parts of the Go
    standard library they call ([unicode], [strings], [strconv],
    [path/filepath], [regexp], [encoding/json]).

    Definitions come first, grouped in one module per package; the lemmas
    and the theorems about them follow. *)

From Stdlib Require Import ZArith Ascii String DecimalString Lia.
From stdpp Require Import base tactics option list gmap.

Local Open Scope Z_scope.

(** ** Go strings

    A Go string is modelled by the sequence of runes (Unicode code points,
    [int32] in Go) that ranging over it yields; a byte that is no valid
    UTF-8 is the rune U+FFFD there. All separators, markers and character
    classes of the program are ASCII, so nothing below depends on how a
    rune is laid out in bytes. *)

Abbreviation rune := Z (only parsing).
Abbreviation gostring := (list Z) (only parsing).

(** The rune of an ASCII character, and the Go string of a literal. *)
Definition chr (a : ascii) : rune := Z.of_N (N_of_ascii a).

Fixpoint lit (s : string) : gostring :=
  match s with
  | EmptyString => []
  | String a s' => chr a :: lit s'
  end.

Arguments chr : simpl never.
Arguments lit : simpl never.

(** The double quote, which a literal cannot hold. *)
Definition dquote : rune := 34.

Definition quoted (s : gostring) : gostring := dquote :: s ++ [dquote].

Module unicode.

(** [unicode.ToLower]. The ASCII capitals move by 32. Two code points
    outside ASCII have an ASCII lower case in Go's case tables: U+0130
    (capital I with dot above, delta -199) and U+212A (the Kelvin sign,
    delta -8383). Every other row of the table maps a rune outside ASCII
    to a rune outside ASCII; those rows are left out, and the rune is kept
    as it is: the program only ever compares a lower-cased string with
    ASCII text or filters it down to ASCII. *)
Definition ToLower (r : rune) : rune :=
  if (65 <=? r) && (r <=? 90) then r + 32
  else if r =? 304 then 105
  else if r =? 8490 then 107
  else r.

(** [unicode.IsSpace]: the Latin-1 spaces and the Unicode [White_Space]
    code points. *)
Definition IsSpace (r : rune) : bool :=
  ((9 <=? r) && (r <=? 13)) || (r =? 32) || (r =? 133) || (r =? 160)
  || (r =? 5760) || ((8192 <=? r) && (r <=? 8202))
  || (r =? 8232) || (r =? 8233) || (r =? 8239) || (r =? 8287) || (r =? 12288).

End unicode.

Module strings.

Definition ToLower (s : gostring) : gostring := unicode.ToLower <$> s.

(** [len(s) >= len(prefix) && s[:len(prefix)] == prefix] *)
Definition HasPrefix (s prefix : gostring) : bool :=
  bool_decide (length prefix ≤ length s)%nat
  && bool_decide (take (length prefix) s = prefix).

(** [len(s) >= len(suffix) && s[len(s)-len(suffix):] == suffix] *)
Definition HasSuffix (s suffix : gostring) : bool :=
  bool_decide (length suffix ≤ length s)%nat
  && bool_decide (drop (length s - length suffix) s = suffix).

Definition TrimPrefix (s prefix : gostring) : gostring :=
  if HasPrefix s prefix then drop (length prefix) s else s.

Definition TrimSuffix (s suffix : gostring) : gostring :=
  if HasSuffix s suffix then take (length s - length suffix) s else s.

Definition inCutset (cutset : gostring) (r : rune) : bool :=
  bool_decide (r ∈ cutset).

Fixpoint TrimLeftFunc (f : rune → bool) (s : gostring) : gostring :=
  match s with
  | [] => []
  | r :: s' => if f r then TrimLeftFunc f s' else s
  end.

Definition TrimRightFunc (f : rune → bool) (s : gostring) : gostring :=
  reverse (TrimLeftFunc f (reverse s)).

(** [strings.Trim(s, cutset)]: all leading and trailing runes of the
    cutset are dropped. *)
Definition Trim (s cutset : gostring) : gostring :=
  TrimRightFunc (inCutset cutset) (TrimLeftFunc (inCutset cutset) s).

Definition TrimSpace (s : gostring) : gostring :=
  TrimRightFunc unicode.IsSpace (TrimLeftFunc unicode.IsSpace s).

(** [strings.ReplaceAll(s, old, new)]: the non-overlapping occurrences of
    [old], leftmost first. An empty [old] matches before every rune and
    at the end. The fuel is the length of [s]: every step consumes a rune. *)
Fixpoint replaceFrom (fuel : nat) (s old new : gostring) : gostring :=
  match fuel, s with
  | S fuel', r :: s' =>
      if HasPrefix s old
      then new ++ replaceFrom fuel' (drop (length old) s) old new
      else r :: replaceFrom fuel' s' old new
  | _, _ => s
  end.

Definition ReplaceAll (s old new : gostring) : gostring :=
  match old with
  | [] => new ++ (s ≫= λ r, r :: new)
  | _ :: _ => replaceFrom (length s) s old new
  end.

(** [strings.Split(s, sep)]; an empty [sep] explodes [s] into its runes. *)
Fixpoint splitFrom (fuel : nat) (s sep cur : gostring) : list gostring :=
  match fuel, s with
  | S fuel', r :: s' =>
      if HasPrefix s sep
      then cur :: splitFrom fuel' (drop (length sep) s) sep []
      else splitFrom fuel' s' sep (cur ++ [r])
  | _, _ => [cur ++ s]
  end.

Definition Split (s sep : gostring) : list gostring :=
  match sep with
  | [] => (λ r, [r]) <$> s
  | _ :: _ => splitFrom (length s) s sep []
  end.

Fixpoint Join (elems : list gostring) (sep : gostring) : gostring :=
  match elems with
  | [] => []
  | [e] => e
  | e :: rest => e ++ sep ++ Join rest sep
  end.

(** [strings.Fields]: the maximal runs of non-space runes. *)
Fixpoint fieldsFrom (s cur : gostring) : list gostring :=
  match s with
  | [] => match cur with [] => [] | _ => [cur] end
  | r :: s' =>
      if unicode.IsSpace r
      then match cur with
           | [] => fieldsFrom s' []
           | _ => cur :: fieldsFrom s' []
           end
      else fieldsFrom s' (cur ++ [r])
  end.

Definition Fields (s : gostring) : list gostring := fieldsFrom s [].

Definition Repeat (s : gostring) (count : nat) : gostring :=
  mjoin (replicate count s).

End strings.

Module strconv.

Definition isDigit (r : rune) : bool := (48 <=? r) && (r <=? 57).

Fixpoint digitsValue (acc : Z) (s : gostring) : option Z :=
  match s with
  | [] => Some acc
  | r :: s' => if isDigit r then digitsValue (acc * 10 + (r - 48)) s' else None
  end.

(** [strconv.Atoi]: an optional sign, then one decimal digit or more; the
    value has to fit [int], 64 bits wide. [None] is Go's [*NumError]. *)
Definition Atoi (s : gostring) : option Z :=
  let '(neg, ds) :=
    match s with
    | r :: t => if r =? chr "-" then (true, t)
                else if r =? chr "+" then (false, t)
                else (false, s)
    | [] => (false, s)
    end in
  match ds with
  | [] => None
  | _ :: _ =>
      n ← digitsValue 0 ds;
      let v := if neg : bool then - n else n in
      if (- 2 ^ 63 <=? v) && (v <? 2 ^ 63) then Some v else None
  end.

(** [strconv.Itoa]; also what the verb [%d] of [fmt] prints. *)
Definition Itoa (n : Z) : gostring :=
  lit (DecimalString.NilZero.string_of_int (Z.to_int n)).

End strconv.

(** ** Regular expressions

    The two patterns of the program use character classes, a literal,
    concatenation and [+]; the matcher below runs on derivatives. *)
Module regexp.

(** A bracket expression: its ranges, and whether it starts with [^]. *)
Record class := mkClass { negated : bool; ranges : list (rune * rune) }.

Definition inClass (c : class) (r : rune) : bool :=
  xorb (negated c) (existsb (λ '(lo, hi), (lo <=? r) && (r <=? hi)) (ranges c)).

Inductive Regexp : Type :=
| Void : Regexp
| Empty : Regexp
| Lit : rune → Regexp
| Set_ : class → Regexp
| Cat : Regexp → Regexp → Regexp
| Alt : Regexp → Regexp → Regexp
| Star : Regexp → Regexp.

Definition Plus (re : Regexp) : Regexp := Cat re (Star re).

(** The strings a pattern denotes. *)
Inductive Matches : Regexp → gostring → Prop :=
| MEmpty : Matches Empty []
| MLit r : Matches (Lit r) [r]
| MSet c r : inClass c r = true → Matches (Set_ c) [r]
| MCat a b s t : Matches a s → Matches b t → Matches (Cat a b) (s ++ t)
| MAltL a b s : Matches a s → Matches (Alt a b) s
| MAltR a b s : Matches b s → Matches (Alt a b) s
| MStarNil a : Matches (Star a) []
| MStarApp a s t : Matches a s → Matches (Star a) t → Matches (Star a) (s ++ t).

Fixpoint nullable (re : Regexp) : bool :=
  match re with
  | Void | Lit _ | Set_ _ => false
  | Empty | Star _ => true
  | Cat a b => nullable a && nullable b
  | Alt a b => nullable a || nullable b
  end.

Fixpoint deriv (x : rune) (re : Regexp) : Regexp :=
  match re with
  | Void | Empty => Void
  | Lit r => if x =? r then Empty else Void
  | Set_ c => if inClass c x then Empty else Void
  | Cat a b =>
      if nullable a then Alt (Cat (deriv x a) b) (deriv x b)
      else Cat (deriv x a) b
  | Alt a b => Alt (deriv x a) (deriv x b)
  | Star a => Cat (deriv x a) (Star a)
  end.

(** [regexp.MatchString] for a pattern written between [^] and [$]:
    without the multi-line flag the two anchor the match at both ends of
    the text, so the whole string has to be in the language of [re]. *)
Definition MatchString (re : Regexp) (s : gostring) : bool :=
  nullable (foldl (λ re' x, deriv x re') re s).

(** [re.ReplaceAllString(src, repl)] when the pattern is one character
    class: a match is one rune, matches cannot overlap, and [repl] holds
    no [$] to expand. *)
Definition ReplaceAllString (c : class) (src repl : gostring) : gostring :=
  src ≫= λ r, if inClass c r then repl else [r].

End regexp.

(** ** The world the program runs in *)

(** Go's [error], by its message. *)
Abbreviation error := (list Z) (only parsing).

(** [fmt.Errorf("<context>: %w", err)] *)
Definition wrapf (context : string) (err : error) : error :=
  lit context ++ lit ": " ++ err.

(** A row of table [models] ([db.Model]). Times are seconds on the wall
    clock; [LastUsed] is [sql.NullTime]. *)
Record Model := mkModel {
  ID : Z;
  Slug : gostring;
  ModelID : gostring;
  FileName : gostring;
  FilePath : gostring;
  FileSize : gostring;
  CreatedAt : Z;
  LastUsed : option Z;
}.

#[global] Instance Model_eq_dec : EqDecision Model.
Proof. solve_decision. Defined.

(** [os.FileInfo], as far as the program reads it. *)
Record FileInfo := mkFileInfo { IsDir : bool; Size : Z }.

(** One call of the function [filepath.Walk] is given: the path, its
    [FileInfo], and the error of reaching it, if any. *)
Record Visit := mkVisit {
  v_path : gostring;
  v_info : FileInfo;
  v_err : option error;
}.

(** The statements the store sends to SQLite. *)
Inductive Stmt : Type :=
| SelectBySlug (slug : gostring)
| TouchLastUsed (slug : gostring)
| InsertOrReplace (slug modelID fileName filePath fileSize : gostring)
| DeleteBySlug (slug : gostring)
| UpdateSlug (newSlug oldSlug : gostring).

(** [server.completionRequest]. The two floats are carried as the text of
    their literals: the program only passes them on. *)
Record completionRequest := mkCompletionRequest {
  Prompt : gostring;
  NPredict : Z;
  Temperature : gostring;
  TopK : Z;
  TopP : gostring;
  CachePrompt : bool;
  Stop : list gostring;
  Stream : bool;
}.

(** The answer of the model hub to [GET /api/models/<id>], as far as [Pull]
    takes it apart: the transport fails, or there is a status and a body;
    the body cannot be read, or is no JSON for [huggingFaceModel], or
    decodes to a manifest whose [siblings] have these [rfilename]s. *)
Inductive HubBody : Type :=
| BodyUnread (err : error)
| BodyMalformed (err : error)
| Manifest (siblings : list gostring).

Inductive HubReply : Type :=
| HubUnreachable (err : error)
| HubResponse (status : Z) (body : HubBody).

(** The answer of the inference server: no connection, or a status and a
    body. The body is given as [bufio.Scanner] splits it into lines, with
    the error the scanner ends on, if any. *)
Inductive HttpReply : Type :=
| NoConnection (err : error)
| Response (status : Z) (body : list gostring) (scanErr : option error).

(** A child process: it cannot be started, or it runs under [pid] and,
    for a caller that waits, exits with [code], having printed [stdout]
    and written [files]. *)
Inductive ExecReply : Type :=
| NotStarted (err : error)
| Ran (pid : Z) (code : Z) (stdout : gostring) (files : gmap gostring FileInfo).

Inductive Signal : Type := SIGTERM | SIGKILL.

(** What the program does to the outside, in the order it does it. *)
Inductive Event : Type :=
| EvInfo (msg : gostring)
| EvWarn (msg : gostring)
| EvError (msg : gostring)
| EvStdout (text : gostring)
| EvSql (q : Stmt)
| EvStat (path : gostring)
| EvGlob (pattern : gostring)
| EvMkdirAll (path : gostring)
| EvRemove (path : gostring)
| EvCreate (path : gostring)
| EvWalk (root : gostring)
| EvHubGet (url : gostring)
| EvGet (url : gostring)
| EvPost (url : gostring) (req : completionRequest)
| EvExec (argv : list gostring)
| EvSleep (seconds : Z)
| EvSignal (pid : Z) (sig : Signal)
| EvReadLine.

(** The state of the world. [models] and [fs] are what the program owns;
    the scripted fields are the answers the outside will give, consumed
    from the head ([dbFaults] and [fsFaults]: [Some e] makes the next call
    of the driver, or of the file system, fail with [e]; an exhausted
    script means success, for [inference] no connection, for [execs] a
    clean exit and for [stdin] the end of the input). *)
Record World := mkWorld {
  models : list Model;
  now : Z;
  fs : gmap gostring FileInfo;
  tree : list Visit;
  hub : gostring → HubReply;
  inference : list HttpReply;
  execs : list ExecReply;
  stdin : list gostring;
  findable : Z → option error;
  deliverable : Z → Signal → option error;
  dbFaults : list (option error);
  fsFaults : list (option error);
  trace : list Event;
}.

Definition with_models (ms : list Model) (w : World) : World :=
  mkWorld ms (now w) (fs w) (tree w) (hub w) (inference w) (execs w) (stdin w)
          (findable w) (deliverable w) (dbFaults w) (fsFaults w) (trace w).

Definition with_now (t : Z) (w : World) : World :=
  mkWorld (models w) t (fs w) (tree w) (hub w) (inference w) (execs w) (stdin w)
          (findable w) (deliverable w) (dbFaults w) (fsFaults w) (trace w).

Definition with_fs (f : gmap gostring FileInfo) (w : World) : World :=
  mkWorld (models w) (now w) f (tree w) (hub w) (inference w) (execs w) (stdin w)
          (findable w) (deliverable w) (dbFaults w) (fsFaults w) (trace w).

Definition with_inference (l : list HttpReply) (w : World) : World :=
  mkWorld (models w) (now w) (fs w) (tree w) (hub w) l (execs w) (stdin w)
          (findable w) (deliverable w) (dbFaults w) (fsFaults w) (trace w).

Definition with_execs (l : list ExecReply) (w : World) : World :=
  mkWorld (models w) (now w) (fs w) (tree w) (hub w) (inference w) l (stdin w)
          (findable w) (deliverable w) (dbFaults w) (fsFaults w) (trace w).

Definition with_stdin (l : list gostring) (w : World) : World :=
  mkWorld (models w) (now w) (fs w) (tree w) (hub w) (inference w) (execs w) l
          (findable w) (deliverable w) (dbFaults w) (fsFaults w) (trace w).

Definition with_dbFaults (l : list (option error)) (w : World) : World :=
  mkWorld (models w) (now w) (fs w) (tree w) (hub w) (inference w) (execs w) (stdin w)
          (findable w) (deliverable w) l (fsFaults w) (trace w).

Definition with_fsFaults (l : list (option error)) (w : World) : World :=
  mkWorld (models w) (now w) (fs w) (tree w) (hub w) (inference w) (execs w) (stdin w)
          (findable w) (deliverable w) (dbFaults w) l (trace w).

Definition with_trace (t : list Event) (w : World) : World :=
  mkWorld (models w) (now w) (fs w) (tree w) (hub w) (inference w) (execs w) (stdin w)
          (findable w) (deliverable w) (dbFaults w) (fsFaults w) t.

(** *** Computations that change the world and may return an error *)

Inductive result (A : Type) : Type :=
| Ok (a : A)
| Err (e : error).

Arguments Ok {A} a.
Arguments Err {A} e.

Definition M (A : Type) : Type := World → result A * World.

Definition ret {A} (a : A) : M A := λ w, (Ok a, w).

Definition raise {A} (e : error) : M A := λ w, (Err e, w).

Definition bind {A B} (m : M A) (k : A → M B) : M B :=
  λ w, match m w with
       | (Ok a, w') => k a w'
       | (Err e, w') => (Err e, w')
       end.

Notation "'let*' x ':=' m 'in' k" := (bind m (λ x, k))
  (at level 10, x name, m at level 100, k at level 200).
Notation "m ';;' k" := (bind m (λ _, k))
  (at level 100, k at level 200, right associativity).

(** [v, err := m]: the error is handed to the caller as a value. *)
Definition attempt {A} (m : M A) : M (result A) :=
  λ w, let '(r, w') := m w in (Ok r, w').

(** [if err != nil { return fmt.Errorf("<context>: %w", err) }] *)
Definition wrapping {A} (context : string) (m : M A) : M A :=
  λ w, match m w with
       | (Err e, w') => (Err (wrapf context e), w')
       | ok => ok
       end.

Definition emit (e : Event) : M unit :=
  λ w, (Ok (), with_trace (trace w ++ [e]) w).

Definition get {A} (f : World → A) : M A := λ w, (Ok (f w), w).

Definition modify (f : World → World) : M unit := λ w, (Ok (), f w).

(** A loop over a slice whose body may return from the function. *)
Fixpoint forEach {A} (l : list A) (body : A → M unit) : M unit :=
  match l with
  | [] => ret ()
  | a :: l' => body a ;; forEach l' body
  end.

(** The next entry of a fault script. *)
Definition nextFault (faults : list (option error)) : option error * list (option error) :=
  match faults with
  | [] => (None, [])
  | f :: rest => (f, rest)
  end.

(** The [ui] package. *)
Module ui.

Definition PrintInfo (msg : gostring) : M unit := emit (EvInfo msg).
Definition PrintWarn (msg : gostring) : M unit := emit (EvWarn msg).
Definition PrintError (msg : gostring) : M unit := emit (EvError msg).

(** The colours of the terminal: ESC, then the code. *)
Definition colorReset : gostring := 27 :: lit "[0m".
Definition colorCyan : gostring := 27 :: lit "[0;36m".
Definition colorGreen : gostring := 27 :: lit "[0;32m".
Definition colorYellow : gostring := 27 :: lit "[0;33m".
Definition colorMagenta : gostring := 27 :: lit "[0;35m".
Definition colorGray : gostring := 27 :: lit "[0;90m".

(** [fmt.Println(s)] and [fmt.Printf]: the text goes to the terminal. *)
Definition Println (s : gostring) : M unit := emit (EvStdout (s ++ [10])).

(** The verb [%-26s]: the string, padded with spaces on the right to 26
    runes. *)
Definition padRight (width : nat) (s : gostring) : gostring :=
  s ++ replicate (width - length s) (chr " ").

(** PrintHelp prints help for a command *)
Definition PrintHelp (command description args : gostring) : M unit :=
  emit (EvStdout (lit "Usage: llm-cli " ++ colorGreen ++ command ++ colorReset ++ lit " "
                  ++ args ++ [10])) ;;
  Println description ;;
  Println [] ;;
  match args with
  | [] => ret ()
  | _ :: _ =>
      Println (lit "Arguments:") ;;
      emit (EvStdout (lit "  " ++ args ++ [10]))
  end.

(** printCommand prints a formatted command with description *)
Definition printCommand (cmd desc : gostring) : M unit :=
  emit (EvStdout (lit "  " ++ colorGreen ++ padRight 26 cmd ++ colorReset ++ lit " "
                  ++ colorGray ++ lit "....................." ++ colorReset ++ lit " "
                  ++ desc ++ [10])).

(** PrintUsage prints the usage information *)
Definition PrintUsage : M unit :=
  emit (EvStdout (colorCyan ++ lit "Usage:" ++ colorReset ++ lit " llm-cli " ++ colorGreen
                  ++ lit "<command>" ++ colorReset ++ lit " [options]" ++ [10; 10])) ;;
  emit (EvStdout (colorYellow ++ lit "Model Management:" ++ colorReset ++ [10])) ;;
  printCommand (lit "pull <model_id>") (lit "Download a new model") ;;
  printCommand (lit "rm <slug>") (lit "Remove a model") ;;
  printCommand (lit "ls") (lit "List all models") ;;
  printCommand (lit "alias <old> <new>") (lit "Create an alias for a model") ;;
  printCommand (lit "import") (lit "Import existing models") ;;
  Println [] ;;
  emit (EvStdout (colorYellow ++ lit "Model Operations:" ++ colorReset ++ [10])) ;;
  printCommand (lit "run <slug> [text]")
               (lit "Run a model server and optionally complete text") ;;
  printCommand (lit "chat <slug>") (lit "Start a chat session") ;;
  printCommand (lit "embed <slug> <text>") (lit "Generate embeddings") ;;
  printCommand (lit "tokenize <slug> <text>") (lit "Tokenize text") ;;
  printCommand (lit "detokenize <slug> <tokens>") (lit "Detokenize text") ;;
  Println [] ;;
  emit (EvStdout (colorYellow ++ lit "Server Information:" ++ colorReset ++ [10])) ;;
  printCommand (lit "health") (lit "Check server health") ;;
  printCommand (lit "props") (lit "Get server properties") ;;
  printCommand (lit "ps") (lit "Show running processes") ;;
  printCommand (lit "kill <slug|all>") (lit "Kill a model server") ;;
  printCommand (lit "reset") (lit "Reset the database") ;;
  printCommand (lit "recent") (lit "Get most recent GGUF models") ;;
  printCommand (lit "trending") (lit "Get trending GGUF models") ;;
  Println [] ;;
  emit (EvStdout (colorMagenta ++ lit "For more information, use:" ++ colorReset
                  ++ lit " llm-cli " ++ colorGreen ++ lit "<command> --help" ++ colorReset
                  ++ [10])).

End ui.

(** ** Paths ([path/filepath], on a Unix system) *)
Module filepath.

Definition Separator : rune := chr "/".

Definition cleanStep (rooted : bool) (out : list gostring) (elem : gostring)
  : list gostring :=
  if bool_decide (elem = []) || bool_decide (elem = lit ".") then out
  else if bool_decide (elem = lit "..") then
    match last out with
    | Some l => if bool_decide (l = lit "..") then out ++ [elem]
                else take (length out - 1) out
    | None => if rooted then out else [elem]
    end
  else out ++ [elem].

(** [filepath.Clean]: empty and [.] elements are dropped, [..] removes the
    element before it (at the root it is dropped, at the start of a
    relative path it stays), and the empty result is [.]. *)
Definition Clean (path : gostring) : gostring :=
  match path with
  | [] => lit "."
  | r :: _ =>
      let rooted := bool_decide (r = Separator) in
      let body :=
        strings.Join (foldl (cleanStep rooted) [] (strings.Split path [Separator]))
                     [Separator] in
      if rooted then Separator :: body
      else match body with [] => lit "." | _ => body end
  end.

(** [filepath.Join]: leading empty elements are ignored, the rest is joined
    with the separator and cleaned. *)
Fixpoint Join (elem : list gostring) : gostring :=
  match elem with
  | [] => []
  | [] :: rest => Join rest
  | _ :: _ => Clean (strings.Join elem [Separator])
  end.

(** [filepath.Base]: the last element, trailing separators removed. *)
Definition Base (path : gostring) : gostring :=
  match path with
  | [] => lit "."
  | _ =>
      match strings.TrimRightFunc (λ r, bool_decide (r = Separator)) path with
      | [] => [Separator]
      | p => default [] (last (strings.Split p [Separator]))
      end
  end.

(** [filepath.Rel(basepath, targpath)] for a target that is the base or
    lies below it, which is all a walk from the base reports: both paths are
    cleaned, the base itself is [.], a path below it loses the base and
    one separator. Go answers the other targets with a path that climbs
    through [..] or with an error; the model answers them [None]. *)
Definition Rel (basepath targpath : gostring) : option gostring :=
  let base := Clean basepath in
  let targ := Clean targpath in
  if bool_decide (targ = base) then Some (lit ".")
  else
    let prefix :=
      if bool_decide (base = lit ".") then []
      else if bool_decide (base = [Separator]) then base
      else base ++ [Separator] in
    if strings.HasPrefix targ prefix
       && negb (strings.HasPrefix targ (lit "../"))
       && negb (bool_decide (targ = lit ".."))
    then Some (drop (length prefix) targ)
    else None.

(** [filepath.Glob] for a pattern [<dir>/*<suffix>] with no other
    meta-character, the only kind the program asks for: the entries of
    [dir] whose name ends in the suffix. (Go's [Glob] ignores I/O errors.) *)
Definition Glob (pattern : gostring) : M (list gostring) :=
  emit (EvGlob pattern) ;;
  let* f := get fs in
  let parts := strings.Split pattern [Separator] in
  let dir := strings.Join (take (length parts - 1) parts) [Separator] in
  match last parts with
  | Some (star :: suffix) =>
      if star =? chr "*"
      then ret (List.filter
                  (λ p, strings.HasPrefix p (dir ++ [Separator])
                        && negb (bool_decide
                                   (Separator ∈ drop (S (length dir)) p))
                        && strings.HasSuffix (drop (S (length dir)) p) suffix)
                  (fst <$> map_to_list f))
      else ret []
  | _ => ret []
  end.

End filepath.

Module os.

Definition noEntry (op : string) (path : gostring) : error :=
  lit op ++ lit " " ++ path ++ lit ": no such file or directory".

(** A call of the file system: the event, then the scripted fault. *)
Definition syscall {A} (e : Event) (run : M A) : M A :=
  emit e ;;
  let* f := get (λ w, nextFault (fsFaults w)) in
  modify (with_fsFaults (snd f)) ;;
  match fst f with
  | Some err => raise err
  | None => run
  end.

Definition Stat (path : gostring) : M FileInfo :=
  syscall (EvStat path)
    (let* f := get fs in
     match f !! path with
     | Some info => ret info
     | None => raise (noEntry "stat" path)
     end).

Definition below (dir path : gostring) : bool :=
  strings.HasPrefix path (dir ++ [chr "/"]).

(** [os.Remove]: a file, or a directory that is empty. *)
Definition Remove (path : gostring) : M unit :=
  syscall (EvRemove path)
    (let* f := get fs in
     match f !! path with
     | None => raise (noEntry "remove" path)
     | Some info =>
         if IsDir info && existsb (λ kv, below path (fst kv)) (map_to_list f)
         then raise (lit "remove " ++ path ++ lit ": directory not empty")
         else modify (with_fs (delete path f))
     end).

(** The path and the directories above it, shortest first. *)
Definition ancestors (path : gostring) : list gostring :=
  filter (λ p, p ≠ [])
    ((λ n, strings.Join (take n (strings.Split path [chr "/"])) [chr "/"])
       <$> seq 1 (length (strings.Split path [chr "/"]))).

(** [os.MkdirAll]: the directory and those above it; a regular file in the
    way is an error. *)
Definition MkdirAll (path : gostring) : M unit :=
  syscall (EvMkdirAll path)
    (let* f := get fs in
     match List.find (λ p, match f !! p with
                           | Some info => negb (IsDir info)
                           | None => false
                           end) (ancestors path) with
     | Some p => raise (lit "mkdir " ++ p ++ lit ": not a directory")
     | None =>
         modify (with_fs (foldr (λ p g, match g !! p with
                                        | Some _ => g
                                        | None => <[p := mkFileInfo true 0]> g
                                        end) f (ancestors path)))
     end).

(** [os.Create]: a new, empty regular file (an old one is truncated). *)
Definition Create (path : gostring) : M unit :=
  syscall (EvCreate path)
    (let* f := get fs in modify (with_fs (<[path := mkFileInfo false 0]> f))).

End os.

(** ** Child processes, signals and the clock *)
Module exec.

(** The child the script holds next; its event is the command line. *)
Definition spawn (argv : list gostring) : M ExecReply :=
  emit (EvExec argv) ;;
  let* script := get execs in
  modify (with_execs (tail script)) ;;
  ret (default (Ran 0 0 [] ∅) (head script)).

(** [cmd.Run()], [cmd.Output()]: the caller waits, so what the child wrote
    is on disk when it returns. *)
Definition Run (argv : list gostring) : M ExecReply :=
  let* reply := spawn argv in
  match reply with
  | NotStarted _ => ret reply
  | Ran _ _ _ files =>
      (let* f := get fs in modify (with_fs (files ∪ f))) ;; ret reply
  end.

(** [cmd.Start()]: the pid of the child, which runs on. *)
Definition Start (argv : list gostring) : M Z :=
  let* reply := spawn argv in
  match reply with
  | NotStarted err => raise err
  | Ran pid _ _ _ => ret pid
  end.

(** The message of an [*exec.ExitError]. *)
Definition exitStatus (code : Z) : error :=
  lit "exit status " ++ strconv.Itoa code.

(** [os.FindProcess(pid)] followed by [process.Signal(sig)]; the outer
    error is that of [FindProcess], the inner one that of [Signal]. *)
Definition FindProcess (pid : Z) : M unit :=
  let* found := get (λ w, findable w pid) in
  match found with
  | Some err => raise err
  | None => ret ()
  end.

Definition Signal_ (pid : Z) (sig : Signal) : M unit :=
  emit (EvSignal pid sig) ;;
  let* sent := get (λ w, deliverable w pid sig) in
  match sent with
  | Some err => raise err
  | None => ret ()
  end.

End exec.

Module time.

(** [time.Sleep(d)], [d] in seconds. *)
Definition Sleep (seconds : Z) : M unit :=
  emit (EvSleep seconds) ;;
  let* t := get now in modify (with_now (t + seconds)).

End time.

(** ** The metadata store ([internal/db])

    Table [models] has the columns of [Model]; [id] is the integer primary
    key and [slug] is declared [TEXT UNIQUE]. The rows are kept as a list,
    oldest first; nothing in the type keeps two rows from having one slug:
    that is what the statements have to ensure. *)
Module db.

Definition setSlug (slug : gostring) (m : Model) : Model :=
  mkModel (ID m) slug (ModelID m) (FileName m) (FilePath m) (FileSize m)
          (CreatedAt m) (LastUsed m).

Definition setLastUsed (t : Z) (m : Model) : Model :=
  mkModel (ID m) (Slug m) (ModelID m) (FileName m) (FilePath m) (FileSize m)
          (CreatedAt m) (Some t).

(** The rowid SQLite gives a new row: one more than the largest in use. *)
Definition nextRowid (rows : list Model) : Z :=
  1 + foldr (λ m acc, Z.max (ID m) acc) 0 rows.

(** What a successful statement returns: the rows it selects, and the
    number of rows it changes. *)
Record Outcome := mkOutcome { selected : list Model; rowsAffected : Z }.

(** The meaning of each statement on the rows, at time [t]:
    - [SELECT ... WHERE slug = ?];
    - [UPDATE models SET last_used = CURRENT_TIMESTAMP WHERE slug = ?];
    - [INSERT OR REPLACE INTO models (slug, model_id, file_name, file_path,
      file_size) VALUES (?, ?, ?, ?, ?)]: the rows that hold the slug are
      deleted, and the new row gets a fresh id, [created_at] by its
      default and no [last_used];
    - [DELETE FROM models WHERE slug = ?];
    - [UPDATE models SET slug = ? WHERE slug = ?]: when a row that is not
      being renamed already holds the new slug, the [UNIQUE] constraint
      fails and the statement changes nothing. *)
Definition run (q : Stmt) (t : Z) (rows : list Model)
  : result (Outcome * list Model) :=
  match q with
  | SelectBySlug slug =>
      Ok (mkOutcome (filter (λ m, Slug m = slug) rows) 0, rows)
  | TouchLastUsed slug =>
      Ok (mkOutcome [] (Z.of_nat (length (filter (λ m, Slug m = slug) rows))),
          (λ m, if decide (Slug m = slug) then setLastUsed t m else m) <$> rows)
  | InsertOrReplace slug modelID fileName filePath fileSize =>
      Ok (mkOutcome [] 1,
          filter (λ m, Slug m ≠ slug) rows
          ++ [mkModel (nextRowid rows) slug modelID fileName filePath fileSize t None])
  | DeleteBySlug slug =>
      Ok (mkOutcome [] (Z.of_nat (length (filter (λ m, Slug m = slug) rows))),
          filter (λ m, Slug m ≠ slug) rows)
  | UpdateSlug newSlug oldSlug =>
      if decide (Exists (λ m, Slug m = newSlug ∧ Slug m ≠ oldSlug) rows
                 ∧ Exists (λ m, Slug m = oldSlug) rows)
      then Err (lit "UNIQUE constraint failed: models.slug")
      else Ok (mkOutcome [] (Z.of_nat (length (filter (λ m, Slug m = oldSlug) rows))),
               (λ m, if decide (Slug m = oldSlug) then setSlug newSlug m else m)
                 <$> rows)
  end.

(** [s.db.QueryRow], [s.db.Exec]: the statement reaches the driver, which
    either fails (the scripted fault) or runs it. *)
Definition Exec (q : Stmt) : M Outcome :=
  emit (EvSql q) ;;
  let* f := get (λ w, nextFault (dbFaults w)) in
  modify (with_dbFaults (snd f)) ;;
  match fst f with
  | Some err => raise err
  | None =>
      let* rows := get models in
      let* t := get now in
      match run q t rows with
      | Err err => raise err
      | Ok (out, rows') => modify (with_models rows') ;; ret out
      end
  end.

Definition notFound (slug : gostring) : error :=
  lit "model with slug '" ++ slug ++ lit "' not found".

Definition noneFound (slug : gostring) : error :=
  lit "no model with slug '" ++ slug ++ lit "' found".

Definition GetModelBySlug (slug : gostring) : M Model :=
  let* r := attempt (Exec (SelectBySlug slug)) in
  match r with
  | Err err => raise (wrapf "querying model" err)
  | Ok out =>
      match selected out with
      | [] => raise (notFound slug)
      | model :: _ => ret model
      end
  end.

Definition UpdateModelLastUsed (slug : gostring) : M unit :=
  let* result := wrapping "updating last used" (Exec (TouchLastUsed slug)) in
  if rowsAffected result =? 0 then raise (noneFound slug) else ret ().

Definition AddModel (slug modelID fileName filePath fileSize : gostring) : M unit :=
  wrapping "inserting model"
    (Exec (InsertOrReplace slug modelID fileName filePath fileSize)) ;;
  ret ().

Definition RemoveModel (slug : gostring) : M unit :=
  let* result := wrapping "deleting model" (Exec (DeleteBySlug slug)) in
  if rowsAffected result =? 0 then raise (noneFound slug) else ret ().

Definition UpdateModelSlug (oldSlug newSlug : gostring) : M unit :=
  let* result := wrapping "updating model slug" (Exec (UpdateSlug newSlug oldSlug)) in
  if rowsAffected result =? 0 then raise (noneFound oldSlug) else ret ().

End db.

(** ** Configuration ([internal/config]) *)
Module config.

Record Config := mkConfig {
  ModelsDir : gostring;
  DBPath : gostring;
  LlamaServer : gostring;
  LlamaCLI : gostring;
  DefaultPort : Z;
  APIURL : gostring;
  Temperature : gostring;
  TopK : Z;
  TopP : gostring;
  NPredictMax : Z;
}.

(** What [Load] returns for a home directory, with no environment
    variable set. *)
Definition Load (homeDir : gostring) : Config :=
  let cacheDir := filepath.Join [homeDir; lit ".cache"; lit "llm-cli"] in
  mkConfig (filepath.Join [cacheDir; lit "models"])
           (filepath.Join [cacheDir; lit "llm-cli.db"])
           (lit "/opt/homebrew/bin/llama-server")
           (lit "/opt/homebrew/bin/llama-cli")
           1966
           (lit "http://localhost:1966")
           (lit "0.7") 40 (lit "0.5") 256.

End config.

(** ** Model acquisition and bookkeeping ([internal/model]) *)
Module model.

Import config.

(** [^[a-zA-Z0-9_-]+/[a-zA-Z0-9_.-]+$] *)
Definition authorClass : regexp.class :=
  regexp.mkClass false
    [(chr "a", chr "z"); (chr "A", chr "Z"); (chr "0", chr "9");
     (chr "_", chr "_"); (chr "-", chr "-")].

Definition nameClass : regexp.class :=
  regexp.mkClass false
    [(chr "a", chr "z"); (chr "A", chr "Z"); (chr "0", chr "9");
     (chr "_", chr "_"); (chr ".", chr "."); (chr "-", chr "-")].

Definition modelIDPattern : regexp.Regexp :=
  regexp.Cat (regexp.Plus (regexp.Set_ authorClass))
    (regexp.Cat (regexp.Lit (chr "/")) (regexp.Plus (regexp.Set_ nameClass))).

(** validateModelID checks if a model ID is valid (author/model-name format) *)
Definition validateModelID (modelID : gostring) : bool :=
  regexp.MatchString modelIDPattern modelID.

(** [[^a-z0-9-]] *)
Definition nonSlugClass : regexp.class :=
  regexp.mkClass true [(chr "a", chr "z"); (chr "0", chr "9"); (chr "-", chr "-")].

(** generateSlug creates a slug from a model ID *)
Definition generateSlug (modelID : gostring) : gostring :=
  let slug := strings.ToLower modelID in
  let slug := strings.ReplaceAll slug (lit "/") (lit "-") in
  let slug := regexp.ReplaceAllString nonSlugClass slug (lit "-") in
  let slug := strings.Trim slug (lit "-") in
  slug.

Definition invalidModelID (modelID : gostring) : error :=
  lit "invalid model ID format: " ++ modelID.

(** [fmt.Sprintf("%dM", size/(1024*1024))] *)
Definition megabytes (size : Z) : gostring :=
  strconv.Itoa (size ÷ (1024 * 1024)) ++ lit "M".

(** [http.Get(apiURL)], the status check, [io.ReadAll] and
    [json.Unmarshal] of [Pull]. *)
Definition fetchModelInfo (modelID apiURL : gostring) : M (list gostring) :=
  emit (EvHubGet apiURL) ;;
  let* reply := get (λ w, hub w apiURL) in
  match reply with
  | HubUnreachable err => raise (wrapf "fetching model information" err)
  | HubResponse status body =>
      if negb (status =? 200)
      then raise (lit "API returned status " ++ strconv.Itoa status)
      else match body with
           | BodyUnread err => raise (wrapf "reading API response" err)
           | BodyMalformed err => raise (wrapf "parsing model information" err)
           | Manifest siblings => ret siblings
           end
  end.

(** [cmd.Run()] of the downloader, its output on the terminal. *)
Definition runDownloader (argv : list gostring) : M unit :=
  let* reply := exec.Run argv in
  match reply with
  | NotStarted err => raise (wrapf "downloading model" err)
  | Ran _ code out _ =>
      emit (EvStdout out) ;;
      if code =? 0 then ret ()
      else raise (wrapf "downloading model" (exec.exitStatus code))
  end.

(** Pull downloads a model from Hugging Face *)
Definition Pull (cfg : Config) (modelID : gostring) : M unit :=
  if negb (validateModelID modelID) then raise (invalidModelID modelID)
  else
    let modelDir := filepath.Join [ModelsDir cfg; modelID] in
    let* dir := attempt (os.Stat modelDir) in
    let* files :=
      match dir with
      | Ok _ => filepath.Glob (filepath.Join [modelDir; lit "*.gguf"])
      | Err _ => ret []
      end in
    match files with
    | _ :: _ =>
        ui.PrintWarn (lit "Model already exists in " ++ modelDir
                      ++ lit ". Remove existing files to re-download.")
    | [] =>
        ui.PrintInfo (lit "Fetching model information for " ++ modelID ++ lit "...") ;;
        let apiURL := lit "https://huggingface.co/api/models/" ++ modelID
                      ++ lit "?filter=gguf&sort=lastModified" in
        let* siblings := fetchModelInfo modelID apiURL in
        match List.find (λ name, strings.HasSuffix (strings.ToLower name)
                                                   (lit "q4_k_m.gguf")) siblings with
        | None => raise (lit "no q4_k_m.gguf file found for " ++ modelID)
        | Some [] => raise (lit "no q4_k_m.gguf file found for " ++ modelID)
        | Some fileToDownload =>
            wrapping "creating model directory" (os.MkdirAll modelDir) ;;
            ui.PrintInfo (lit "Downloading " ++ fileToDownload ++ lit " for model "
                          ++ modelID ++ lit "...") ;;
            runDownloader [lit "huggingface-cli"; lit "download"; modelID;
                           fileToDownload; lit "--local-dir"; modelDir] ;;
            let downloadedFile := filepath.Join [modelDir; fileToDownload] in
            wrapping "downloaded file not found" (os.Stat downloadedFile) ;;
            let* fileInfo := wrapping "getting file info" (os.Stat downloadedFile) in
            let fileSize := megabytes (Size fileInfo) in
            let slug := generateSlug modelID in
            wrapping "adding model to database"
              (db.AddModel slug modelID fileToDownload downloadedFile fileSize) ;;
            ui.PrintInfo (lit "Model added to database with slug: " ++ slug) ;;
            emit (EvStdout (lit "To use this model, run: llm-cli chat " ++ slug
                            ++ [10]))
        end
    end.

(** Remove removes a model *)
Definition Remove (cfg : Config) (slug : gostring) : M unit :=
  let* model := db.GetModelBySlug slug in
  wrapping "removing file" (os.Remove (FilePath model)) ;;
  db.RemoveModel slug ;;
  ui.PrintInfo (lit "Model '" ++ slug ++ lit "' removed from filesystem and database.").

Definition alreadyExists (newSlug : gostring) : error :=
  lit "model with slug '" ++ newSlug ++ lit "' already exists".

(** Alias creates an alias for a model *)
Definition Alias (oldSlug newSlug : gostring) : M unit :=
  db.GetModelBySlug oldSlug ;;
  let* existing := attempt (db.GetModelBySlug newSlug) in
  match existing with
  | Ok _ => raise (alreadyExists newSlug)
  | Err _ =>
      db.UpdateModelSlug oldSlug newSlug ;;
      ui.PrintInfo (lit "Model '" ++ oldSlug ++ lit "' aliased to '" ++ newSlug
                    ++ lit "'.")
  end.

(** The function [ImportExisting] hands to [filepath.Walk]. *)
Definition importVisit (cfg : Config) (v : Visit) : M unit :=
  match v_err v with
  | Some err => raise err
  | None =>
      let path := v_path v in
      let info := v_info v in
      if negb (IsDir info)
         && strings.HasSuffix (strings.ToLower path) (lit ".gguf")
      then
        match filepath.Rel (ModelsDir cfg) path with
        | None =>
            raise (wrapf "getting relative path"
                     (lit "Rel: can't make " ++ path ++ lit " relative to "
                      ++ ModelsDir cfg))
        | Some rel =>
            let parts := strings.Split rel [filepath.Separator] in
            if (length parts <? 2)%nat then ret ()
            else
              let modelID :=
                if (2 <? length parts)%nat
                then filepath.Join (take (length parts - 1) parts)
                else default [] (head parts) in
              let fileName := filepath.Base path in
              let fileSize := megabytes (Size info) in
              let slug := generateSlug modelID in
              let* added := attempt (db.AddModel slug modelID fileName path fileSize) in
              match added with
              | Err err =>
                  ui.PrintWarn (lit "Failed to import model " ++ path ++ lit ": " ++ err)
              | Ok _ => ui.PrintInfo (lit "Imported model: " ++ slug)
              end
        end
      else ret ()
  end.

(** ImportExisting imports existing models from the filesystem.
    [filepath.Walk] calls the function once per visit, in order, and stops
    at the first call that returns an error, which it returns itself. *)
Definition ImportExisting (cfg : Config) : M unit :=
  ui.PrintInfo (lit "Scanning for existing models in " ++ ModelsDir cfg ++ lit "...") ;;
  emit (EvWalk (ModelsDir cfg)) ;;
  let* visits := get tree in
  wrapping "walking models directory" (forEach visits (importVisit cfg)) ;;
  ui.PrintInfo (lit "Import completed.").

End model.

(** ** JSON ([encoding/json], decoding into [map[string]interface{}]) *)
Module json.

#[local] Unset Elimination Schemes.
Inductive Value : Type :=
| JNull
| JBool (b : bool)
| JNumber (text : gostring)
| JString (s : gostring)
| JArray (elems : list Value)
| JObject (members : list (gostring * Value)).
#[local] Set Elimination Schemes.

Definition isSpace (c : rune) : bool :=
  (c =? 32) || (c =? 9) || (c =? 13) || (c =? 10).

Definition skipSpace (s : gostring) : gostring := strings.TrimLeftFunc isSpace s.

Definition hexValue (c : rune) : option Z :=
  if strconv.isDigit c then Some (c - 48)
  else if (chr "a" <=? c) && (c <=? chr "f") then Some (c - 87)
  else if (chr "A" <=? c) && (c <=? chr "F") then Some (c - 55)
  else None.

(** [getu4]: the code unit of a [\uXXXX] escape that starts [s]. *)
Definition getu4 (s : gostring) : option Z :=
  match s with
  | b :: u :: h1 :: h2 :: h3 :: h4 :: _ =>
      if (b =? 92) && (u =? chr "u") then
        d1 ← hexValue h1; d2 ← hexValue h2; d3 ← hexValue h3; d4 ← hexValue h4;
        Some (((d1 * 16 + d2) * 16 + d3) * 16 + d4)
      else None
  | _ => None
  end.

Definition unescape (c : rune) : option rune :=
  if (c =? dquote) || (c =? 92) || (c =? chr "/") then Some c
  else if c =? chr "b" then Some 8
  else if c =? chr "f" then Some 12
  else if c =? chr "n" then Some 10
  else if c =? chr "r" then Some 13
  else if c =? chr "t" then Some 9
  else None.

Definition replacementChar : rune := 65533.

(** The text of a string literal after its opening quote: the string and
    what follows the closing quote. A control character, an unknown escape
    or the end of the input is an error; a surrogate escape that is not
    followed by its other half is U+FFFD. *)
Fixpoint scanString (fuel : nat) (s acc : gostring) : option (gostring * gostring) :=
  match fuel, s with
  | S fuel', c :: rest =>
      if c =? dquote then Some (acc, rest)
      else if c =? 92 then
        match rest with
        | [] => None
        | e :: rest' =>
            if e =? chr "u" then
              match getu4 s with
              | None => None
              | Some rr =>
                  let after := drop 6 s in
                  if (55296 <=? rr) && (rr <? 57344) then
                    match getu4 after with
                    | Some rr1 =>
                        if (rr <? 56320) && (56320 <=? rr1) && (rr1 <? 57344)
                        then scanString fuel' (drop 6 after)
                               (acc ++ [65536 + (rr - 55296) * 1024 + (rr1 - 56320)])
                        else scanString fuel' after (acc ++ [replacementChar])
                    | None => scanString fuel' after (acc ++ [replacementChar])
                    end
                  else scanString fuel' after (acc ++ [rr])
              end
            else
              match unescape e with
              | Some x => scanString fuel' rest' (acc ++ [x])
              | None => None
              end
        end
      else if c <? 32 then None
      else scanString fuel' rest (acc ++ [c])
  | _, _ => None
  end.

Fixpoint spanDigits (s : gostring) : gostring * gostring :=
  match s with
  | c :: rest =>
      if strconv.isDigit c
      then let '(ds, tl) := spanDigits rest in (c :: ds, tl)
      else ([], s)
  | [] => ([], [])
  end.

(** The parts of a number literal: sign, integer digits, fraction digits,
    and the exponent with its sign ([-? int frac? exp?], where [int] has
    no leading zero); and the rest of the input. *)
Record NumberParts := mkNumberParts {
  negative : bool;
  intDigits : gostring;
  fracDigits : gostring;
  expNegative : bool;
  expDigits : gostring;
}.

Definition scanNumber (s : gostring) : option (NumberParts * gostring) :=
  let '(neg, s1) :=
    match s with
    | c :: t => if c =? chr "-" then (true, t) else (false, s)
    | [] => (false, s)
    end in
  let '(ints, s2) := spanDigits s1 in
  match ints with
  | [] => None
  | d :: more =>
      if (d =? chr "0") && negb (bool_decide (more = [])) then
        (* a leading zero ends the integer part *)
        Some (mkNumberParts neg [d] [] false [], more ++ s2)
      else
        let fracPart :=
          match s2 with
          | c :: t =>
              if c =? chr "." then
                let '(fs, t') := spanDigits t in
                match fs with [] => None | _ => Some (fs, t') end
              else Some ([], s2)
          | [] => Some ([], s2)
          end in
        '(fracs, s3) ← fracPart;
        match s3 with
        | c :: t =>
            if (c =? chr "e") || (c =? chr "E") then
              let '(eneg, t1) :=
                match t with
                | g :: t' => if g =? chr "-" then (true, t')
                             else if g =? chr "+" then (false, t')
                             else (false, t)
                | [] => (false, t)
                end in
              let '(es, t2) := spanDigits t1 in
              match es with
              | [] => None
              | _ => Some (mkNumberParts neg ints fracs eneg es, t2)
              end
            else Some (mkNumberParts neg ints fracs false [], s3)
        | [] => Some (mkNumberParts neg ints fracs false [], s3)
        end
  end.

Definition numberText (p : NumberParts) : gostring :=
  (if negative p then lit "-" else [])
  ++ intDigits p
  ++ (match fracDigits p with [] => [] | fd => chr "." :: fd end)
  ++ (match expDigits p with
      | [] => []
      | ed => chr "e" :: (if expNegative p then lit "-" else []) ++ ed
      end).

(** Whether [strconv.ParseFloat(s, 64)] succeeds: the number must round to
    a finite float64, that is, lie below [2^1024 - 2^970] in magnitude. *)
Definition fitsFloat64 (p : NumberParts) : bool :=
  let m := default 0 (strconv.digitsValue 0 (intDigits p ++ fracDigits p)) in
  let e := default 0 (strconv.digitsValue 0 (expDigits p)) in
  let scale := (if expNegative p then - e else e) - Z.of_nat (length (fracDigits p)) in
  let bound := 2 ^ 1024 - 2 ^ 970 in
  if m =? 0 then true
  else if 400 <? scale then false
  else if 0 <=? scale then m * 10 ^ scale <? bound
  else if Z.of_nat (length (intDigits p ++ fracDigits p)) <=? - scale then true
  else m <? bound * 10 ^ (- scale).

Definition maxNestingDepth : Z := 10000.

(** A value, then the members of an object after its [{], then the
    elements of an array after its [[]. The fuel bounds the number of
    calls; twice the length of the input is enough, since a call that
    does not consume a rune is followed by one that does. *)
Fixpoint parseValue (fuel : nat) (depth : Z) (s : gostring)
  : option (Value * gostring) :=
  match fuel with
  | O => None
  | S fuel' =>
      match skipSpace s with
      | [] => None
      | c :: rest =>
          if c =? chr "{" then
            if maxNestingDepth <=? depth then None
            else match skipSpace rest with
                 | c' :: rest' =>
                     if c' =? chr "}" then Some (JObject [], rest')
                     else parseMembers fuel' (depth + 1) [] rest
                 | [] => None
                 end
          else if c =? chr "[" then
            if maxNestingDepth <=? depth then None
            else match skipSpace rest with
                 | c' :: rest' =>
                     if c' =? chr "]" then Some (JArray [], rest')
                     else parseElements fuel' (depth + 1) [] rest
                 | [] => None
                 end
          else if c =? dquote then
            '(str, rest') ← scanString (length rest) rest [];
            Some (JString str, rest')
          else if strings.HasPrefix (c :: rest) (lit "true")
          then Some (JBool true, drop 4 (c :: rest))
          else if strings.HasPrefix (c :: rest) (lit "false")
          then Some (JBool false, drop 5 (c :: rest))
          else if strings.HasPrefix (c :: rest) (lit "null")
          then Some (JNull, drop 4 (c :: rest))
          else
            '(parts, rest') ← scanNumber (c :: rest);
            if fitsFloat64 parts then Some (JNumber (numberText parts), rest')
            else None
      end
  end
with parseMembers (fuel : nat) (depth : Z) (acc : list (gostring * Value))
                  (s : gostring) : option (Value * gostring) :=
  match fuel with
  | O => None
  | S fuel' =>
      match skipSpace s with
      | q :: rest =>
          if q =? dquote then
            '(key, rest1) ← scanString (length rest) rest [];
            match skipSpace rest1 with
            | colon :: rest2 =>
                if colon =? chr ":" then
                  '(v, rest3) ← parseValue fuel' depth rest2;
                  match skipSpace rest3 with
                  | d :: rest4 =>
                      if d =? chr "," then
                        parseMembers fuel' depth (acc ++ [(key, v)]) rest4
                      else if d =? chr "}" then
                        Some (JObject (acc ++ [(key, v)]), rest4)
                      else None
                  | [] => None
                  end
                else None
            | [] => None
            end
          else None
      | [] => None
      end
  end
with parseElements (fuel : nat) (depth : Z) (acc : list Value) (s : gostring)
  : option (Value * gostring) :=
  match fuel with
  | O => None
  | S fuel' =>
      '(v, rest1) ← parseValue fuel' depth s;
      match skipSpace rest1 with
      | d :: rest2 =>
          if d =? chr "," then parseElements fuel' depth (acc ++ [v]) rest2
          else if d =? chr "]" then Some (JArray (acc ++ [v]), rest2)
          else None
      | [] => None
      end
  end.

(** One JSON value and nothing but white space after it. *)
Definition parse (data : gostring) : option Value :=
  '(v, rest) ← parseValue (2 * length data + 2) 0 data;
  match skipSpace rest with
  | [] => Some v
  | _ :: _ => None
  end.

(** [json.Unmarshal(data, &m)] for [var m map[string]interface{}]: an
    object fills the map, a later member replacing an earlier one of the
    same key; [null] leaves the map [nil] (here: empty); any other value
    and any malformed input is an error. *)
Definition Unmarshal (data : gostring) : result (list (gostring * Value)) :=
  match parse data with
  | None => Err (lit "invalid character in JSON input")
  | Some (JObject members) => Ok members
  | Some JNull => Ok []
  | Some _ =>
      Err (lit "json: cannot unmarshal into Go value of type map[string]interface {}")
  end.

(** [m[key]] *)
Definition index (m : list (gostring * Value)) (key : gostring) : option Value :=
  snd <$> last (List.filter (λ kv, bool_decide (fst kv = key)) m).

End json.

(** ** The inference server ([internal/server]) *)
Module server.

Import config.

(** [http.Get] and [client.Do] against the inference server: the next
    scripted answer. *)
Definition roundTrip (e : Event) : M HttpReply :=
  emit e ;;
  let* script := get inference in
  modify (with_inference (tail script)) ;;
  ret (default (NoConnection (lit "connection refused")) (head script)).

(** IsServerRunningForPath checks if a server is running for the given model path *)
Definition IsServerRunningForPath (modelPath : gostring) : M bool :=
  let* reply := exec.Run [lit "pgrep"; lit "-f"; lit "llama-server.*" ++ modelPath] in
  match reply with
  | NotStarted err => raise (wrapf "checking server" err)
  | Ran _ code output _ =>
      if code =? 0 then ret (0 <? length output)%nat
      else if code =? 1 then ret false
      else raise (wrapf "checking server" (exec.exitStatus code))
  end.

(** IsServerRunning checks if a server is running on the given port *)
Definition IsServerRunning (port : Z) : M bool :=
  let* reply := roundTrip (EvGet (lit "http://localhost:" ++ strconv.Itoa port
                                  ++ lit "/health")) in
  match reply with
  | NoConnection _ => ret false
  | Response status _ _ => ret (status =? 200)
  end.

(** The loop of [WaitForServer] from counter [i], with [left] iterations
    to go before [i] reaches [maxWaitSeconds]. *)
Fixpoint waitFrom (port maxWaitSeconds i : Z) (left : nat) : M unit :=
  match left with
  | O =>
      raise (lit "server failed to start within " ++ strconv.Itoa maxWaitSeconds
             ++ lit " seconds")
  | S left' =>
      (if (0 <? i) && (Z.rem i 10 =? 0) then emit (EvStdout (lit ".")) else ret ()) ;;
      let* running := IsServerRunning port in
      if running then
        emit (EvStdout [10]) ;;
        ui.PrintInfo (lit "Server is ready after " ++ strconv.Itoa i ++ lit " seconds.")
      else
        time.Sleep 1 ;;
        waitFrom port maxWaitSeconds (i + 1) left'
  end.

(** WaitForServer waits for the server to be ready *)
Definition WaitForServer (port maxWaitSeconds : Z) : M unit :=
  ui.PrintInfo (lit "Waiting for server to be ready...") ;;
  waitFrom port maxWaitSeconds 0 (Z.to_nat maxWaitSeconds).

(** EnsureServerRunning makes sure a server is running for the given model *)
Definition EnsureServerRunning (cfg : Config) (slug : gostring) : M unit :=
  let* model := db.GetModelBySlug slug in
  wrapping "updating last used timestamp" (db.UpdateModelLastUsed slug) ;;
  let* serverRunning :=
    wrapping "checking server status" (IsServerRunningForPath (FilePath model)) in
  if serverRunning : bool then
    ui.PrintInfo (lit "Server for model " ++ slug ++ lit " is already running.")
  else
    ui.PrintInfo (lit "Starting server for model " ++ slug ++ lit "...") ;;
    let logFile := lit "/tmp/llama_server_" ++ slug ++ lit ".log" in
    wrapping "creating log file" (os.Create logFile) ;;
    let* pid :=
      wrapping "starting server"
        (exec.Start [LlamaServer cfg; lit "-m"; FilePath model; lit "--port";
                     strconv.Itoa (DefaultPort cfg)]) in
    ui.PrintInfo (lit "Server started with PID " ++ strconv.Itoa pid ++ lit ". Logs: "
                  ++ logFile) ;;
    wrapping "waiting for server" (WaitForServer (DefaultPort cfg) 300).

(** formatChatPrompt formats a chat prompt with history *)
Fixpoint formatTurns (history : list gostring) : gostring :=
  match history with
  | [] => []
  | [human] => lit "
### Human: " ++ human
  | human :: assistant :: rest =>
      lit "
### Human: " ++ human ++ lit "
### Assistant: " ++ assistant ++ formatTurns rest
  end.

Definition formatChatPrompt (history : list gostring) : gostring :=
  lit "A chat between a curious human and an artificial intelligence assistant. "
  ++ lit "The assistant gives helpful, detailed, and polite answers to the human's questions."
  ++ formatTurns history
  ++ (if Nat.odd (length history) then lit "
### Assistant: " else []).

(** One line of the event stream: a line that carries the marker and a
    JSON object with a string under [content] adds that string to the
    terminal and to the response; any other line adds nothing. *)
Definition streamLine (fullResponse line : gostring) : M gostring :=
  if strings.HasPrefix line (lit "data: ") then
    let data := strings.TrimPrefix line (lit "data: ") in
    match json.Unmarshal data with
    | Err _ => ret fullResponse
    | Ok streamData =>
        match json.index streamData (lit "content") with
        | Some (json.JString content) =>
            emit (EvStdout content) ;; ret (fullResponse ++ content)
        | _ => ret fullResponse
        end
    end
  else ret fullResponse.

Fixpoint scanLines (lines : list gostring) (fullResponse : gostring) : M gostring :=
  match lines with
  | [] => ret fullResponse
  | line :: rest =>
      let* fullResponse' := streamLine fullResponse line in
      scanLines rest fullResponse'
  end.

(** The body of the loop of [Chat], after the test for [exit]: the input
    joins the history, the whole history is sent as one prompt, and the
    streamed answer joins the history as one entry. *)
Definition chatTurn (cfg : Config) (chatHistory : list gostring) (userInput : gostring)
  : M (list gostring) :=
  let chatHistory := chatHistory ++ [userInput] in
  let prompt := formatChatPrompt chatHistory in
  let req := mkCompletionRequest prompt (NPredictMax cfg) (Temperature cfg) (TopK cfg)
               (TopP cfg) true [lit "
### Human:"] true in
  let* resp := roundTrip (EvPost (APIURL cfg ++ lit "/completion") req) in
  match resp with
  | NoConnection err => raise (wrapf "sending request" err)
  | Response status body scanErr =>
      if negb (status =? 200) then
        raise (lit "API returned status " ++ strconv.Itoa status ++ lit ": "
               ++ strings.Join body [10])
      else
        emit (EvStdout (lit "Assistant: ")) ;;
        let* fullResponse := scanLines body [] in
        emit (EvStdout [10]) ;;
        match scanErr with
        | Some err => raise (wrapf "reading stream" err)
        | None => ret (chatHistory ++ [fullResponse])
        end
  end.

(** The loop of [Chat] over the lines the user will type. *)
Fixpoint chatLoop (cfg : Config) (input : list gostring) (chatHistory : list gostring)
  : M (list gostring) :=
  emit (EvStdout (lit "User: ")) ;;
  emit EvReadLine ;;
  modify (with_stdin (tail input)) ;;
  match input with
  | [] => raise (wrapf "reading input" (lit "EOF"))
  | line :: input' =>
      let userInput := strings.TrimSpace line in
      if bool_decide (userInput = lit "exit") then ret chatHistory
      else
        let* chatHistory' := chatTurn cfg chatHistory userInput in
        chatLoop cfg input' chatHistory'
  end.

(** Chat starts an interactive chat session *)
Definition Chat (cfg : Config) (slug : gostring) : M unit :=
  EnsureServerRunning cfg slug ;;
  ui.PrintInfo (lit "Starting chat session. Type 'exit' to end.") ;;
  let* input := get stdin in
  chatLoop cfg input [] ;;
  ui.PrintInfo (lit "Chat session ended.").

(** The first loop of [KillAll]: the graceful signal. *)
Definition terminate (pidStr : gostring) : M unit :=
  match strconv.Atoi pidStr with
  | None => ret ()
  | Some pid =>
      let* found := attempt (exec.FindProcess pid) in
      match found with
      | Err err =>
          ui.PrintWarn (lit "Could not find process " ++ strconv.Itoa pid ++ lit ": "
                        ++ err)
      | Ok _ =>
          let* sent := attempt (exec.Signal_ pid SIGTERM) in
          match sent with
          | Err err =>
              ui.PrintError (lit "Failed to terminate process " ++ strconv.Itoa pid
                             ++ lit ": " ++ err)
          | Ok _ => ret ()
          end
      end
  end.

(** The second loop: the signal that cannot be caught. *)
Definition forceKill (pidStr : gostring) : M unit :=
  match strconv.Atoi pidStr with
  | None => ret ()
  | Some pid =>
      let* found := attempt (exec.FindProcess pid) in
      match found with
      | Err _ => ret ()
      | Ok _ =>
          let* sent := attempt (exec.Signal_ pid SIGKILL) in
          match sent with
          | Err err =>
              ui.PrintError (lit "Failed to force kill process " ++ strconv.Itoa pid
                             ++ lit ": " ++ err)
          | Ok _ => ret ()
          end
      end
  end.

Definition pgrepAll : list gostring := [lit "pgrep"; lit "-f"; lit "llama-server"].

(** KillAll terminates all llama-server processes *)
Definition KillAll : M unit :=
  let* first := exec.Run pgrepAll in
  match first with
  | NotStarted err => raise (wrapf "finding processes" err)
  | Ran _ code output _ =>
      if code =? 1 then ui.PrintWarn (lit "No running llama-server processes found.")
      else if negb (code =? 0) then raise (wrapf "finding processes" (exec.exitStatus code))
      else
        match strings.Fields output with
        | [] => ui.PrintWarn (lit "No running llama-server processes found.")
        | pids =>
            ui.PrintInfo (lit "Killing all llama-server processes...") ;;
            forEach pids terminate ;;
            time.Sleep 2 ;;
            let* second := exec.Run pgrepAll in
            match second with
            | Ran _ code' output' _ =>
                if (code' =? 0) && (0 <? length output')%nat then
                  ui.PrintWarn
                    (lit "Some processes didn't terminate cleanly. Force killing...") ;;
                  forEach (strings.Fields output') forceKill
                else ret ()
            | NotStarted _ => ret ()
            end ;;
            ui.PrintInfo (lit "All llama-server processes terminated.")
        end
  end.

(** The loop of [Kill] over the PIDs that [pgrep] found for [target]. *)
Definition terminateFor (target pidStr : gostring) : M unit :=
  match strconv.Atoi pidStr with
  | None => ret ()
  | Some pid =>
      let* found := attempt (exec.FindProcess pid) in
      match found with
      | Err err =>
          ui.PrintWarn (lit "Could not find process " ++ strconv.Itoa pid ++ lit ": "
                        ++ err)
      | Ok _ =>
          let* sent := attempt (exec.Signal_ pid SIGTERM) in
          match sent with
          | Err err =>
              ui.PrintError (lit "Failed to terminate process " ++ strconv.Itoa pid
                             ++ lit ": " ++ err)
          | Ok _ =>
              ui.PrintInfo (lit "Server for model '" ++ target ++ lit "' (PID: "
                            ++ strconv.Itoa pid ++ lit ") terminated.")
          end
      end
  end.

Definition noServerFor (target : gostring) : error :=
  lit "no running server found for model '" ++ target ++ lit "'".

(** Kill terminates a server process *)
Definition Kill (target : gostring) : M unit :=
  match strconv.Atoi target with
  | Some pid =>
      wrapping "finding process" (exec.FindProcess pid) ;;
      wrapping "terminating process" (exec.Signal_ pid SIGTERM) ;;
      ui.PrintInfo (lit "Process with PID " ++ strconv.Itoa pid ++ lit " terminated.")
  | None =>
      let* reply := exec.Run [lit "pgrep"; lit "-f"; lit "llama-server.*" ++ target] in
      match reply with
      | NotStarted err => raise (wrapf "finding processes" err)
      | Ran _ code output _ =>
          if code =? 1 then raise (noServerFor target)
          else if negb (code =? 0)
          then raise (wrapf "finding processes" (exec.exitStatus code))
          else
            match strings.Fields output with
            | [] => raise (noServerFor target)
            | pids => forEach pids (terminateFor target)
            end
      end
  end.

End server.

(** ** The vocabulary of the specification *)
Module spec.

Import config.

(** *** Identifiers and slugs *)
Definition isLower (r : rune) : bool := (chr "a" <=? r) && (r <=? chr "z").
Definition isUpper (r : rune) : bool := (chr "A" <=? r) && (r <=? chr "Z").
Definition isDigit (r : rune) : bool := (chr "0" <=? r) && (r <=? chr "9").
Definition isAlnum (r : rune) : bool := isLower r || isUpper r || isDigit r.
Definition authorRune (r : rune) : bool :=
  isAlnum r || (r =? chr "-") || (r =? chr "_").
Definition nameRune (r : rune) : bool := authorRune r || (r =? chr ".").
Definition wellFormedID (s : gostring) : Prop :=
  ∃ author name, s = author ++ chr "/" :: name
    ∧ author ≠ [] ∧ Forall (λ r, authorRune r = true) author
    ∧ name ≠ [] ∧ Forall (λ r, nameRune r = true) name.
Definition dottedID (s : gostring) : Prop :=
  ∃ namespace name, s = namespace ++ chr "/" :: name
    ∧ namespace ≠ [] ∧ Forall (λ r, nameRune r = true) namespace
    ∧ name ≠ [] ∧ Forall (λ r, nameRune r = true) name.
Definition newEvents (w w' : World) : list Event := drop (length (trace w)) (trace w').
Definition grows (w w' : World) : Prop := ∃ evs, trace w' = trace w ++ evs.
Definition rejected (cfg : Config) (s : gostring) (w : World) : Prop :=
  model.Pull cfg s w = (Err (model.invalidModelID s), w).
Definition proceeds (cfg : Config) (s : gostring) (w : World) : Prop :=
  ∃ rest, trace (snd (model.Pull cfg s w))
          = trace w ++ EvStat (filepath.Join [ModelsDir cfg; s]) :: rest.
Definition slugRune (r : rune) : bool := isLower r || isDigit r || (r =? chr "-").
(** *** Slugs *)

(** The rune a rune of the identifier becomes in the slug. *)
Definition slugRuneOf (r : rune) : rune :=
  let l := unicode.ToLower r in if spec.slugRune l then l else chr "-".
(** The slug as the specification words it: the runes outside the class are deleted *)
Definition slugByStripping (modelID : gostring) : gostring :=
  strings.Trim
    (List.filter spec.slugRune
       (strings.ReplaceAll (strings.ToLower modelID) (lit "/") (lit "-")))
    (lit "-").

(** *** The store *)

(** The invariant of the data model: no two rows share a slug. *)
Definition slugsUnique (rows : list Model) : Prop := NoDup (Slug <$> rows).

Definition keepsUnique (w w' : World) : Prop :=
  slugsUnique (models w) → slugsUnique (models w').

Definition hasRecord (slug : gostring) (w : World) : Prop :=
  ∃ m, m ∈ models w ∧ Slug m = slug.

(** The operations that write the table: the four of the store, and the
    commands built on them. *)
Inductive Operation : Type :=
| OpAddModel (slug modelID fileName filePath fileSize : gostring)
| OpUpdateModelSlug (oldSlug newSlug : gostring)
| OpRemoveModel (slug : gostring)
| OpUpdateModelLastUsed (slug : gostring)
| OpAlias (oldSlug newSlug : gostring)
| OpRemove (cfg : Config) (slug : gostring)
| OpImportExisting (cfg : Config)
| OpPull (cfg : Config) (modelID : gostring).

Definition perform (op : Operation) : M unit :=
  match op with
  | OpAddModel slug modelID fileName filePath fileSize =>
      db.AddModel slug modelID fileName filePath fileSize
  | OpUpdateModelSlug oldSlug newSlug => db.UpdateModelSlug oldSlug newSlug
  | OpRemoveModel slug => db.RemoveModel slug
  | OpUpdateModelLastUsed slug => db.UpdateModelLastUsed slug
  | OpAlias oldSlug newSlug => model.Alias oldSlug newSlug
  | OpRemove cfg slug => model.Remove cfg slug
  | OpImportExisting cfg => model.ImportExisting cfg
  | OpPull cfg modelID => model.Pull cfg modelID
  end.

(** The states of the world the operations can reach from a new, empty
    table (what [initSchema] creates). *)
Inductive reachable : World → Prop :=
| reachable_new w : models w = [] → reachable w
| reachable_step w op : reachable w → reachable (snd (perform op w)).

(** The world once statement [q] has reached the driver. *)
Definition sent (q : Stmt) (w : World) : World :=
  with_dbFaults (snd (nextFault (dbFaults w))) (with_trace (trace w ++ [EvSql q]) w).

(** *** Records and their files *)

(** A record whose backing file is gone. *)
Definition orphanedRecord (w : World) (m : Model) : Prop :=
  m ∈ models w ∧ fs w !! FilePath m = None.

(** A file on disk that no record points to. *)
Definition orphanedFile (w : World) (path : gostring) : Prop :=
  is_Some (fs w !! path) ∧ ∀ m, m ∈ models w → FilePath m ≠ path.

(** [e1] happens before [e2]. *)
Definition precedes (e1 e2 : Event) (events : list Event) : Prop :=
  ∃ i j, (i < j)%nat ∧ events !! i = Some e1 ∧ events !! j = Some e2.

(** The world once the file system has been asked for [e]. *)
Definition asked (e : Event) (w : World) : World :=
  with_fsFaults (snd (nextFault (fsFaults w))) (with_trace (trace w ++ [e]) w).

Definition removedNotice (slug : gostring) : Event :=
  EvInfo (lit "Model '" ++ slug ++ lit "' removed from filesystem and database.").

(** How a run of [Remove] ends, with the row [m] it looked up. *)
Inductive RemoveOutcome (slug : gostring) (w : World) (r : result unit) (w' : World)
  : Prop :=
| LookupFailed e :
    r = Err e → models w' = models w → fs w' = fs w →
    newEvents w w' = [EvSql (SelectBySlug slug)] →
    RemoveOutcome slug w r w'
| FileKept m e :
    head (filter (λ m, Slug m = slug) (models w)) = Some m →
    r = Err e → models w' = models w → fs w' = fs w →
    newEvents w w' = [EvSql (SelectBySlug slug); EvRemove (FilePath m)] →
    RemoveOutcome slug w r w'
| RecordKept m e :
    head (filter (λ m, Slug m = slug) (models w)) = Some m →
    r = Err e → models w' = models w →
    is_Some (fs w !! FilePath m) → fs w' = delete (FilePath m) (fs w) →
    newEvents w w' = [EvSql (SelectBySlug slug); EvRemove (FilePath m);
                           EvSql (DeleteBySlug slug)] →
    RemoveOutcome slug w r w'
| BothRemoved m :
    head (filter (λ m, Slug m = slug) (models w)) = Some m →
    r = Ok () → models w' = filter (λ m, Slug m ≠ slug) (models w) →
    is_Some (fs w !! FilePath m) → fs w' = delete (FilePath m) (fs w) →
    newEvents w w' = [EvSql (SelectBySlug slug); EvRemove (FilePath m);
                           EvSql (DeleteBySlug slug); removedNotice slug] →
    RemoveOutcome slug w r w'.

(** *** Importing the models directory *)

(** The upsert a visit calls for: the visit is a regular file whose path
    ends in [.gguf], in any case, one directory or more below the root;
    the identifier is the directory part of the relative path. *)
Definition recordFor (cfg : Config) (v : Visit) : option Stmt :=
  if IsDir (v_info v) then None
  else if negb (strings.HasSuffix (strings.ToLower (v_path v)) (lit ".gguf")) then None
  else
    rel ← filepath.Rel (ModelsDir cfg) (v_path v);
    let parts := strings.Split rel [filepath.Separator] in
    match parts with
    | [] | [_] => None
    | [dir; _] =>
        Some (InsertOrReplace (model.generateSlug dir) dir (filepath.Base (v_path v))
                (v_path v) (model.megabytes (Size (v_info v))))
    | _ =>
        let modelID := filepath.Join (take (length parts - 1) parts) in
        Some (InsertOrReplace (model.generateSlug modelID) modelID
                (filepath.Base (v_path v)) (v_path v)
                (model.megabytes (Size (v_info v))))
    end.

(** The error that stops the walk at a visit: the path could not be
    reached, or (for no path of a real walk) it cannot be made relative
    to the root. *)
Definition visitError (cfg : Config) (v : Visit) : option error :=
  match v_err v with
  | Some err => Some err
  | None =>
      if negb (IsDir (v_info v))
         && strings.HasSuffix (strings.ToLower (v_path v)) (lit ".gguf")
      then match filepath.Rel (ModelsDir cfg) (v_path v) with
           | Some _ => None
           | None =>
               Some (wrapf "getting relative path"
                       (lit "Rel: can't make " ++ v_path v ++ lit " relative to "
                        ++ ModelsDir cfg))
           end
      else None
  end.

(** The visits up to the first one that stops the walk, and its error. *)
Fixpoint walked (cfg : Config) (visits : list Visit) : list Visit * option error :=
  match visits with
  | [] => ([], None)
  | v :: rest =>
      match visitError cfg v with
      | Some err => ([], Some err)
      | None => let '(seen, stop) := walked cfg rest in (v :: seen, stop)
      end
  end.

Definition statements (events : list Event) : list Stmt :=
  omap (λ e, match e with EvSql q => Some q | _ => None end) events.

Definition warnings (events : list Event) : list gostring :=
  omap (λ e, match e with EvWarn msg => Some msg | _ => None end) events.
(** How many of the first [n] calls of the driver fail. *)
Definition faultsAmong (n : nat) (faults : list (option error)) : nat :=
  length (filter (λ f : option error, is_Some f) (take n faults)).

(** *** Readiness polling *)

Definition healthy (reply : HttpReply) : bool :=
  match reply with
  | Response status _ _ => status =? 200
  | NoConnection _ => false
  end.

Definition healthURL (port : Z) : gostring :=
  lit "http://localhost:" ++ strconv.Itoa port ++ lit "/health".

Definition dot : Event := EvStdout (lit ".").

(** The check made after [i] unanswered ones: when [i] is a positive
    multiple of ten, the progress dot goes first. *)
Definition check (port : Z) (i : nat) : list Event :=
  (if bool_decide (0 < i ∧ i `mod` 10 = 0)%nat then [dot] else [])
  ++ [EvGet (healthURL port)].

(** [count] unanswered checks in a row, the first after [i] earlier ones,
    each followed by a sleep of one second. *)
Fixpoint unanswered (port : Z) (i count : nat) : list Event :=
  match count with
  | O => []
  | S count' => check port i ++ EvSleep 1 :: unanswered port (S i) count'
  end.

Definition checks (events : list Event) : nat :=
  length (omap (λ e, match e with EvGet url => Some url | _ => None end) events).

Definition dots (events : list Event) : nat :=
  length (omap (λ e, match e with
                     | EvStdout text => if bool_decide (text = lit ".") then Some ()
                                        else None
                     | _ => None
                     end) events).

Definition waiting : Event := EvInfo (lit "Waiting for server to be ready...").

Definition readyAfter (seconds : nat) : list Event :=
  [EvStdout [10];
   EvInfo (lit "Server is ready after " ++ strconv.Itoa (Z.of_nat seconds)
           ++ lit " seconds.")].

Definition timedOut (maxWaitSeconds : Z) : error :=
  lit "server failed to start within " ++ strconv.Itoa maxWaitSeconds ++ lit " seconds".

(** *** Terminating the servers *)

(** The PIDs a scan discovers: the fields of its output that are numbers. *)
Definition discovered (output : gostring) : list Z :=
  omap strconv.Atoi (strings.Fields output).

(** The report of a signal that could not be delivered. *)
Definition signalFailure (pid : Z) (sig : Signal) (err : error) : Event :=
  EvError (lit (match sig with
                | SIGTERM => "Failed to terminate process "
                | SIGKILL => "Failed to force kill process "
                end) ++ strconv.Itoa pid ++ lit ": " ++ err).

(** What sending [sig] to [pid] leaves in the trace. *)
Definition signalled (w : World) (pid : Z) (sig : Signal) : list Event :=
  EvSignal pid sig ::
  match deliverable w pid sig with
  | Some err => [signalFailure pid sig err]
  | None => []
  end.

(** The graceful round and the forceful round, for one PID. *)
Definition graceful (w : World) (pid : Z) : list Event :=
  match findable w pid with
  | Some err =>
      [EvWarn (lit "Could not find process " ++ strconv.Itoa pid ++ lit ": " ++ err)]
  | None => signalled w pid SIGTERM
  end.

Definition forceful (w : World) (pid : Z) : list Event :=
  match findable w pid with
  | Some _ => []
  | None => signalled w pid SIGKILL
  end.

(** The second scan finds processes: it ran, exited with 0 and printed. *)
Definition survivors (second : ExecReply) : option gostring :=
  match second with
  | Ran _ code output _ =>
      if (code =? 0) && (0 <? length output)%nat then Some output else None
  | NotStarted _ => None
  end.

Definition gracePeriod : Event := EvSleep 2.

Definition spawns (events : list Event) : nat :=
  length (omap (λ e, match e with EvExec argv => Some argv | _ => None end) events).

(** From [w] to [w'] the program did [events]: every child process it
    started took one entry of the script, and the processes answer
    signals as before. *)
Definition did (w w' : World) (events : list Event) : Prop :=
  trace w' = trace w ++ events
  ∧ execs w' = drop (spawns events) (execs w)
  ∧ findable w' = findable w ∧ deliverable w' = deliverable w.

Definition scan : Event := EvExec server.pgrepAll.

(** The events of a run of [KillAll] whose first scan printed [out1] and
    whose second scan ended as [second]. *)
Definition killAllEvents (w : World) (out1 : gostring) (second : ExecReply) : list Event :=
  [scan; EvInfo (lit "Killing all llama-server processes...")]
  ++ (discovered out1 ≫= graceful w)
  ++ [gracePeriod; scan]
  ++ match survivors second with
     | Some out2 =>
         EvWarn (lit "Some processes didn't terminate cleanly. Force killing...")
         :: (discovered out2 ≫= forceful w)
     | None => []
     end
  ++ [EvInfo (lit "All llama-server processes terminated.")].

(** *** The chat stream *)

(** The line of the event stream that carries [content]. *)
Definition contentLine (content : gostring) : gostring :=
  lit "data: {" ++ quoted (lit "content") ++ lit ":" ++ quoted content ++ lit "}".

(** A line that does not match the marker, or whose fragment is malformed. *)
Definition carriesNothing (line : gostring) : Prop :=
  strings.HasPrefix line (lit "data: ") = false
  ∨ ∃ err, json.Unmarshal (strings.TrimPrefix line (lit "data: ")) = Err err.

(** The request of a turn that sends [history]. *)
Definition turnRequest (cfg : Config) (history : list gostring) : Event :=
  EvPost (APIURL cfg ++ lit "/completion")
    (mkCompletionRequest (server.formatChatPrompt history) (NPredictMax cfg)
       (Temperature cfg) (TopK cfg) (TopP cfg) true [lit "
### Human:"] true).

(** *** The store, seen by its callers *)

(** The record is what [AddModel] was given: the five columns of the
    statement, and no time of use. *)
Definition holds (m : Model) (slug modelID fileName filePath fileSize : gostring) : Prop :=
  Slug m = slug ∧ ModelID m = modelID ∧ FileName m = fileName
  ∧ FilePath m = filePath ∧ FileSize m = fileSize ∧ LastUsed m = None.

(** The records under [slug], and the others, in the order of the table. *)
Definition under (slug : gostring) (rows : list Model) : list Model :=
  filter (λ m, Slug m = slug) rows.

Definition others (slug : gostring) (rows : list Model) : list Model :=
  filter (λ m, Slug m ≠ slug) rows.

(** Two records that differ at most in the time of use. *)
Definition sameButUse (m m' : Model) : Prop :=
  ID m' = ID m ∧ Slug m' = Slug m ∧ ModelID m' = ModelID m ∧ FileName m' = FileName m
  ∧ FilePath m' = FilePath m ∧ FileSize m' = FileSize m ∧ CreatedAt m' = CreatedAt m.

(** What [UPDATE models SET slug = new WHERE slug = old] makes of a row. *)
Definition renamed (oldSlug newSlug : gostring) (m : Model) : Model :=
  if decide (Slug m = oldSlug) then db.setSlug newSlug m else m.

(** *** What a command may do to the table *)

(** From [w] to [w'] the table saw nothing but upserts under [slug] for
    [modelID]: the records under other slugs are as they were, a record
    that is new holds the slug and the identifier and has no time of use,
    and the slug, once in the table, stays in it. *)
Definition upsertsOnly (slug modelID : gostring) (w w' : World) : Prop :=
  others slug (models w') = others slug (models w)
  ∧ (∀ m, m ∈ models w' →
          m ∈ models w ∨ (Slug m = slug ∧ ModelID m = modelID ∧ LastUsed m = None))
  ∧ (hasRecord slug w → hasRecord slug w').

(** Every slug of the table is still a slug of the table. *)
Definition keepsSlugs (w w' : World) : Prop :=
  ∀ slug, hasRecord slug w → hasRecord slug w'.

(** *** Pulling a model *)

(** The address [Pull] asks the hub at. *)
Definition manifestURL (modelID : gostring) : gostring :=
  lit "https://huggingface.co/api/models/" ++ modelID ++ lit "?filter=gguf&sort=lastModified".

(** The file of a manifest that [Pull] goes for: the first whose name ends
    in [q4_k_m.gguf], in any case. *)
Definition quantized (siblings : list gostring) : option gostring :=
  List.find (λ name, strings.HasSuffix (strings.ToLower name) (lit "q4_k_m.gguf")) siblings.

(** What the hub offers: it answers 200 with a manifest that lists such a
    file. *)
Definition offered (reply : HubReply) : option gostring :=
  match reply with
  | HubResponse status (Manifest siblings) =>
      if status =? 200 then quantized siblings else None
  | _ => None
  end.

(** Nothing the program owns has changed, and no child process ran. *)
Definition untouched (w w' : World) : Prop :=
  models w' = models w ∧ fs w' = fs w ∧ execs w' = execs w ∧ hub w' = hub w.

(** *** Runs in which nothing fails *)

(** [w'] is [w] but for what the trace has gained. *)
Definition calm (w w' : World) : Prop := with_trace (trace w) w' = w ∧ grows w w'.

(** No regular file stands where [MkdirAll] has to pass. *)
Definition clearPath (w : World) (path : gostring) : bool :=
  forallb (λ p, match fs w !! p with Some info => IsDir info | None => true end)
          (os.ancestors path).

(** The disk once [path] and the directories above it are made. *)
Definition made (path : gostring) (f : gmap gostring FileInfo) : gmap gostring FileInfo :=
  foldr (λ p g, match g !! p with
                | Some _ => g
                | None => <[p := mkFileInfo true 0]> g
                end) f (os.ancestors path).

(** The command line of the downloader. *)
Definition download (modelID file modelDir : gostring) : Event :=
  EvExec [lit "huggingface-cli"; lit "download"; modelID; file; lit "--local-dir"; modelDir].

(** *** A chat session *)

(** The two markers of the prompt. *)
Definition humanMark : gostring := lit "
### Human: ".

Definition assistantMark : gostring := lit "
### Assistant: ".



(** *** Making sure a server runs *)

(** A step leaves a field of the world as it was. *)
Definition keeps {A} (field : World → A) (w w' : World) : Prop := field w' = field w.

(** The scan for a server of the model. *)
Definition pgrepFor (modelPath : gostring) : Event :=
  EvExec [lit "pgrep"; lit "-f"; lit "llama-server.*" ++ modelPath].

(** The scan reports a process: it exits with 0 and prints something. *)
Definition reports (scan : ExecReply) : bool :=
  match scan with
  | Ran _ code output _ => (code =? 0) && (0 <? length output)%nat
  | NotStarted _ => false
  end.

(** The scan reports none: it exits with 1, or with 0 and prints nothing. *)
Definition reportsNone (scan : ExecReply) : bool :=
  match scan with
  | Ran _ code output _ => (code =? 1) || ((code =? 0) && (length output =? 0)%nat)
  | NotStarted _ => false
  end.

Definition logFile (slug : gostring) : gostring :=
  lit "/tmp/llama_server_" ++ slug ++ lit ".log".


(** *** Terminating the server of one model *)

(** What [Kill] leaves in the trace for one PID that [pgrep] printed. *)
Definition terminated (w : World) (target : gostring) (pid : Z) : list Event :=
  match findable w pid with
  | Some err =>
      [EvWarn (lit "Could not find process " ++ strconv.Itoa pid ++ lit ": " ++ err)]
  | None =>
      EvSignal pid SIGTERM ::
      match deliverable w pid SIGTERM with
      | Some err => [signalFailure pid SIGTERM err]
      | None => [EvInfo (lit "Server for model '" ++ target ++ lit "' (PID: "
                         ++ strconv.Itoa pid ++ lit ") terminated.")]
      end
  end.

(** The scan finds no process: it exits with 1, or with 0 and prints no
    field. *)
Definition findsNone (scan : ExecReply) : bool :=
  match scan with
  | Ran _ code output _ =>
      (code =? 1) || ((code =? 0) && bool_decide (strings.Fields output = []))
  | NotStarted _ => false
  end.

(** A graceful signal, or a forceful one. *)
Definition signals (sig : Signal) (events : list Event) : list Z :=
  omap (λ e, match e with
             | EvSignal pid sig' =>
                 match sig, sig' with
                 | SIGTERM, SIGTERM | SIGKILL, SIGKILL => Some pid
                 | _, _ => None
                 end
             | _ => None
             end) events.

(** *** The command line *)

(** The commands [run] knows. *)
Definition commands : list gostring :=
  lit <$> ["pull"; "ls"; "rm"; "alias"; "import"; "reset"; "run"; "chat"; "embed";
           "tokenize"; "detokenize"; "health"; "props"; "ps"; "kill"; "recent";
           "trending"]%string.

(** The commands that need arguments: how many, and what they say when
    they get fewer. *)
Definition arities : list (string * nat * string) :=
  [("pull", 1%nat, "pull requires a model ID");
   ("rm", 1%nat, "rm requires a model slug");
   ("alias", 2%nat, "alias requires old and new slugs");
   ("run", 1%nat, "run requires a model slug");
   ("chat", 1%nat, "chat requires a model slug");
   ("embed", 2%nat, "embed requires a model slug and text");
   ("tokenize", 2%nat, "tokenize requires a model slug and text");
   ("detokenize", 2%nat, "detokenize requires a model slug and tokens");
   ("kill", 1%nat, "kill requires a model slug or 'all'")]%string.

(** The arguments a command needs: 0 when it is not in the table. *)
Definition needs (cmd : gostring) : nat :=
  match List.find (λ row, bool_decide (lit row.1.1 = cmd)) arities with
  | Some row => row.1.2
  | None => 0
  end.

(** The world after [texts] went to the terminal, one call each. *)
Definition printed (texts : list gostring) (w : World) : World :=
  with_trace (trace w ++ (EvStdout <$> texts)) w.

End spec.

(** A computation is stable for a relation between the world before and
    after when every run of it is in the relation. *)
Definition stable {A} (P : World → World → Prop) (m : M A) : Prop :=
  ∀ w, P w (snd (m w)).

(** The first thing a computation does to the outside is [e]. *)
Definition startsWith {A} (e : Event) (m : M A) : Prop :=
  ∀ w, ∃ rest, trace (snd (m w)) = trace w ++ e :: rest.


(** ** Worlds to run the program in *)
Module examples.
Import config.

Definition cfg : Config := config.Load (lit "/home/u").

(** Nothing is installed, nothing runs and nothing fails; the network is
    down. *)
Definition quiet : World :=
  mkWorld [] 0 ∅ [] (λ _, HubUnreachable (lit "no route to host")) [] [] []
          (λ _, None) (λ _ _, None) [] [] [].

Definition tiny : Model :=
  mkModel 1 (lit "qwen-tiny") (lit "qwen/tiny") (lit "tiny.q4_k_m.gguf")
          (lit "/home/u/.cache/llm-cli/models/qwen/tiny/tiny.q4_k_m.gguf")
          (lit "812M") 0 None.

Definition phi : Model :=
  mkModel 2 (lit "phi") (lit "msft/phi") (lit "phi.q4_k_m.gguf")
          (lit "/home/u/.cache/llm-cli/models/msft/phi/phi.q4_k_m.gguf")
          (lit "2300M") 0 None.

(** Two models, each with its file. *)
Definition stocked : World :=
  with_fs {[ FilePath tiny := mkFileInfo false 851443712;
             FilePath phi := mkFileInfo false 2411724800 ]}
    (with_models [tiny; phi] quiet).

(** The same, with a database that answers the first call and fails at
    the second. *)
Definition flaky : World :=
  with_dbFaults [None; Some (lit "disk I/O error")] stocked.

(** The walk meets a path it cannot read before it meets a model. *)
Definition unreadable : Visit :=
  mkVisit (ModelsDir cfg ++ lit "/msft/lost+found") (mkFileInfo false 0)
          (Some (lit "lstat lost+found: permission denied")).

Definition model_file : Visit :=
  mkVisit (ModelsDir cfg ++ lit "/qwen/tiny/tiny.q4_k_m.gguf")
          (mkFileInfo false 851443712) None.

Definition obstructed : World :=
  mkWorld [] 0 ∅
          [mkVisit (ModelsDir cfg) (mkFileInfo true 0) None;
           mkVisit (ModelsDir cfg ++ lit "/msft") (mkFileInfo true 0) None;
           unreadable;
           mkVisit (ModelsDir cfg ++ lit "/qwen") (mkFileInfo true 0) None;
           mkVisit (ModelsDir cfg ++ lit "/qwen/tiny") (mkFileInfo true 0) None;
           model_file]
          (λ _, HubUnreachable (lit "no route to host")) [] [] []
          (λ _, None) (λ _ _, None) [] [] [].

(** The server answers the fifth health check. *)
Definition warming : World :=
  with_inference
    [NoConnection (lit "connection refused");
     NoConnection (lit "connection refused");
     Response 503 [] None;
     Response 503 [] None;
     Response 200 [] None]
    quiet.

(** Two servers run; process 4711 ignores the graceful signal, and process
    4712 cannot be signalled by this user. *)
Definition stubborn : World :=
  mkWorld [] 0 ∅ [] (λ _, HubUnreachable (lit "no route to host")) []
          [Ran 900 0 (lit "4711 4712 ") ∅; Ran 901 0 (lit "4711 ") ∅] []
          (λ _, None)
          (λ pid _, if pid =? 4712 then Some (lit "operation not permitted") else None)
          [] [] [].

Definition truncated : gostring := lit "data: {" ++ quoted (lit "content") ++ lit ":".

(** The server streams two fragments and a truncated third. *)
Definition streaming : World :=
  with_inference
    [Response 200 [spec.contentLine (lit "Hi"); spec.contentLine (lit " there"); truncated]
       None]
    quiet.

End examples.

(** ** The command line ([cmd/llm-cli]) *)
Module main.

Import config.

(** The functions [run] calls whose bodies are not modelled here: it only
    hands them their arguments. [config_Load] stands for [config.Load()],
    which reads the environment and makes the models directory, [db_New]
    for [db.New], which opens the database file and creates the table,
    and [store_Close] for the deferred [store.Close()]. *)
Record Callees := mkCallees {
  config_Load : M Config;
  db_New : gostring → M unit;
  store_Close : M unit;
  model_List : M unit;
  model_ResetDB : Config → M unit;
  model_GetRecent : M unit;
  model_GetTrending : M unit;
  server_Run : Config → gostring → gostring → M unit;
  server_Embed : Config → gostring → gostring → M unit;
  server_Tokenize : Config → gostring → gostring → M unit;
  server_Detokenize : Config → gostring → gostring → M unit;
  server_CheckHealth : Config → M unit;
  server_GetProperties : Config → M unit;
  server_ListProcesses : M unit;
}.

(** [defer cleanup()]: it runs when the function returns, whatever it
    returns, and its own result is dropped. *)
Definition deferring {A} (cleanup : M unit) (body : M A) : M A :=
  λ w, let '(r, w1) := body w in (r, snd (cleanup w1)).

(** The comparison of a string with a literal. *)
Definition reads (s : gostring) (text : string) : bool := bool_decide (s = lit text).

(** The [switch] of [run], on [os.Args[1]] and [os.Args[2:]]. *)
Definition dispatch (c : Callees) (cfg : Config) (cmd : gostring) (args : list gostring)
  : M unit :=
  if reads cmd "pull" then
    match args with
    | [] => raise (lit "pull requires a model ID")
    | arg0 :: _ =>
        if reads arg0 "--help"
        then ui.PrintHelp (lit "pull") (lit "Download a new model from Hugging Face.")
                          (lit "<model_id>")
        else model.Pull cfg arg0
    end
  else if reads cmd "ls" then model_List c
  else if reads cmd "rm" then
    match args with
    | [] => raise (lit "rm requires a model slug")
    | arg0 :: _ =>
        if reads arg0 "--help"
        then ui.PrintHelp (lit "rm") (lit "Remove a model from the filesystem and database.")
                          (lit "<slug>")
        else model.Remove cfg arg0
    end
  else if reads cmd "alias" then
    match args with
    | [] | [_] => raise (lit "alias requires old and new slugs")
    | arg0 :: arg1 :: _ =>
        if reads arg0 "--help"
        then ui.PrintHelp (lit "alias") (lit "Create an alias for a model.")
                          (lit "<old_slug> <new_slug>")
        else model.Alias arg0 arg1
    end
  else if reads cmd "import" then
    match args with
    | arg0 :: _ =>
        if reads arg0 "--help"
        then ui.PrintHelp (lit "import")
               (lit "Import existing models from the filesystem into the database.") []
        else model.ImportExisting cfg
    | [] => model.ImportExisting cfg
    end
  else if reads cmd "reset" then
    match args with
    | arg0 :: _ =>
        if reads arg0 "--help"
        then ui.PrintHelp (lit "reset")
               (lit "Reset the database and re-import existing models.") []
        else model_ResetDB c cfg
    | [] => model_ResetDB c cfg
    end
  else if reads cmd "run" then
    match args with
    | [] => raise (lit "run requires a model slug")
    | arg0 :: rest =>
        if reads arg0 "--help"
        then ui.PrintHelp (lit "run")
               (lit "Run a model server and optionally complete text.") (lit "<slug> [text]")
        else server_Run c cfg arg0 (strings.Join rest (lit " "))
    end
  else if reads cmd "chat" then
    match args with
    | [] => raise (lit "chat requires a model slug")
    | arg0 :: _ =>
        if reads arg0 "--help"
        then ui.PrintHelp (lit "chat") (lit "Start a chat session with the specified model.")
                          (lit "<slug>")
        else server.Chat cfg arg0
    end
  else if reads cmd "embed" then
    match args with
    | [] | [_] => raise (lit "embed requires a model slug and text")
    | arg0 :: rest =>
        if reads arg0 "--help"
        then ui.PrintHelp (lit "embed") (lit "Generate embeddings for the given text.")
                          (lit "<slug> <text>")
        else server_Embed c cfg arg0 (strings.Join rest (lit " "))
    end
  else if reads cmd "tokenize" then
    match args with
    | [] | [_] => raise (lit "tokenize requires a model slug and text")
    | arg0 :: rest =>
        if reads arg0 "--help"
        then ui.PrintHelp (lit "tokenize") (lit "Tokenize text using the specified model.")
                          (lit "<slug> <text>")
        else server_Tokenize c cfg arg0 (strings.Join rest (lit " "))
    end
  else if reads cmd "detokenize" then
    match args with
    | [] | [_] => raise (lit "detokenize requires a model slug and tokens")
    | arg0 :: arg1 :: _ =>
        if reads arg0 "--help"
        then ui.PrintHelp (lit "detokenize")
               (lit "Detokenize tokens using the specified model.") (lit "<slug> <tokens>")
        else server_Detokenize c cfg arg0 arg1
    end
  else if reads cmd "health" then
    match args with
    | arg0 :: _ =>
        if reads arg0 "--help"
        then ui.PrintHelp (lit "health")
               (lit "Check the health status of the running server.") []
        else server_CheckHealth c cfg
    | [] => server_CheckHealth c cfg
    end
  else if reads cmd "props" then
    match args with
    | arg0 :: _ =>
        if reads arg0 "--help"
        then ui.PrintHelp (lit "props") (lit "Get the properties of the running server.") []
        else server_GetProperties c cfg
    | [] => server_GetProperties c cfg
    end
  else if reads cmd "ps" then
    match args with
    | arg0 :: _ =>
        if reads arg0 "--help"
        then ui.PrintHelp (lit "ps") (lit "Show running llama-server processes.") []
        else server_ListProcesses c
    | [] => server_ListProcesses c
    end
  else if reads cmd "kill" then
    match args with
    | [] => raise (lit "kill requires a model slug or 'all'")
    | arg0 :: _ =>
        if reads arg0 "--help"
        then ui.PrintHelp (lit "kill") (lit "Kill a model server or all servers.")
                          (lit "<slug|all>")
        else if reads arg0 "all" then server.KillAll
        else server.Kill arg0
    end
  else if reads cmd "recent" then
    match args with
    | arg0 :: _ =>
        if reads arg0 "--help"
        then ui.PrintHelp (lit "recent")
               (lit "Get the 20 most recent GGUF models from Hugging Face.") []
        else model_GetRecent c
    | [] => model_GetRecent c
    end
  else if reads cmd "trending" then
    match args with
    | arg0 :: _ =>
        if reads arg0 "--help"
        then ui.PrintHelp (lit "trending")
               (lit "Get trending GGUF models from Hugging Face.") []
        else model_GetTrending c
    | [] => model_GetTrending c
    end
  else
    ui.PrintUsage ;;
    raise (lit "unknown command: " ++ cmd).

(** [run], given [os.Args]. *)
Definition run (c : Callees) (osArgs : list gostring) : M unit :=
  let* cfg := wrapping "loading config" (config_Load c) in
  wrapping "initializing database" (db_New c (DBPath cfg)) ;;
  deferring (store_Close c)
    match osArgs with
    | [] | [_] => ui.PrintUsage
    | _ :: cmd :: args => dispatch c cfg cmd args
    end.

End main.

(** ** More worlds *)
Module scenarios.
Import config.

(** [phi] has lost its file. *)
Definition bereft : World :=
  with_fs {[ FilePath examples.tiny := mkFileInfo false 851443712 ]} examples.stocked.

Definition gemma : gostring := lit "google/gemma".

Definition gemmaFile : gostring := lit "gemma.Q4_K_M.gguf".

Definition gemmaPath : gostring :=
  filepath.Join [filepath.Join [ModelsDir examples.cfg; gemma]; gemmaFile].

(** The hub offers a file of [google/gemma], and the downloader fetches
    it. *)
Definition offering : World :=
  mkWorld [examples.tiny] 0 ∅ []
          (λ url, if bool_decide (url = spec.manifestURL gemma)
                  then HubResponse 200 (Manifest [lit "README.md"; gemmaFile;
                                                  lit "gemma.q8_0.gguf"])
                  else HubUnreachable (lit "no route to host"))
          [] [Ran 700 0 [] {[ gemmaPath := mkFileInfo false 1572864000 ]}] []
          (λ _, None) (λ _ _, None) [] [] [].


(** A server for [phi] runs. *)
Definition served : World := with_execs [Ran 900 0 (lit "4711" ++ [10]) ∅] examples.stocked.


(** The scan finds nothing. *)
Definition deserted : World := with_execs [Ran 900 1 [] ∅] examples.quiet.

(** The commands that are not modelled, as ones that do nothing. *)
Definition inert : main.Callees :=
  main.mkCallees (ret examples.cfg) (λ _, ret ()) (ret ()) (ret ()) (λ _, ret ()) (ret ())
                 (ret ()) (λ _ _ _, ret ()) (λ _ _ _, ret ()) (λ _ _ _, ret ())
                 (λ _ _ _, ret ()) (λ _, ret ()) (λ _, ret ()) (ret ()).

End scenarios.

(** * Properties *)

(** ** Regular expressions: the matcher decides the language *)
Section regexp_facts.
Import regexp.

Lemma Matches_nil_nullable re : Matches re [] → nullable re = true.
Proof.
  intros H. remember [] as s eqn:Hs. induction H; simpl; try done.
  - apply app_eq_nil in Hs as [-> ->]. rewrite IHMatches1, IHMatches2; done.
  - rewrite IHMatches; done.
  - rewrite IHMatches, orb_true_r; done.
Qed.

Lemma nullable_Matches_nil re : nullable re = true → Matches re [].
Proof.
  induction re; simpl; intros H; try done.
  - constructor.
  - apply andb_true_iff in H as [H1 H2].
    change (@nil Z) with (@nil Z ++ []). constructor; auto.
  - apply orb_true_iff in H as [H|H]; [apply MAltL|apply MAltR]; auto.
  - constructor.
Qed.

Lemma deriv_sound x re s : Matches (deriv x re) s → Matches re (x :: s).
Proof.
  revert s. induction re; simpl; intros s H.
  - inversion H.
  - inversion H.
  - destruct (Z.eqb_spec x z) as [->|]; inversion H; subst. constructor.
  - destruct (inClass c x) eqn:Hc; inversion H; subst. by constructor.
  - destruct (nullable re1) eqn:Hn.
    + inversion H as [| | | | a b s' H' | a b s' H' | |]; subst.
      * inversion H' as [| | |a b s1 s2 H1 H2| | | |]; subst.
        change (x :: s1 ++ s2) with ((x :: s1) ++ s2). constructor; auto.
      * change (x :: s) with ([] ++ x :: s). constructor; auto.
        by apply nullable_Matches_nil.
    + inversion H as [| | |a b s1 s2 H1 H2| | | |]; subst.
      change (x :: s1 ++ s2) with ((x :: s1) ++ s2). constructor; auto.
  - inversion H; subst; [apply MAltL|apply MAltR]; auto.
  - inversion H as [| | |a b s1 s2 H1 H2| | | |]; subst.
    change (x :: s1 ++ s2) with ((x :: s1) ++ s2). constructor; auto.
Qed.

Lemma deriv_complete x re s : Matches re (x :: s) → Matches (deriv x re) s.
Proof.
  intros H. remember (x :: s) as xs eqn:Hxs. revert x s Hxs.
  induction H; intros x u Hxs; simpl; try discriminate.
  - injection Hxs as -> <-. rewrite Z.eqb_refl. constructor.
  - injection Hxs as -> <-. rewrite H. constructor.
  - destruct s as [|y s'].
    + simpl in Hxs. subst t.
      rewrite (Matches_nil_nullable _ H). apply MAltR. by apply IHMatches2.
    + injection Hxs as -> <-.
      assert (Matches (Cat (deriv x a) b) (s' ++ t)) by (constructor; auto).
      destruct (nullable a); [by apply MAltL|done].
  - apply MAltL; auto.
  - apply MAltR; auto.
  - destruct s as [|y s'].
    + simpl in Hxs. by apply IHMatches2.
    + injection Hxs as -> <-. constructor; auto.
Qed.

Lemma MatchString_spec re s : MatchString re s = true ↔ Matches re s.
Proof.
  unfold MatchString. revert re. induction s as [|x s IH]; intros re; simpl.
  - split; [apply nullable_Matches_nil|apply Matches_nil_nullable].
  - rewrite IH. split; [apply deriv_sound|apply deriv_complete].
Qed.

Lemma Matches_Star_Set c s :
  Matches (Star (Set_ c)) s ↔ Forall (λ r, inClass c r = true) s.
Proof.
  split.
  - intros H. remember (Star (Set_ c)) as re eqn:Hre.
    induction H; try discriminate; injection Hre as ->.
    + constructor.
    + inversion H; subst. constructor; auto.
  - induction 1 as [|r s Hr _ IH].
    + constructor.
    + change (r :: s) with ([r] ++ s). constructor; [by constructor|done].
Qed.

Lemma Matches_Plus_Set c s :
  Matches (Plus (Set_ c)) s ↔ s ≠ [] ∧ Forall (λ r, inClass c r = true) s.
Proof.
  unfold Plus. split.
  - intros H. inversion H as [| | |a b s1 s2 H1 H2| | | |]; subst.
    inversion H1; subst. split; [done|].
    constructor; [done|by apply Matches_Star_Set].
  - intros [Hne H]. destruct H as [|r s Hr Hs]; [done|].
    change (r :: s) with ([r] ++ s). constructor; [by constructor|by apply Matches_Star_Set].
Qed.

End regexp_facts.

(** ** Computations: relations that every step keeps *)
Section stability.
Context (P : World → World → Prop).
Hypothesis P_refl : ∀ w, P w w.
Hypothesis P_trans : ∀ w1 w2 w3, P w1 w2 → P w2 w3 → P w1 w3.

Lemma stable_ret {A} (a : A) : stable P (ret a).
Proof. intros w. apply P_refl. Qed.

Lemma stable_raise {A} e : stable P (@raise A e).
Proof. intros w. apply P_refl. Qed.

Lemma stable_get {A} (f : World → A) : stable P (get f).
Proof. intros w. apply P_refl. Qed.

Lemma stable_bind {A B} (m : M A) (k : A → M B) :
  stable P m → (∀ a, stable P (k a)) → stable P (bind m k).
Proof.
  intros Hm Hk w. unfold bind. specialize (Hm w).
  destruct (m w) as [[a|e] w1]; simpl in *; [|done].
  eapply P_trans; [exact Hm|apply Hk].
Qed.

Lemma stable_attempt {A} (m : M A) : stable P m → stable P (attempt m).
Proof. intros Hm w. unfold attempt. specialize (Hm w). by destruct (m w). Qed.

Lemma stable_wrapping {A} c (m : M A) : stable P m → stable P (wrapping c m).
Proof.
  intros Hm w. unfold wrapping. specialize (Hm w). by destruct (m w) as [[?|?] ?].
Qed.

Lemma stable_forEach {A} (l : list A) body :
  (∀ a, stable P (body a)) → stable P (forEach l body).
Proof.
  intros Hb. induction l as [|a l IH]; simpl.
  - apply stable_ret.
  - apply stable_bind; auto.
Qed.

Lemma stable_modify f : (∀ w, P w (f w)) → stable P (modify f).
Proof. intros Hf w. apply Hf. Qed.

End stability.

Ltac stable_step refl trans :=
  lazymatch goal with
  | |- stable _ (bind _ _) => apply stable_bind; [exact trans| |intros]
  | |- stable _ (ret _) => apply stable_ret; exact refl
  | |- stable _ (raise _) => apply stable_raise; exact refl
  | |- stable _ (get _) => apply stable_get; exact refl
  | |- stable _ (attempt _) => apply stable_attempt
  | |- stable _ (wrapping _ _) => apply stable_wrapping
  | |- stable _ (forEach _ _) => apply stable_forEach; [exact refl|exact trans|intros]
  | |- stable _ (match ?x with _ => _ end) => destruct x
  | |- stable _ (let _ := _ in _) => cbv zeta
  end.

Lemma grows_refl w : spec.grows w w.
Proof. exists []. by rewrite app_nil_r. Qed.

Lemma grows_trans w1 w2 w3 : spec.grows w1 w2 → spec.grows w2 w3 → spec.grows w1 w3.
Proof. intros [e1 H1] [e2 H2]. exists (e1 ++ e2). by rewrite H2, H1, app_assoc. Qed.

#[local] Hint Resolve grows_refl grows_trans : core.

Lemma grows_emit e : stable spec.grows (emit e).
Proof. intros w. by exists [e]. Qed.

Lemma grows_modify f : (∀ w, trace (f w) = trace w) → stable spec.grows (modify f).
Proof. intros Hf w. exists []. simpl. by rewrite Hf, app_nil_r. Qed.

Ltac grows_tac :=
  repeat first
    [ assumption
    | apply grows_emit
    | apply grows_modify; by intros []
    | stable_step grows_refl grows_trans ].

Lemma grows_syscall {A} e (m : M A) : stable spec.grows m → stable spec.grows (os.syscall e m).
Proof. intros. unfold os.syscall. grows_tac. Qed.

Lemma grows_Stat p : stable spec.grows (os.Stat p).
Proof. unfold os.Stat. apply grows_syscall. grows_tac. Qed.

Lemma grows_exec q : stable spec.grows (db.Exec q).
Proof. unfold db.Exec. grows_tac. Qed.

Lemma grows_AddModel a b c d e : stable spec.grows (db.AddModel a b c d e).
Proof. unfold db.AddModel. grows_tac. apply grows_exec. Qed.

Lemma grows_Glob p : stable spec.grows (filepath.Glob p).
Proof. unfold filepath.Glob. grows_tac. Qed.

Lemma grows_MkdirAll p : stable spec.grows (os.MkdirAll p).
Proof. unfold os.MkdirAll. apply grows_syscall. grows_tac. Qed.

Lemma grows_Run argv : stable spec.grows (exec.Run argv).
Proof. unfold exec.Run, exec.spawn. grows_tac. Qed.


Lemma startsWith_emit {A} e (m : M A) :
  stable spec.grows m → startsWith e (emit e ;; m).
Proof.
  intros Hm w. unfold bind, emit.
  destruct (Hm (with_trace (trace w ++ [e]) w)) as [rest Hrest].
  exists rest. rewrite Hrest. simpl. by rewrite <- app_assoc.
Qed.

Lemma startsWith_attempt {A} e (m : M A) : startsWith e m → startsWith e (attempt m).
Proof. intros Hm w. unfold attempt. destruct (Hm w) as [rest H]. exists rest. by destruct (m w). Qed.

Lemma startsWith_bind {A B} e (m : M A) (k : A → M B) :
  startsWith e m → (∀ a, stable spec.grows (k a)) → startsWith e (bind m k).
Proof.
  intros Hm Hk w. unfold bind. destruct (Hm w) as [rest H].
  destruct (m w) as [[a|err] w1]; simpl in *.
  - destruct (Hk a w1) as [rest' H']. exists (rest ++ rest').
    rewrite H', H. by rewrite <- app_assoc.
  - by exists rest.
Qed.

Lemma Pull_proceeds cfg s w : model.validateModelID s = true → spec.proceeds cfg s w.
Proof.
  intros Hv. unfold spec.proceeds, model.Pull. rewrite Hv. simpl negb. cbv iota.
  revert w. apply startsWith_bind.
  - apply startsWith_attempt. unfold os.Stat, os.syscall.
    apply startsWith_emit. grows_tac.
  - intros r.
    unfold model.fetchModelInfo, model.runDownloader, ui.PrintWarn, ui.PrintInfo.
    grows_tac; auto using grows_Glob, grows_MkdirAll, grows_Stat, grows_Run, grows_AddModel.
Qed.

Lemma Pull_rejects cfg s w : model.validateModelID s = false → spec.rejected cfg s w.
Proof. intros Hv. unfold spec.rejected, model.Pull. by rewrite Hv. Qed.

Lemma rejected_not_proceeds cfg s w : spec.rejected cfg s w → ¬ spec.proceeds cfg s w.
Proof.
  unfold spec.rejected, spec.proceeds. intros -> [rest H]. simpl in H.
  apply (f_equal length) in H. rewrite length_app in H. simpl in H. lia.
Qed.

Ltac eval_chr :=
  repeat match goal with
         | |- context [chr ?a] =>
             let v := eval vm_compute in (chr a) in change (chr a) with v
         end.

Ltac bool_cases :=
  repeat match goal with
         | |- context [?a <=? ?b] => destruct (Z.leb_spec a b)
         | |- context [?a =? ?b] => destruct (Z.eqb_spec a b)
         end; simpl; try reflexivity; try lia.

Lemma authorClass_spec r : regexp.inClass model.authorClass r = spec.authorRune r.
Proof.
  unfold regexp.inClass, model.authorClass, spec.authorRune, spec.isAlnum,
    spec.isLower, spec.isUpper, spec.isDigit. simpl. eval_chr. bool_cases.
Qed.

Lemma nameClass_spec r : regexp.inClass model.nameClass r = spec.nameRune r.
Proof.
  unfold regexp.inClass, model.nameClass, spec.nameRune, spec.authorRune, spec.isAlnum,
    spec.isLower, spec.isUpper, spec.isDigit. simpl. eval_chr. bool_cases.
Qed.

Lemma validateModelID_spec s : model.validateModelID s = true ↔ spec.wellFormedID s.
Proof.
  unfold model.validateModelID. rewrite MatchString_spec.
  unfold model.modelIDPattern, spec.wellFormedID. split.
  - intros H. inversion H as [| | |? ? author t Ha Ht| | | |]; subst.
    inversion Ht as [| | |? ? sl name Hsl Hn| | | |]; subst.
    inversion Hsl; subst.
    apply Matches_Plus_Set in Ha as [Hane Ha], Hn as [Hnne Hn].
    exists author, name. repeat split; try done.
    + eapply Forall_impl; [exact Ha|]. intros r; cbv beta. by rewrite authorClass_spec.
    + eapply Forall_impl; [exact Hn|]. intros r; cbv beta. by rewrite nameClass_spec.
  - intros (author & name & -> & Hane & Ha & Hnne & Hn).
    constructor.
    + apply Matches_Plus_Set. split; [done|].
      eapply Forall_impl; [exact Ha|]. intros r; cbv beta. by rewrite authorClass_spec.
    + change (chr "/" :: name) with ([chr "/"] ++ name). constructor; [constructor|].
      apply Matches_Plus_Set. split; [done|].
      eapply Forall_impl; [exact Hn|]. intros r; cbv beta. by rewrite nameClass_spec.
Qed.

(** C2, amended: [Pull] goes past validation, to its first look at the file
    system, exactly when the identifier is [<author>/<name>] with both
    segments non-empty, the author made of letters, digits, [_] and [-], and
    the name of those and [.]. Any other string is rejected with the
    validation error and the world is left as it was: no request, no file
    access, no statement. *)
Theorem Pull_validates cfg s w :
  (spec.proceeds cfg s w ↔ spec.wellFormedID s)
  ∧ (¬ spec.wellFormedID s → spec.rejected cfg s w).
Proof.
  rewrite <- validateModelID_spec. split; [split|].
  - intros Hp. destruct (model.validateModelID s) eqn:Hv; [done|].
    exfalso. eapply rejected_not_proceeds; [by apply Pull_rejects|done].
  - apply Pull_proceeds.
  - intros Hv. apply Pull_rejects. by destruct (model.validateModelID s).
Qed.

(** ** Strings *)
Section strings_facts.

Lemma HasPrefix_singleton r s c :
  strings.HasPrefix (r :: s) [c] = bool_decide (r = c).
Proof.
  unfold strings.HasPrefix. simpl.
  rewrite take_0. apply bool_decide_ext. split; [by intros [= ->]|by intros ->].
Qed.

Lemma replaceFrom_rune fuel s c d :
  (length s ≤ fuel)%nat →
  strings.replaceFrom fuel s [c] [d] = (λ r, if r =? c then d else r) <$> s.
Proof.
  revert s. induction fuel as [|fuel IH]; intros [|r s] Hlen; simpl in *; try done; try lia.
  rewrite HasPrefix_singleton. simpl drop. 
  destruct (Z.eqb_spec r c) as [->|Hne].
  - rewrite bool_decide_eq_true_2 by done. simpl. f_equal. apply IH. lia.
  - rewrite bool_decide_eq_false_2 by done. f_equal. apply IH. lia.
Qed.

Lemma ReplaceAll_rune s c d :
  strings.ReplaceAll s [c] [d] = (λ r, if r =? c then d else r) <$> s.
Proof. unfold strings.ReplaceAll. by apply replaceFrom_rune. Qed.

Lemma ReplaceAllString_rune c s d :
  regexp.ReplaceAllString c s [d] = (λ r, if regexp.inClass c r then d else r) <$> s.
Proof.
  unfold regexp.ReplaceAllString. induction s as [|r s IH]; [done|].
  rewrite bind_cons, IH, fmap_cons. by destruct (regexp.inClass c r).
Qed.

Lemma TrimLeftFunc_suffix f s : ∃ pre, s = pre ++ strings.TrimLeftFunc f s.
Proof.
  induction s as [|r s [pre IH]]; simpl.
  - by exists [].
  - destruct (f r); [exists (r :: pre); simpl; by rewrite <- IH|by exists []].
Qed.

Lemma TrimLeftFunc_head f s r :
  head (strings.TrimLeftFunc f s) = Some r → f r = false.
Proof.
  induction s as [|x s IH]; simpl; [done|].
  destruct (f x) eqn:Hx; [done|]. simpl. by intros [= <-].
Qed.

Lemma TrimRightFunc_prefix f s : ∃ suf, s = strings.TrimRightFunc f s ++ suf.
Proof.
  unfold strings.TrimRightFunc.
  destruct (TrimLeftFunc_suffix f (reverse s)) as [pre H].
  exists (reverse pre). apply (f_equal reverse) in H.
  by rewrite reverse_involutive, reverse_app in H.
Qed.

Lemma TrimRightFunc_last f s r :
  last (strings.TrimRightFunc f s) = Some r → f r = false.
Proof.
  unfold strings.TrimRightFunc. rewrite last_reverse. apply TrimLeftFunc_head.
Qed.

Lemma Trim_Forall (P : rune → Prop) s cutset :
  Forall P s → Forall P (strings.Trim s cutset).
Proof.
  intros H. unfold strings.Trim.
  destruct (TrimLeftFunc_suffix (strings.inCutset cutset) s) as [pre Hpre].
  rewrite Hpre in H. apply Forall_app in H as [_ H].
  destruct (TrimRightFunc_prefix (strings.inCutset cutset)
              (strings.TrimLeftFunc (strings.inCutset cutset) s)) as [suf Hsuf].
  rewrite Hsuf in H. by apply Forall_app in H as [H _].
Qed.

Lemma Trim_head s cutset r :
  head (strings.Trim s cutset) = Some r → r ∉ cutset.
Proof.
  unfold strings.Trim. intros H.
  destruct (TrimRightFunc_prefix (strings.inCutset cutset)
              (strings.TrimLeftFunc (strings.inCutset cutset) s)) as [suf Hsuf].
  assert (head (strings.TrimLeftFunc (strings.inCutset cutset) s) = Some r) as H'.
  { rewrite Hsuf. destruct (strings.TrimRightFunc _ _); [done|exact H]. }
  apply TrimLeftFunc_head in H'. unfold strings.inCutset in H'.
  by apply bool_decide_eq_false in H'.
Qed.

Lemma Trim_last s cutset r :
  last (strings.Trim s cutset) = Some r → r ∉ cutset.
Proof.
  unfold strings.Trim. intros H. apply TrimRightFunc_last in H.
  unfold strings.inCutset in H. by apply bool_decide_eq_false in H.
Qed.

End strings_facts.

Lemma nonSlugClass_spec r : regexp.inClass model.nonSlugClass r = negb (spec.slugRune r).
Proof.
  unfold regexp.inClass, model.nonSlugClass, spec.slugRune, spec.isLower, spec.isDigit.
  simpl. eval_chr. bool_cases.
Qed.

Lemma slugRune_not_slash r : spec.slugRune r = true → r ≠ chr "/".
Proof.
  unfold spec.slugRune, spec.isLower, spec.isDigit. eval_chr. intros H ->. by vm_compute in H.
Qed.

(** The three passes of [generateSlug] as one pass over the identifier. *)
Lemma generateSlug_one_pass modelID :
  model.generateSlug modelID = strings.Trim (spec.slugRuneOf <$> modelID) (lit "-").
Proof.
  unfold model.generateSlug. f_equal.
  change (lit "/") with [chr "/"]. change (lit "-") with [chr "-"].
  rewrite ReplaceAll_rune, ReplaceAllString_rune. unfold strings.ToLower.
  rewrite <- !list_fmap_compose. apply list_fmap_ext. intros _ r _. simpl.
  unfold spec.slugRuneOf. rewrite nonSlugClass_spec.
  destruct (Z.eqb_spec (unicode.ToLower r) (chr "/")) as [Heq|Hne].
  - rewrite Heq. reflexivity.
  - by destruct (spec.slugRune (unicode.ToLower r)).
Qed.

Lemma slugRuneOf_slugRune r : spec.slugRune (spec.slugRuneOf r) = true.
Proof.
  unfold spec.slugRuneOf. cbv zeta.
  destruct (spec.slugRune (unicode.ToLower r)) eqn:H; [done|reflexivity].
Qed.

Lemma slugRune_lower r : spec.slugRune r = true → unicode.ToLower r = r.
Proof.
  unfold spec.slugRune, spec.isLower, spec.isDigit, unicode.ToLower. eval_chr.
  intros H. bool_cases; subst; by vm_compute in H.
Qed.

Lemma generateSlug_shape modelID :
  Forall (λ r, spec.slugRune r = true) (model.generateSlug modelID)
  ∧ strings.ToLower (model.generateSlug modelID) = model.generateSlug modelID
  ∧ head (model.generateSlug modelID) ≠ Some (chr "-")
  ∧ last (model.generateSlug modelID) ≠ Some (chr "-").
Proof.
  assert (Forall (λ r, spec.slugRune r = true) (model.generateSlug modelID)) as HF.
  { rewrite generateSlug_one_pass. apply Trim_Forall, Forall_fmap, Forall_true.
    intros r. apply slugRuneOf_slugRune. }
  split; [done|]. split; [|split].
  - unfold strings.ToLower. induction HF as [|r s Hr _ IH]; [done|].
    rewrite fmap_cons, IH. f_equal. by apply slugRune_lower.
  - rewrite generateSlug_one_pass. intros H%Trim_head. apply H. by left.
  - rewrite generateSlug_one_pass. intros H%Trim_last. apply H. by left.
Qed.

(** ** The metadata store: slugs stay unique *)
Section store_facts.

Lemma Slug_setLastUsed t m : Slug (db.setLastUsed t m) = Slug m.
Proof. done. Qed.

Lemma filter_slugs_sublist (P : Model → Prop) `{∀ m, Decision (P m)} rows :
  Slug <$> filter P rows `sublist_of` Slug <$> rows.
Proof. apply fmap_sublist, sublist_filter. Qed.

Lemma rename_unique oldSlug newSlug rows :
  spec.slugsUnique rows →
  ¬ Exists (λ m, Slug m = newSlug ∧ Slug m ≠ oldSlug) rows →
  spec.slugsUnique
    ((λ m, if decide (Slug m = oldSlug) then db.setSlug newSlug m else m) <$> rows).
Proof.
  unfold spec.slugsUnique. intros Hu Hfree.
  rewrite <- list_fmap_compose.
  apply NoDup_fmap_1 in Hu as Hrows.
  apply NoDup_fmap_2_strong; [|done].
  assert (Hinj : ∀ x y, x ∈ rows → y ∈ rows → Slug x = Slug y → x = y).
  { clear Hfree Hrows. induction rows as [|m rows IH]; intros x y Hx Hy Hxy.
    - by apply elem_of_nil in Hx.
    - rewrite fmap_cons in Hu. apply NoDup_cons in Hu as [Hm Hu].
      apply elem_of_cons in Hx as [->|Hx], Hy as [->|Hy]; auto.
      + exfalso. apply Hm. rewrite Hxy. by apply list_elem_of_fmap_2.
      + exfalso. apply Hm. rewrite <- Hxy. by apply list_elem_of_fmap_2. }
  intros x y Hx Hy. simpl.
  rewrite Exists_exists in Hfree.
  destruct (decide (Slug x = oldSlug)) as [Hxo|Hxo],
           (decide (Slug y = oldSlug)) as [Hyo|Hyo]; simpl; intros Heq.
  - apply Hinj; congruence.
  - exfalso. apply Hfree. exists y. split; [done|]. split; [done|done].
  - exfalso. apply Hfree. exists x. split; [done|]. split; [done|done].
  - by apply Hinj.
Qed.

(** Every statement keeps the slugs unique. *)
Lemma run_unique q t rows out rows' :
  db.run q t rows = Ok (out, rows') → spec.slugsUnique rows → spec.slugsUnique rows'.
Proof.
  unfold spec.slugsUnique.
  destruct q as [slug|slug|slug modelID fileName filePath fileSize|slug|newSlug oldSlug];
    simpl; intros Hrun Hu.
  - by injection Hrun as _ <-.
  - injection Hrun as _ <-. rewrite <- list_fmap_compose.
    erewrite list_fmap_ext; [exact Hu|]. intros _ m _. simpl. by destruct (decide _).
  - injection Hrun as _ <-. rewrite fmap_app. apply NoDup_app. split; [|split].
    + eapply sublist_NoDup; [exact Hu|apply filter_slugs_sublist].
    + intros s Hs [->|[]%elem_of_nil]%elem_of_cons.
      apply list_elem_of_fmap in Hs as (m & Hm & [Hne _]%list_elem_of_filter). done.
    + apply NoDup_singleton.
  - injection Hrun as _ <-.
    eapply sublist_NoDup; [exact Hu|apply filter_slugs_sublist].
  - destruct (decide _) as [Hc|Hc]; [done|]. injection Hrun as _ <-.
    apply not_and_l in Hc as [Hfree|Hnone].
    + by apply rename_unique.
    + match goal with |- NoDup (Slug <$> (?f <$> rows)) =>
        assert (f <$> rows = rows) as -> end; [|done].
      rewrite <- (list_fmap_id rows) at 2. apply list_fmap_ext.
      intros i m Hm. simpl. destruct (decide _) as [Ho|]; [|done].
      exfalso. apply Hnone, Exists_exists. exists m. split; [|done].
      by eapply list_elem_of_lookup_2.
Qed.

End store_facts.

Lemma keepsUnique_refl w : spec.keepsUnique w w.
Proof. by intros ?. Qed.

Lemma keepsUnique_trans w1 w2 w3 :
  spec.keepsUnique w1 w2 → spec.keepsUnique w2 w3 → spec.keepsUnique w1 w3.
Proof. unfold spec.keepsUnique. auto. Qed.

Lemma keepsUnique_emit e : stable spec.keepsUnique (emit e).
Proof. intros w H. exact H. Qed.

Lemma keepsUnique_modify f :
  (∀ w, models (f w) = models w) → stable spec.keepsUnique (modify f).
Proof. intros Hf w. unfold spec.keepsUnique. simpl. by rewrite Hf. Qed.

Ltac unique_tac :=
  repeat first
    [ assumption
    | apply keepsUnique_emit
    | apply keepsUnique_modify; by intros []
    | stable_step keepsUnique_refl keepsUnique_trans ].

Lemma keepsUnique_Exec q : stable spec.keepsUnique (db.Exec q).
Proof.
  intros w Hu. unfold db.Exec, bind, emit, get, modify, raise, ret. simpl.
  destruct (nextFault (dbFaults w)) as [[err|] rest]; simpl; [done|].
  destruct (db.run q (now w) (models w)) as [[out rows']|err] eqn:Hrun; simpl; [|done].
  by eapply run_unique.
Qed.

Ltac unique_db :=
  unfold db.GetModelBySlug, db.UpdateModelLastUsed, db.AddModel, db.RemoveModel,
    db.UpdateModelSlug;
  unique_tac; apply keepsUnique_Exec.

Lemma keepsUnique_GetModelBySlug slug : stable spec.keepsUnique (db.GetModelBySlug slug).
Proof. unique_db. Qed.

Lemma keepsUnique_UpdateModelLastUsed slug :
  stable spec.keepsUnique (db.UpdateModelLastUsed slug).
Proof. unique_db. Qed.

Lemma keepsUnique_AddModel slug modelID fileName filePath fileSize :
  stable spec.keepsUnique (db.AddModel slug modelID fileName filePath fileSize).
Proof. unique_db. Qed.

Lemma keepsUnique_RemoveModel slug : stable spec.keepsUnique (db.RemoveModel slug).
Proof. unique_db. Qed.

Lemma keepsUnique_UpdateModelSlug oldSlug newSlug :
  stable spec.keepsUnique (db.UpdateModelSlug oldSlug newSlug).
Proof. unique_db. Qed.

Create HintDb unique.
#[local] Hint Resolve keepsUnique_GetModelBySlug keepsUnique_UpdateModelLastUsed
  keepsUnique_AddModel keepsUnique_RemoveModel keepsUnique_UpdateModelSlug : unique.

Lemma keepsUnique_syscall {A} e (m : M A) :
  stable spec.keepsUnique m → stable spec.keepsUnique (os.syscall e m).
Proof. intros. unfold os.syscall. unique_tac. Qed.

Lemma keepsUnique_Alias oldSlug newSlug :
  stable spec.keepsUnique (model.Alias oldSlug newSlug).
Proof. unfold model.Alias, ui.PrintInfo. unique_tac; auto with unique. Qed.

Lemma keepsUnique_Remove cfg slug : stable spec.keepsUnique (model.Remove cfg slug).
Proof.
  unfold model.Remove, ui.PrintInfo, os.Remove.
  unique_tac; auto with unique. apply keepsUnique_syscall. unique_tac.
Qed.

Lemma keepsUnique_ImportExisting cfg : stable spec.keepsUnique (model.ImportExisting cfg).
Proof.
  unfold model.ImportExisting, model.importVisit, ui.PrintInfo, ui.PrintWarn.
  unique_tac; auto with unique.
Qed.

Lemma keepsUnique_Pull cfg modelID : stable spec.keepsUnique (model.Pull cfg modelID).
Proof.
  unfold model.Pull, model.fetchModelInfo, model.runDownloader, ui.PrintWarn,
    ui.PrintInfo, os.Stat, os.MkdirAll, filepath.Glob, exec.Run, exec.spawn.
  unique_tac; auto with unique; apply keepsUnique_syscall; unique_tac.
Qed.

Lemma perform_keepsUnique op : stable spec.keepsUnique (spec.perform op).
Proof.
  destruct op; simpl;
    auto using keepsUnique_Alias, keepsUnique_Remove, keepsUnique_ImportExisting,
      keepsUnique_Pull with unique.
Qed.

(** C5: every operation that writes the table — the store's [AddModel],
    [UpdateModelSlug], [RemoveModel] and [UpdateModelLastUsed], and the
    commands [Alias], [Remove], [ImportExisting] and [Pull] built on them —
    leaves the slugs pairwise distinct if they were so before, whatever the
    database driver, the file system, the hub and the downloader do; hence
    no two records share a slug in any state reached from an empty table. *)
Theorem slug_unique_invariant :
  (∀ op w, spec.slugsUnique (models w) → spec.slugsUnique (models (snd (spec.perform op w))))
  ∧ (∀ w, spec.reachable w → spec.slugsUnique (models w)).
Proof.
  split.
  - intros op w. apply perform_keepsUnique.
  - induction 1 as [w Hnew|w op _ IH].
    + unfold spec.slugsUnique. rewrite Hnew. constructor.
    + by apply perform_keepsUnique.
Qed.

(** ** The store, call by call *)

Lemma Exec_unfold q w :
  db.Exec q w =
  match fst (nextFault (dbFaults w)) with
  | Some err => (Err err, spec.sent q w)
  | None =>
      match db.run q (now w) (models w) with
      | Err err => (Err err, spec.sent q w)
      | Ok (out, rows') => (Ok out, with_models rows' (spec.sent q w))
      end
  end.
Proof.
  unfold db.Exec, spec.sent, bind, emit, get, modify, raise, ret. simpl.
  destruct (nextFault (dbFaults w)) as [[err|] rest]; simpl; [done|].
  by destruct (db.run q (now w) (models w)) as [[out rows']|err].
Qed.

Lemma GetModelBySlug_unfold slug w :
  db.GetModelBySlug slug w =
  match fst (nextFault (dbFaults w)) with
  | Some err => (Err (wrapf "querying model" err), spec.sent (SelectBySlug slug) w)
  | None =>
      match filter (λ m, Slug m = slug) (models w) with
      | [] => (Err (db.notFound slug), spec.sent (SelectBySlug slug) w)
      | m :: _ => (Ok m, spec.sent (SelectBySlug slug) w)
      end
  end.
Proof.
  unfold db.GetModelBySlug, bind, attempt. rewrite Exec_unfold.
  destruct (fst (nextFault (dbFaults w))) as [err|]; [done|]. simpl.
  assert (with_models (models w) (spec.sent (SelectBySlug slug) w)
          = spec.sent (SelectBySlug slug) w) as -> by (by destruct w).
  by destruct (filter _ (models w)).
Qed.

Lemma filter_slug_nonempty slug rows :
  (∃ m, m ∈ rows ∧ Slug m = slug) ↔ filter (λ m, Slug m = slug) rows ≠ [].
Proof.
  split.
  - intros (m & Hm & Hs) Hnil.
    assert (m ∈ filter (λ m, Slug m = slug) rows) as Hin
      by (apply list_elem_of_filter; done).
    rewrite Hnil in Hin. by apply elem_of_nil in Hin.
  - destruct (filter _ rows) as [|m l] eqn:Hf; [done|]. intros _.
    assert (m ∈ filter (λ m, Slug m = slug) rows) as Hin by (rewrite Hf; left).
    apply list_elem_of_filter in Hin as [Hs Hm]. eauto.
Qed.

Lemma GetModelBySlug_Ok slug w m w' :
  db.GetModelBySlug slug w = (Ok m, w') →
  m ∈ models w ∧ Slug m = slug ∧ w' = spec.sent (SelectBySlug slug) w.
Proof.
  rewrite GetModelBySlug_unfold.
  destruct (fst (nextFault (dbFaults w))); [done|].
  destruct (filter _ (models w)) as [|m' l] eqn:Hf; [done|].
  intros [= -> <-].
  assert (m ∈ filter (λ m, Slug m = slug) (models w)) as Hin by (rewrite Hf; left).
  apply list_elem_of_filter in Hin as [Hs Hm]. done.
Qed.

Lemma GetModelBySlug_world slug w :
  snd (db.GetModelBySlug slug w) = spec.sent (SelectBySlug slug) w.
Proof.
  rewrite GetModelBySlug_unfold.
  destruct (fst (nextFault (dbFaults w))); [done|].
  by destruct (filter _ (models w)).
Qed.

Lemma GetModelBySlug_present slug w :
  spec.hasRecord slug w → dbFaults w = [] →
  ∃ m, db.GetModelBySlug slug w = (Ok m, spec.sent (SelectBySlug slug) w).
Proof.
  intros Hrec Hf. rewrite GetModelBySlug_unfold, Hf. simpl.
  apply filter_slug_nonempty in Hrec.
  destruct (filter _ (models w)) as [|m l]; [done|]. by exists m.
Qed.

Lemma setSlug_same m : db.setSlug (Slug m) m = m.
Proof. by destruct m. Qed.

(** Renaming onto a slug that is taken changes no row, whether SQLite
    refuses the statement or finds nothing to rename. *)
Lemma run_UpdateSlug_taken newSlug oldSlug t rows out rows' :
  (∃ m, m ∈ rows ∧ Slug m = newSlug) →
  db.run (UpdateSlug newSlug oldSlug) t rows = Ok (out, rows') → rows' = rows.
Proof.
  intros (m & Hm & Hs). simpl. destruct (decide _) as [Hc|Hc]; [done|].
  intros [= _ <-]. rewrite <- (list_fmap_id rows) at 2. apply list_fmap_ext.
  intros i x Hx. simpl. destruct (decide (Slug x = oldSlug)) as [Hxo|]; [|done].
  destruct (decide (newSlug = oldSlug)) as [->|Hne].
  - rewrite <- Hxo. apply setSlug_same.
  - exfalso. apply Hc. split; apply Exists_exists.
    + exists m. split; [done|]. split; [done|congruence].
    + exists x. split; [by eapply list_elem_of_lookup_2|done].
Qed.

(** C10: when a record with the new slug exists, [Alias] leaves the table
    as it was: no record changes its slug and none is overwritten, even when
    the driver fails. When the record under the old slug exists too and the
    driver answers, the error is [model with slug '<new>' already exists]. *)
Theorem Alias_onto_existing_slug oldSlug newSlug w :
  spec.hasRecord newSlug w →
  models (snd (model.Alias oldSlug newSlug w)) = models w
  ∧ (spec.hasRecord oldSlug w → dbFaults w = [] →
     fst (model.Alias oldSlug newSlug w) = Err (model.alreadyExists newSlug)).
Proof.
  intros Hnew. split.
  - unfold model.Alias, bind at 1.
    destruct (db.GetModelBySlug oldSlug w) as [[m|e] w1] eqn:H1;
      pose proof (GetModelBySlug_world oldSlug w) as E1; rewrite H1 in E1;
      simpl in E1; subst w1; [|done].
    unfold bind at 1, attempt.
    set (w1 := spec.sent (SelectBySlug oldSlug) w).
    destruct (db.GetModelBySlug newSlug w1) as [[m'|e] w2] eqn:H2;
      pose proof (GetModelBySlug_world newSlug w1) as E2; rewrite H2 in E2;
      simpl in E2; subst w2; [done|].
    set (w2 := spec.sent (SelectBySlug newSlug) w1).
    unfold bind, db.UpdateModelSlug, bind, wrapping. rewrite Exec_unfold.
    destruct (fst (nextFault (dbFaults w2))); [done|].
    destruct (db.run _ _ _) as [[out rows']|err] eqn:Hrun; [|done].
    apply run_UpdateSlug_taken in Hrun as ->; [|exact Hnew].
    by destruct (db.rowsAffected out =? 0).
  - intros Hold Hf.
    unfold model.Alias, bind at 1.
    destruct (GetModelBySlug_present oldSlug w Hold Hf) as [m ->].
    unfold bind at 1, attempt.
    assert (spec.hasRecord newSlug (spec.sent (SelectBySlug oldSlug) w)) as Hnew' by done.
    assert (dbFaults (spec.sent (SelectBySlug oldSlug) w) = []) as Hf'
      by (simpl; by rewrite Hf).
    destruct (GetModelBySlug_present newSlug _ Hnew' Hf') as [m' ->]. done.
Qed.

(** ** Removing a model: the file first, the record second *)

Lemma newEvents_app w w' evs : trace w' = trace w ++ evs → spec.newEvents w w' = evs.
Proof. unfold spec.newEvents. intros ->. by rewrite drop_app_length. Qed.

Lemma syscall_unfold {A} e (m : M A) w :
  os.syscall e m w =
  match fst (nextFault (fsFaults w)) with
  | Some err => (Err err, spec.asked e w)
  | None => m (spec.asked e w)
  end.
Proof.
  unfold os.syscall, spec.asked, bind, emit, get, modify, raise. simpl.
  by destruct (nextFault (fsFaults w)) as [[err|] rest].
Qed.

Lemma os_Remove_cases path w r w' :
  os.Remove path w = (r, w') →
  models w' = models w ∧ dbFaults w' = dbFaults w ∧ now w' = now w
  ∧ trace w' = trace w ++ [EvRemove path]
  ∧ (match r with
     | Ok _ => is_Some (fs w !! path) ∧ fs w' = delete path (fs w)
     | Err _ => fs w' = fs w
     end).
Proof.
  unfold os.Remove. rewrite syscall_unfold.
  destruct (fst (nextFault (fsFaults w))) as [err|]; [by intros [= <- <-]|].
  unfold bind, get, raise, modify. simpl.
  destruct (fs w !! path) as [info|] eqn:Hp; [|by intros [= <- <-]].
  destruct (IsDir info && _); intros [= <- <-]; simpl; eauto 10.
Qed.

Lemma RemoveModel_cases slug w r w' :
  db.RemoveModel slug w = (r, w') →
  fs w' = fs w ∧ trace w' = trace w ++ [EvSql (DeleteBySlug slug)]
  ∧ (match r with
     | Ok _ => models w' = filter (λ m, Slug m ≠ slug) (models w)
     | Err _ => models w' = models w
     end).
Proof.
  unfold db.RemoveModel, bind, wrapping. rewrite Exec_unfold.
  destruct (fst (nextFault (dbFaults w))) as [err|]; [by intros [= <- <-]|].
  simpl. destruct (Z.eqb_spec (Z.of_nat (length (filter (λ m, Slug m = slug) (models w)))) 0)
    as [Hz|Hz]; intros [= <- <-]; simpl; [|done].
  repeat split; try done.
  assert (filter (λ m, Slug m = slug) (models w) = []) as Hnil
    by (apply length_zero_iff_nil; lia).
  clear Hz. induction (models w) as [|m rows IH]; [done|].
  rewrite filter_cons in Hnil |- *.
  destruct (decide (Slug m = slug)); [done|].
  rewrite decide_True by done. f_equal. by apply IH.
Qed.

Lemma Remove_outcome cfg slug w r w' :
  model.Remove cfg slug w = (r, w') → spec.RemoveOutcome slug w r w'.
Proof.
  unfold model.Remove, bind at 1. rewrite GetModelBySlug_unfold.
  destruct (fst (nextFault (dbFaults w))) as [err|].
  { intros [= <- <-]. eapply spec.LookupFailed; try done. by apply newEvents_app. }
  destruct (filter (λ m, Slug m = slug) (models w)) as [|m rest] eqn:Hsel.
  { intros [= <- <-]. eapply spec.LookupFailed; try done. by apply newEvents_app. }
  set (w1 := spec.sent (SelectBySlug slug) w).
  unfold bind at 1, wrapping.
  destruct (os.Remove (FilePath m) w1) as [[[]|e] w2] eqn:Hrm;
    apply os_Remove_cases in Hrm as (Hm2 & Hd2 & Hn2 & Ht2 & Hfs2).
  2:{ intros [= <- <-]. eapply (spec.FileKept _ _ _ _ m); simpl; try done.
      - by rewrite Hsel.
      - apply newEvents_app. rewrite Ht2. simpl. by rewrite <- app_assoc. }
  destruct Hfs2 as [Hin Hfs2].
  unfold bind at 1.
  destruct (db.RemoveModel slug w2) as [[[]|e] w3] eqn:Hdel;
    apply RemoveModel_cases in Hdel as (Hfs3 & Ht3 & Hm3); intros [= <- <-].
  - eapply (spec.BothRemoved _ _ _ _ m); simpl; try done.
    + by rewrite Hsel.
    + by rewrite Hm3, Hm2.
    + by rewrite Hfs3, Hfs2.
    + apply newEvents_app. rewrite Ht3, Ht2. simpl. by rewrite <- !app_assoc.
  - eapply (spec.RecordKept _ _ _ _ m); simpl; try done.
    + by rewrite Hsel.
    + by rewrite Hm3, Hm2.
    + by rewrite Hfs3, Hfs2.
    + apply newEvents_app. rewrite Ht3, Ht2. simpl. by rewrite <- !app_assoc.
Qed.

Lemma selected_unique slug rows m m' :
  spec.slugsUnique rows →
  head (filter (λ m, Slug m = slug) rows) = Some m →
  m' ∈ rows → Slug m' = slug → m' = m.
Proof.
  unfold spec.slugsUnique. intros Hu Hsel Hm' Hs'.
  assert (m ∈ filter (λ m, Slug m = slug) rows) as Hm.
  { destruct (filter _ rows) as [|x l]; [done|]. injection Hsel as ->. left. }
  apply list_elem_of_filter in Hm as [Hs Hm].
  induction rows as [|x rows IH]; [by apply elem_of_nil in Hm|].
  rewrite fmap_cons in Hu. apply NoDup_cons in Hu as [Hx Hu].
  apply elem_of_cons in Hm as [->|Hm], Hm' as [->|Hm']; try done.
  - exfalso. apply Hx. rewrite Hs, <- Hs'. by apply list_elem_of_fmap_2.
  - exfalso. apply Hx. rewrite Hs', <- Hs. by apply list_elem_of_fmap_2.
  - apply IH; try done.
    rewrite filter_cons in Hsel. destruct (decide (Slug x = slug)) as [Hxs|]; [|done].
    exfalso. apply Hx. rewrite Hxs, <- Hs. by apply list_elem_of_fmap_2.
Qed.

(** C1, amended: [Remove] deletes the file first and the record second:
    whenever the [DELETE] statement is sent, the removal of the record's file
    came before it and the file is gone. A run that fails leaves every
    record in place, so what a partial failure can leave behind is a record
    whose file is gone; and no run leaves a file without a record that was
    not one before. *)
Theorem Remove_file_first_record_second cfg slug w :
  spec.slugsUnique (models w) →
  let r := fst (model.Remove cfg slug w) in
  let w' := snd (model.Remove cfg slug w) in
  (EvSql (DeleteBySlug slug) ∈ spec.newEvents w w' →
   ∃ m, m ∈ models w ∧ Slug m = slug
        ∧ spec.precedes (EvRemove (FilePath m)) (EvSql (DeleteBySlug slug))
            (spec.newEvents w w')
        ∧ fs w' !! FilePath m = None)
  ∧ (∀ e, r = Err e → models w' = models w)
  ∧ (∀ path, spec.orphanedFile w' path → spec.orphanedFile w path).
Proof.
  intros Hu r w'. subst r w'.
  destruct (model.Remove cfg slug w) as [r w'] eqn:Hrun. simpl.
  destruct (Remove_outcome cfg slug w r w' Hrun)
    as [e Hr Hm Hfs Hev|m e Hsel Hr Hm Hfs Hev|m e Hsel Hr Hm Hin Hfs Hev
        |m Hsel Hr Hm Hin Hfs Hev]; rewrite Hev, Hr.
  - split; [|split].
    + intros [[=]|[]%elem_of_nil]%elem_of_cons.
    + done.
    + unfold spec.orphanedFile. by rewrite Hm, Hfs.
  - split; [|split].
    + intros [[=]|[[=]|[]%elem_of_nil]%elem_of_cons]%elem_of_cons.
    + done.
    + unfold spec.orphanedFile. by rewrite Hm, Hfs.
  - assert (m ∈ models w ∧ Slug m = slug) as [Hmw Hms].
    { assert (m ∈ filter (λ m, Slug m = slug) (models w)) as Hf.
      { destruct (filter _ (models w)); [done|]. injection Hsel as ->. left. }
      by apply list_elem_of_filter in Hf as [? ?]. }
    split; [|split].
    + intros _. exists m. repeat split; try done.
      * exists 1%nat, 2%nat. repeat split; [lia|done..].
      * rewrite Hfs. apply lookup_delete_eq.
    + done.
    + unfold spec.orphanedFile. rewrite Hm, Hfs. intros path [[info Hp] Hnone].
      apply lookup_delete_Some in Hp as [_ Hp]. eauto.
  - assert (m ∈ models w ∧ Slug m = slug) as [Hmw Hms].
    { assert (m ∈ filter (λ m, Slug m = slug) (models w)) as Hf.
      { destruct (filter _ (models w)); [done|]. injection Hsel as ->. left. }
      by apply list_elem_of_filter in Hf as [? ?]. }
    split; [|split].
    + intros _. exists m. repeat split; try done.
      * exists 1%nat, 2%nat. repeat split; [lia|done..].
      * rewrite Hfs. apply lookup_delete_eq.
    + done.
    + unfold spec.orphanedFile. rewrite Hm, Hfs. intros path [[info Hp] Hnone].
      apply lookup_delete_Some in Hp as [Hne Hp]. split; [eauto|].
      intros m' Hm' Hpath. destruct (decide (Slug m' = slug)) as [Hs|Hs].
      * assert (m' = m) as -> by (by eapply selected_unique). done.
      * apply (Hnone m'); [|done]. by apply list_elem_of_filter.
Qed.

(** ** Import: what stops the walk and what does not *)

Lemma AddModel_unfold slug modelID fileName filePath fileSize w :
  db.AddModel slug modelID fileName filePath fileSize w =
  match fst (nextFault (dbFaults w)) with
  | Some err =>
      (Err (wrapf "inserting model" err),
       spec.sent (InsertOrReplace slug modelID fileName filePath fileSize) w)
  | None =>
      (Ok (),
       with_models
         (filter (λ m, Slug m ≠ slug) (models w)
          ++ [mkModel (db.nextRowid (models w)) slug modelID fileName filePath fileSize
                      (now w) None])
         (spec.sent (InsertOrReplace slug modelID fileName filePath fileSize) w))
  end.
Proof.
  unfold db.AddModel, bind, wrapping. rewrite Exec_unfold.
  by destruct (fst (nextFault (dbFaults w))).
Qed.

(** One visit: it stops the walk, or changes nothing, or sends its upsert
    and reports how that went. *)
Lemma importVisit_cases cfg v w :
  match spec.visitError cfg v with
  | Some err => model.importVisit cfg v w = (Err err, w)
  | None =>
      match spec.recordFor cfg v with
      | None => model.importVisit cfg v w = (Ok (), w)
      | Some q =>
          ∃ w' note,
            model.importVisit cfg v w = (Ok (), w')
            ∧ trace w' = trace w ++ [EvSql q; note]
            ∧ dbFaults w' = snd (nextFault (dbFaults w))
            ∧ tree w' = tree w
            ∧ match fst (nextFault (dbFaults w)) with
              | Some err =>
                  note = EvWarn (lit "Failed to import model " ++ v_path v ++ lit ": "
                                 ++ wrapf "inserting model" err)
              | None => ∃ msg, note = EvInfo msg
              end
      end
  end.
Proof.
  unfold spec.visitError, spec.recordFor, model.importVisit.
  destruct (v_err v) as [err|]; [done|].
  destruct (IsDir (v_info v)); cbn [negb andb]; [done|].
  destruct (strings.HasSuffix _ _); cbn [negb andb]; [|done].
  destruct (filepath.Rel _ _) as [rel|]; cbn [mbind option_bind]; [|done].
  destruct (strings.Split rel [filepath.Separator]) as [|p1 [|p2 [|p3 parts]]] eqn:Hparts;
    cbn [length Nat.ltb Nat.leb head default]; try done.
  - unfold bind, attempt. rewrite AddModel_unfold.
    destruct (fst (nextFault (dbFaults w))) as [err|] eqn:Hf; simpl.
    + eexists _, _. split; [done|]. simpl. rewrite <- app_assoc. done.
    + eexists _, _. split; [done|]. simpl. rewrite <- app_assoc. eauto 10.
  - unfold bind, attempt. rewrite AddModel_unfold.
    destruct (fst (nextFault (dbFaults w))) as [err|] eqn:Hf; simpl.
    + eexists _, _. split; [done|]. simpl. rewrite <- app_assoc. done.
    + eexists _, _. split; [done|]. simpl. rewrite <- app_assoc. eauto 10.
Qed.

Lemma statements_app l k : spec.statements (l ++ k) = spec.statements l ++ spec.statements k.
Proof. apply omap_app. Qed.

Lemma warnings_app l k : spec.warnings (l ++ k) = spec.warnings l ++ spec.warnings k.
Proof. apply omap_app. Qed.

Lemma faultsAmong_S n faults :
  spec.faultsAmong (S n) faults
  = ((match fst (nextFault faults) with Some _ => 1 | None => 0 end)
     + spec.faultsAmong n (snd (nextFault faults)))%nat.
Proof.
  unfold spec.faultsAmong. destruct faults as [|[err|] rest]; cbn [nextFault fst snd take].
  - by rewrite take_nil.
  - rewrite filter_cons. by rewrite decide_True by eauto.
  - rewrite filter_cons. rewrite decide_False; [done|]. by intros [? [=]].
Qed.

(** The walk: every visit before the first that stops it sends its upsert,
    whatever became of the upserts before; each failed upsert is one
    warning. *)
Lemma forEach_importVisit cfg visits w :
  ∃ evs w',
    forEach visits (model.importVisit cfg) w
    = (match snd (spec.walked cfg visits) with None => Ok () | Some err => Err err end, w')
    ∧ trace w' = trace w ++ evs
    ∧ spec.statements evs = omap (spec.recordFor cfg) (fst (spec.walked cfg visits))
    ∧ length (spec.warnings evs)
      = spec.faultsAmong (length (spec.statements evs)) (dbFaults w).
Proof.
  revert w. induction visits as [|v visits IH]; intros w.
  - exists [], w. simpl. by rewrite app_nil_r.
  - simpl. unfold bind. pose proof (importVisit_cases cfg v w) as Hv.
    destruct (spec.visitError cfg v) as [err|].
    { rewrite Hv. exists [], w. simpl. by rewrite app_nil_r. }
    destruct (spec.walked cfg visits) as [seen stop] eqn:Hw. simpl in *.
    destruct (spec.recordFor cfg v) as [q|].
    + destruct Hv as (w1 & note & -> & Ht & Hf & _ & Hnote).
      destruct (IH w1) as (evs & w' & -> & Ht' & Hs & Hc).
      exists ([EvSql q; note] ++ evs), w'. split; [done|].
      rewrite Ht', Ht, <- app_assoc. split; [done|].
      rewrite statements_app, warnings_app, !length_app.
      assert (spec.statements [EvSql q; note] = [q]) as ->.
      { destruct (fst (nextFault (dbFaults w))); [by subst note|].
        by destruct Hnote as [msg ->]. }
      simpl. rewrite Hs. split; [done|].
      rewrite faultsAmong_S, Hc, Hs, Hf.
      destruct (fst (nextFault (dbFaults w))); [by subst note|].
      by destruct Hnote as [msg ->].
    + rewrite Hv. destruct (IH w) as (evs & w' & -> & Ht' & Hs & Hc).
      by exists evs, w'.
Qed.

(** C6, amended: [ImportExisting] sends one [INSERT OR REPLACE] for each
    file the walk reaches that is named [*.gguf] in any case and lies at
    least one directory below the root, in the order of the walk; each
    insert the database refuses is answered by one warning and the walk goes
    on; and the walk stops, with the error wrapped in [walking models
    directory], at the first path that cannot be visited, returning success
    when there is none. *)
Theorem ImportExisting_walk cfg w :
  let r := fst (model.ImportExisting cfg w) in
  let events := spec.newEvents w (snd (model.ImportExisting cfg w)) in
  spec.statements events = omap (spec.recordFor cfg) (fst (spec.walked cfg (tree w)))
  ∧ length (spec.warnings events)
    = spec.faultsAmong (length (spec.statements events)) (dbFaults w)
  ∧ r = match snd (spec.walked cfg (tree w)) with
        | None => Ok ()
        | Some err => Err (wrapf "walking models directory" err)
        end.
Proof.
  unfold model.ImportExisting, ui.PrintInfo, bind, emit, get, wrapping.
  cbn [fst snd tree with_trace trace].
  match goal with
  | |- context [forEach ?vs ?body ?w1] =>
      destruct (forEach_importVisit cfg vs w1) as (evs & w2 & Hrun & Ht & Hs & Hc)
  end.
  rewrite Hrun. cbn [trace dbFaults with_trace] in Ht, Hc.
  destruct (snd (spec.walked cfg (tree w))) as [err|]; cbn [fst snd].
  - match type of Ht with _ = ((_ ++ [?e1]) ++ [?e2]) ++ _ =>
      assert (spec.newEvents w w2 = [e1; e2] ++ evs) as ->
        by (apply newEvents_app; rewrite Ht, <- !app_assoc; done)
    end.
    rewrite !statements_app, !warnings_app, !length_app.
    change (spec.statements [_; _]) with (@nil Stmt).
    change (spec.warnings [_; _]) with (@nil gostring).
    cbn [app length Nat.add]. done.
  - match type of Ht with _ = ((_ ++ [?e1]) ++ [?e2]) ++ _ =>
      match goal with |- context [spec.newEvents w (with_trace (_ ++ [?e3]) _)] =>
        assert (spec.newEvents w (with_trace (trace w2 ++ [e3]) w2)
                = [e1; e2] ++ evs ++ [e3]) as ->
          by (apply newEvents_app; cbn [trace with_trace];
              rewrite Ht, <- !app_assoc; done)
      end
    end.
    rewrite !statements_app, !warnings_app, !length_app.
    change (spec.statements [_; _]) with (@nil Stmt).
    change (spec.warnings [_; _]) with (@nil gostring).
    change (spec.statements [_]) with (@nil Stmt).
    change (spec.warnings [_]) with (@nil gostring).
    cbn [app length Nat.add]. rewrite app_nil_r, !Nat.add_0_r. done.
Qed.

(** ** Readiness polling *)

Lemma IsServerRunning_unfold port w :
  server.IsServerRunning port w =
  (Ok (match head (inference w) with Some reply => spec.healthy reply | None => false end),
   with_inference (tail (inference w))
     (with_trace (trace w ++ [EvGet (spec.healthURL port)]) w)).
Proof.
  unfold server.IsServerRunning, server.roundTrip, bind, emit, get, modify, ret. simpl.
  by destruct (inference w) as [|[err|status body scanErr] rest].
Qed.

Lemma dot_test i :
  0 ≤ i → (0 <? i) && (Z.rem i 10 =? 0)
          = bool_decide (0 < Z.to_nat i ∧ Z.to_nat i `mod` 10 = 0)%nat.
Proof.
  intros Hi. rewrite Z.rem_mod_nonneg by lia.
  assert (Z.to_nat i `mod` 10 = Z.to_nat (i `mod` 10))%nat as ->.
  { rewrite Z2Nat.inj_mod by lia. done. }
  destruct (Z.ltb_spec 0 i), (Z.eqb_spec (i `mod` 10) 0); simpl.
  - rewrite bool_decide_eq_true_2; [done|]. split; [lia|]. rewrite e. done.
  - rewrite bool_decide_eq_false_2; [done|]. intros [_ H']. 
    assert (0 ≤ i `mod` 10) by (apply Z.mod_pos_bound; lia). lia.
  - rewrite bool_decide_eq_false_2; [done|]. lia.
  - rewrite bool_decide_eq_false_2; [done|]. lia.
Qed.

(** One turn of the loop. *)
Lemma waitFrom_step port maxWait (i : nat) left w :
  server.waitFrom port maxWait (Z.of_nat i) (S left) w =
  let w1 := with_inference (tail (inference w))
              (with_trace (trace w ++ spec.check port i) w) in
  if match head (inference w) with Some reply => spec.healthy reply | None => false end
  then (Ok (), with_trace (trace w1 ++ spec.readyAfter i) w1)
  else server.waitFrom port maxWait (Z.of_nat (S i)) left
         (with_now (now w + 1) (with_trace (trace w1 ++ [EvSleep 1]) w1)).
Proof.
  simpl server.waitFrom. rewrite dot_test, Nat2Z.id by lia.
  replace (Z.of_nat i + 1) with (Z.of_nat (S i)) by lia.
  unfold spec.check, spec.readyAfter, spec.dot.
  destruct (bool_decide (0 < i ∧ i `mod` 10 = 0)%nat);
    unfold ui.PrintInfo, time.Sleep; unfold bind, emit, ret, get, modify;
    rewrite IsServerRunning_unfold; cbn [inference trace with_trace fst snd];
    destruct (match head (inference w) with Some _ => _ | None => _ end);
    cbn - [server.waitFrom lit strconv.Itoa Z.of_nat]; rewrite <- ?app_assoc; reflexivity.
Qed.

(** The loop from counter [i]: as long as the answers are unhealthy it
    checks and sleeps; the first healthy answer ends it. *)
Lemma waitFrom_ready port maxWait before : ∀ (i : nat) left w reply after,
  inference w = before ++ reply :: after →
  (length before < left)%nat →
  Forall (λ r, spec.healthy r = false) before → spec.healthy reply = true →
  ∃ w', server.waitFrom port maxWait (Z.of_nat i) left w = (Ok (), w')
        ∧ trace w' = trace w ++ spec.unanswered port i (length before)
                     ++ spec.check port (i + length before)
                     ++ spec.readyAfter (i + length before)
        ∧ now w' = now w + Z.of_nat (length before).
Proof.
  induction before as [|r before IH]; intros i left w reply after Hinf Hlen Hun Hok;
    (destruct left as [|left]; [simpl in Hlen; lia|]); rewrite waitFrom_step, Hinf;
    cbn [head app].
  - rewrite Hok. eexists. split; [done|]. cbn [trace now with_trace with_inference].
    rewrite Nat.add_0_r, Z.add_0_r, <- app_assoc. done.
  - apply Forall_cons in Hun as [Hr Hun]. rewrite Hr.
    match goal with |- context [server.waitFrom _ _ _ _ ?w2] => set (W := w2) end.
    destruct (IH (S i) left W reply after) as (w' & -> & Ht & Hn); try done.
    { simpl in Hlen. lia. }
    exists w'. split; [done|]. rewrite Ht, Hn. subst W.
    cbn [trace now with_trace with_inference with_now length spec.unanswered].
    replace (S i + length before)%nat with (i + S (length before))%nat by lia.
    split; [|lia]. rewrite <- !app_assoc. done.
Qed.

Lemma waitFrom_timeout port maxWait left : ∀ (i : nat) w,
  Forall (λ r, spec.healthy r = false) (take left (inference w)) →
  ∃ w', server.waitFrom port maxWait (Z.of_nat i) left w = (Err (spec.timedOut maxWait), w')
        ∧ trace w' = trace w ++ spec.unanswered port i left
        ∧ now w' = now w + Z.of_nat left.
Proof.
  induction left as [|left IH]; intros i w Hun.
  - exists w. simpl. rewrite app_nil_r. split; [done|]. split; [done|lia].
  - rewrite waitFrom_step. cbv zeta.
    assert (match head (inference w) with Some reply => spec.healthy reply | None => false end
            = false) as ->.
    { destruct (inference w) as [|r rest]; [done|]. simpl in Hun |- *.
      by apply Forall_cons in Hun as [? _]. }
    match goal with |- context [server.waitFrom _ _ _ _ ?w2] => set (W := w2) end.
    destruct (IH (S i) W) as (w' & -> & Ht & Hn).
    { subst W. cbn [inference with_now with_trace with_inference].
      destruct (inference w) as [|r rest]; simpl tail; [by rewrite take_nil|].
      simpl in Hun. by apply Forall_cons in Hun as [_ ?]. }
    exists w'. split; [done|]. rewrite Ht, Hn. subst W.
    cbn [trace now with_trace with_inference with_now spec.unanswered].
    split; [|lia]. rewrite <- !app_assoc. done.
Qed.

Lemma checks_app l k : spec.checks (l ++ k) = (spec.checks l + spec.checks k)%nat.
Proof. unfold spec.checks. by rewrite omap_app, length_app. Qed.

Lemma dots_app l k : spec.dots (l ++ k) = (spec.dots l + spec.dots k)%nat.
Proof. unfold spec.dots. by rewrite omap_app, length_app. Qed.

Lemma checks_check port i : spec.checks (spec.check port i) = 1%nat.
Proof. unfold spec.check. by destruct (bool_decide _). Qed.

Lemma dots_check port i :
  spec.dots (spec.check port i) = if bool_decide (0 < i ∧ i `mod` 10 = 0)%nat then 1%nat else 0%nat.
Proof. unfold spec.check. by destruct (bool_decide _). Qed.

Lemma checks_unanswered port count : ∀ i, spec.checks (spec.unanswered port i count) = count.
Proof.
  induction count as [|count IH]; intros i; [done|].
  cbn [spec.unanswered]. rewrite checks_app, checks_check.
  change (EvSleep 1 :: ?l) with ([EvSleep 1] ++ l). rewrite checks_app, IH. done.
Qed.

Lemma tenth_step i :
  ((if bool_decide (0 < i ∧ i `mod` 10 = 0)%nat then 1 else 0) + (i - 1) / 10 = i / 10)%nat.
Proof.
  destruct (bool_decide_reflect (0 < i ∧ i `mod` 10 = 0)%nat) as [[Hi Hm]|Hn].
  - pose proof (Nat.div_mod_eq i 10). pose proof (Nat.div_mod_eq (i - 1) 10).
    pose proof (Nat.mod_upper_bound (i - 1) 10). lia.
  - pose proof (Nat.div_mod_eq i 10). pose proof (Nat.div_mod_eq (i - 1) 10).
    pose proof (Nat.mod_upper_bound (i - 1) 10). pose proof (Nat.mod_upper_bound i 10).
    destruct (decide (i = 0%nat)) as [->|]; [done|]. lia.
Qed.

(** When the next check comes after [i] unanswered ones, a dot has been
    printed for every ten of them. *)
Lemma dots_unanswered port count : ∀ i,
  (spec.dots (spec.unanswered port i count) + (i - 1) / 10 = (i + count - 1) / 10)%nat.
Proof.
  induction count as [|count IH]; intros i.
  - simpl. by rewrite Nat.add_0_r.
  - cbn [spec.unanswered]. rewrite dots_app, dots_check.
    change (EvSleep 1 :: ?l) with ([EvSleep 1] ++ l). rewrite dots_app.
    change (spec.dots [EvSleep 1]) with 0%nat.
    specialize (IH (S i)). pose proof (tenth_step i).
    replace (S i - 1)%nat with i in IH by lia.
    replace (S i + count - 1)%nat with (i + S count - 1)%nat in IH by lia. lia.
Qed.

Lemma WaitForServer_unfold port maxWait w :
  server.WaitForServer port maxWait w
  = server.waitFrom port maxWait (Z.of_nat 0) (Z.to_nat maxWait)
      (with_trace (trace w ++ [spec.waiting]) w).
Proof. done. Qed.

(** C8: [WaitForServer port 300] asks the health endpoint once per tick of
    one second. When the first healthy answer is the [n+1]-th, with
    [n < 300], it returns success having made exactly [n+1] checks and slept
    [n] times; when none of the first 300 answers is healthy it returns the
    timeout error after exactly 300 checks. A dot is printed before the
    checks numbered 10, 20, ... (counted from 0), that is once for every ten
    unanswered checks. *)
Theorem WaitForServer_polls port w :
  let r := fst (server.WaitForServer port 300 w) in
  let events := spec.newEvents w (snd (server.WaitForServer port 300 w)) in
  (∀ before reply after,
     inference w = before ++ reply :: after → (length before < 300)%nat →
     Forall (λ r, spec.healthy r = false) before → spec.healthy reply = true →
     r = Ok ()
     ∧ events = spec.waiting :: spec.unanswered port 0 (length before)
                ++ spec.check port (length before) ++ spec.readyAfter (length before)
     ∧ spec.checks events = S (length before)
     ∧ spec.dots events = (length before / 10)%nat)
  ∧ (Forall (λ r, spec.healthy r = false) (take 300 (inference w)) →
     r = Err (spec.timedOut 300)
     ∧ events = spec.waiting :: spec.unanswered port 0 300
     ∧ spec.checks events = 300%nat
     ∧ spec.dots events = 29%nat).
Proof.
  rewrite WaitForServer_unfold. change (Z.to_nat 300) with 300%nat.
  set (w1 := with_trace _ w). split.
  - intros before reply after Hinf Hlen Hun Hok.
    destruct (waitFrom_ready port 300 before 0 300 w1 reply after) as (w' & -> & Ht & _);
      try done.
    cbn [fst snd]. split; [done|].
    assert (spec.newEvents w w' = spec.waiting :: spec.unanswered port 0 (length before)
              ++ spec.check port (length before) ++ spec.readyAfter (length before)) as ->.
    { apply newEvents_app. rewrite Ht. subst w1. cbn [trace with_trace Nat.add].
      by rewrite <- app_assoc. }
    split; [done|].
    change (spec.waiting :: ?l) with ([spec.waiting] ++ l).
    rewrite !checks_app, !dots_app, checks_unanswered, checks_check.
    pose proof (dots_unanswered port (length before) 0) as Hd.
    pose proof (tenth_step (length before)) as Ht10. rewrite dots_check.
    change (spec.checks [spec.waiting]) with 0%nat.
    change (spec.dots [spec.waiting]) with 0%nat.
    change (spec.checks (spec.readyAfter _)) with 0%nat.
    change (spec.dots (spec.readyAfter _)) with 0%nat.
    change ((0 - 1) / 10)%nat with 0%nat in Hd.
    change (0 + length before - 1)%nat with (length before - 1)%nat in Hd.
    destruct (bool_decide _); split; lia.
  - intros Hun.
    destruct (waitFrom_timeout port 300 300 0 w1) as (w' & -> & Ht & _); [done|].
    cbn [fst snd]. split; [done|].
    assert (spec.newEvents w w' = spec.waiting :: spec.unanswered port 0 300) as ->.
    { apply newEvents_app. rewrite Ht. subst w1. cbn [trace with_trace].
      by rewrite <- app_assoc. }
    split; [done|].
    change (spec.waiting :: ?l) with ([spec.waiting] ++ l).
    rewrite !checks_app, !dots_app, checks_unanswered.
    pose proof (dots_unanswered port 300 0) as Hd.
    change (spec.checks [spec.waiting]) with 0%nat.
    change (spec.dots [spec.waiting]) with 0%nat.
    change ((0 - 1) / 10)%nat with 0%nat in Hd.
    change ((0 + 300 - 1) / 10)%nat with 29%nat in Hd. split; [done|lia].
Qed.

(** ** Terminating the servers: graceful, then forceful *)

Lemma precedes_app e1 e2 l1 l2 : e1 ∈ l1 → e2 ∈ l2 → spec.precedes e1 e2 (l1 ++ l2).
Proof.
  intros [i Hi]%list_elem_of_lookup [j Hj]%list_elem_of_lookup.
  exists i, (length l1 + j)%nat. split; [|split].
  - apply lookup_lt_Some in Hi. lia.
  - by apply lookup_app_l_Some.
  - by rewrite lookup_app_r, Nat.add_comm, Nat.add_sub by lia.
Qed.

Lemma precedes_app_r e1 e2 l1 l2 : spec.precedes e1 e2 l2 → spec.precedes e1 e2 (l1 ++ l2).
Proof.
  intros (i & j & Hij & Hi & Hj). exists (length l1 + i)%nat, (length l1 + j)%nat.
  split; [lia|]. rewrite !lookup_app_r by lia.
  by rewrite !(Nat.add_comm (length l1)), !Nat.add_sub.
Qed.

Lemma precedes_app_l e1 e2 l1 l2 : spec.precedes e1 e2 l1 → spec.precedes e1 e2 (l1 ++ l2).
Proof.
  intros (i & j & Hij & Hi & Hj). exists i, j.
  split; [done|]. split; by apply lookup_app_l_Some.
Qed.

Lemma did_nothing w : spec.did w w [].
Proof. unfold spec.did. by rewrite app_nil_r. Qed.

Lemma did_then w1 w2 w3 e1 e2 :
  spec.did w1 w2 e1 → spec.did w2 w3 e2 → spec.did w1 w3 (e1 ++ e2).
Proof.
  intros (Ht1 & He1 & Hf1 & Hd1) (Ht2 & He2 & Hf2 & Hd2). unfold spec.did, spec.spawns.
  rewrite Ht2, Ht1, Hf2, Hf1, Hd2, Hd1, He2, He1, app_assoc, omap_app, length_app.
  by rewrite drop_drop.
Qed.

Lemma did_emit e w : spec.spawns [e] = 0%nat → spec.did w (snd (emit e w)) [e].
Proof. intros H. unfold spec.did. by rewrite H. Qed.

Lemma graceful_same w w' pid :
  findable w' = findable w → deliverable w' = deliverable w →
  spec.graceful w' pid = spec.graceful w pid.
Proof. unfold spec.graceful, spec.signalled. by intros -> ->. Qed.

Lemma forceful_same w w' pid :
  findable w' = findable w → deliverable w' = deliverable w →
  spec.forceful w' pid = spec.forceful w pid.
Proof. unfold spec.forceful, spec.signalled. by intros -> ->. Qed.

Lemma signal_run pid sig w :
  ∃ w', attempt (exec.Signal_ pid sig) w
        = (Ok (match deliverable w pid sig with Some err => Err err | None => Ok () end), w')
        ∧ spec.did w w' [EvSignal pid sig].
Proof.
  unfold attempt, exec.Signal_, bind, emit, get. simpl.
  destruct (deliverable w pid sig); by eexists.
Qed.

Lemma terminate_run pidStr w :
  ∃ w', server.terminate pidStr w = (Ok (), w')
        ∧ spec.did w w' (match strconv.Atoi pidStr with
                         | Some pid => spec.graceful w pid
                         | None => []
                         end).
Proof.
  unfold server.terminate, spec.graceful, spec.signalled.
  destruct (strconv.Atoi pidStr) as [pid|]; [|eexists; split; [done|apply did_nothing]].
  unfold bind at 1, attempt at 1, exec.FindProcess, bind at 1, get at 1.
  destruct (findable w pid) as [err|]; [by eexists|].
  unfold ret at 1. unfold bind.
  destruct (signal_run pid SIGTERM w) as (w1 & -> & Hd).
  destruct (deliverable w pid SIGTERM); [|by eexists].
  eexists. split; [done|]. eapply (did_then _ _ _ [_] [_]); [exact Hd|]. by apply did_emit.
Qed.

Lemma forceKill_run pidStr w :
  ∃ w', server.forceKill pidStr w = (Ok (), w')
        ∧ spec.did w w' (match strconv.Atoi pidStr with
                         | Some pid => spec.forceful w pid
                         | None => []
                         end).
Proof.
  unfold server.forceKill, spec.forceful, spec.signalled.
  destruct (strconv.Atoi pidStr) as [pid|]; [|eexists; split; [done|apply did_nothing]].
  unfold bind at 1, attempt at 1, exec.FindProcess, bind at 1, get at 1.
  destruct (findable w pid) as [err|]; [eexists; split; [done|apply did_nothing]|].
  unfold ret at 1. unfold bind.
  destruct (signal_run pid SIGKILL w) as (w1 & -> & Hd).
  destruct (deliverable w pid SIGKILL); [|by eexists].
  eexists. split; [done|]. eapply (did_then _ _ _ [_] [_]); [exact Hd|]. by apply did_emit.
Qed.

(** A round over the fields of a scan: one step per PID, in order. *)
Lemma round_run (body : gostring → M unit) (step : World → Z → list Event) fields :
  (∀ w w' pid, findable w' = findable w → deliverable w' = deliverable w →
               step w' pid = step w pid) →
  (∀ pidStr w, ∃ w', body pidStr w = (Ok (), w')
                     ∧ spec.did w w' (match strconv.Atoi pidStr with
                                      | Some pid => step w pid
                                      | None => []
                                      end)) →
  ∀ w, ∃ w', forEach fields body w = (Ok (), w')
             ∧ spec.did w w' (omap strconv.Atoi fields ≫= step w).
Proof.
  intros Hstep Hbody. induction fields as [|f fields IH]; intros w.
  - exists w. split; [done|apply did_nothing].
  - cbn [forEach]. unfold bind.
    destruct (Hbody f w) as (w1 & -> & Hd1). destruct (IH w1) as (w2 & -> & Hd2).
    exists w2. split; [done|].
    change (omap strconv.Atoi (f :: fields))
      with (match strconv.Atoi f with
            | Some pid => pid :: omap strconv.Atoi fields
            | None => omap strconv.Atoi fields
            end).
    assert (omap strconv.Atoi fields ≫= step w1 = omap strconv.Atoi fields ≫= step w) as Hsame.
    { apply list_bind_ext; [|done]. intros pid. apply Hstep; apply Hd1. }
    rewrite Hsame in Hd2.
    destruct (strconv.Atoi f) as [pid|].
    + rewrite bind_cons. by eapply did_then.
    + by eapply (did_then _ _ _ []).
Qed.

Lemma Run_spec argv w :
  ∃ w', exec.Run argv w = (Ok (default (Ran 0 0 [] ∅) (head (execs w))), w')
        ∧ spec.did w w' [EvExec argv].
Proof.
  unfold exec.Run, exec.spawn, bind, emit, get, modify, ret. cbn [fst snd execs with_trace].
  destruct (default _ (head (execs w))); eexists; (split; [done|]);
    unfold spec.did; cbn; by destruct (execs w).
Qed.

Lemma Sleep_spec seconds w :
  ∃ w', time.Sleep seconds w = (Ok (), w') ∧ spec.did w w' [EvSleep seconds].
Proof. unfold time.Sleep, bind, emit, get, modify. by eexists. Qed.

Lemma PrintInfo_spec msg w :
  ∃ w', ui.PrintInfo msg w = (Ok (), w') ∧ spec.did w w' [EvInfo msg].
Proof. by eexists. Qed.

Lemma PrintWarn_spec msg w :
  ∃ w', ui.PrintWarn msg w = (Ok (), w') ∧ spec.did w w' [EvWarn msg].
Proof. by eexists. Qed.

Lemma KillAll_run w pid1 out1 files1 second rest :
  execs w = Ran pid1 0 out1 files1 :: second :: rest →
  strings.Fields out1 ≠ [] →
  ∃ w', server.KillAll w = (Ok (), w')
        ∧ spec.newEvents w w' = spec.killAllEvents w out1 second.
Proof.
  intros Hexecs Hfields. unfold server.KillAll.
  unfold bind at 1. destruct (Run_spec server.pgrepAll w) as (w1 & -> & Hd1).
  rewrite Hexecs. cbn [head default from_option id].
  change (0 =? 1) with false. change (negb (0 =? 0)) with false. cbv iota.
  destruct (strings.Fields out1) as [|f fields] eqn:Hf; [done|]. rewrite <- Hf. clear Hf.
  unfold bind at 1. destruct (PrintInfo_spec (lit "Killing all llama-server processes...") w1)
    as (w2 & -> & Hd2).
  pose proof (did_then _ _ _ _ _ Hd1 Hd2) as Hd12. clear Hd1 Hd2.
  unfold bind at 1.
  destruct (round_run server.terminate spec.graceful (strings.Fields out1)
              graceful_same terminate_run w2) as (w3 & -> & Hd3).
  assert (omap strconv.Atoi (strings.Fields out1) ≫= spec.graceful w2
          = spec.discovered out1 ≫= spec.graceful w) as Hsame.
  { apply list_bind_ext; [|done]. intros pid. apply graceful_same; apply Hd12. }
  rewrite Hsame in Hd3. clear Hsame.
  pose proof (did_then _ _ _ _ _ Hd12 Hd3) as Hd123. clear Hd12 Hd3.
  unfold bind at 1. destruct (Sleep_spec 2 w3) as (w4 & -> & Hd4).
  pose proof (did_then _ _ _ _ _ Hd123 Hd4) as Hd1234. clear Hd123 Hd4.
  unfold bind at 1. unfold bind at 1.
  destruct (Run_spec server.pgrepAll w4) as (w5 & -> & Hd5).
  assert (default (Ran 0 0 [] ∅) (head (execs w4)) = second) as ->.
  { destruct Hd1234 as (_ & -> & _). rewrite Hexecs.
    unfold spec.spawns. rewrite !omap_app, !length_app.
    assert (∀ pids, omap (λ e, match e with EvExec argv => Some argv | _ => None end)
                      (pids ≫= spec.graceful w) = []) as ->.
    { induction pids as [|pid pids IH]; [done|]. rewrite bind_cons, omap_app, IH.
      unfold spec.graceful, spec.signalled.
      by destruct (findable w pid), (deliverable w pid SIGTERM). }
    done. }
  pose proof (did_then _ _ _ _ _ Hd1234 Hd5) as Hd. clear Hd1234 Hd5.
  assert (∃ w6, match second with
                | NotStarted _ => ret ()
                | Ran _ code' output' _ =>
                    if (code' =? 0) && (0 <? length output')%nat
                    then ui.PrintWarn
                           (lit "Some processes didn't terminate cleanly. Force killing...");;
                         forEach (strings.Fields output') server.forceKill
                    else ret ()
                end w5 = (Ok (), w6)
                ∧ spec.did w5 w6
                    match spec.survivors second with
                    | Some out2 =>
                        EvWarn (lit "Some processes didn't terminate cleanly. Force killing...")
                        :: (spec.discovered out2 ≫= spec.forceful w)
                    | None => []
                    end) as (w6 & -> & Hd6).
  { unfold spec.survivors. destruct second as [err|pid2 code2 out2 files2].
    - exists w5. split; [done|apply did_nothing].
    - destruct ((code2 =? 0) && (0 <? length out2)%nat).
      + unfold bind.
        destruct (PrintWarn_spec
                    (lit "Some processes didn't terminate cleanly. Force killing...") w5)
          as (w6 & -> & Hd6).
        destruct (round_run server.forceKill spec.forceful (strings.Fields out2)
                    forceful_same forceKill_run w6) as (w7 & -> & Hd7).
        exists w7. split; [done|].
        assert (omap strconv.Atoi (strings.Fields out2) ≫= spec.forceful w6
                = spec.discovered out2 ≫= spec.forceful w) as Hsame.
        { apply list_bind_ext; [|done]. intros pid. apply forceful_same.
          - destruct Hd6 as (_ & _ & -> & _). apply Hd.
          - destruct Hd6 as (_ & _ & _ & ->). apply Hd. }
        rewrite Hsame in Hd7. by eapply (did_then _ _ _ [_]).
      + exists w5. split; [done|apply did_nothing]. }
  pose proof (did_then _ _ _ _ _ Hd Hd6) as Hd'. clear Hd Hd6.
  destruct (PrintInfo_spec (lit "All llama-server processes terminated.") w6)
    as (w7 & -> & Hd7).
  pose proof (did_then _ _ _ _ _ Hd' Hd7) as Hall.
  exists w7. split; [done|]. apply newEvents_app.
  destruct Hall as (-> & _). unfold spec.killAllEvents. by rewrite <- !app_assoc.
Qed.

Lemma graceful_signal w pid pids :
  EvSignal pid SIGTERM ∈ pids ≫= spec.graceful w ↔ pid ∈ pids ∧ findable w pid = None.
Proof.
  rewrite list_elem_of_bind. unfold spec.graceful, spec.signalled. split.
  - intros (p & Hin & Hp). destruct (findable w p) eqn:Hf.
    + by apply list_elem_of_singleton in Hin.
    + apply elem_of_cons in Hin as [[= ->]|Hin]; [done|].
      destruct (deliverable w p SIGTERM); [|by apply elem_of_nil in Hin].
      by apply list_elem_of_singleton in Hin.
  - intros [Hin Hf]. exists pid. rewrite Hf. split; [left|done].
Qed.

Lemma forceful_signal w pid pids :
  EvSignal pid SIGKILL ∈ pids ≫= spec.forceful w ↔ pid ∈ pids ∧ findable w pid = None.
Proof.
  rewrite list_elem_of_bind. unfold spec.forceful, spec.signalled. split.
  - intros (p & Hin & Hp). destruct (findable w p) eqn:Hf.
    + by apply elem_of_nil in Hin.
    + apply elem_of_cons in Hin as [[= ->]|Hin]; [done|].
      destruct (deliverable w p SIGKILL); [|by apply elem_of_nil in Hin].
      by apply list_elem_of_singleton in Hin.
  - intros [Hin Hf]. exists pid. rewrite Hf. split; [left|done].
Qed.

Lemma graceful_no_kill w pid pids : EvSignal pid SIGKILL ∉ pids ≫= spec.graceful w.
Proof.
  rewrite list_elem_of_bind. unfold spec.graceful, spec.signalled.
  intros (p & Hin & _). destruct (findable w p).
  - by apply list_elem_of_singleton in Hin.
  - apply elem_of_cons in Hin as [[=]|Hin].
    destruct (deliverable w p SIGTERM); [|by apply elem_of_nil in Hin].
    by apply list_elem_of_singleton in Hin.
Qed.

Lemma signalled_reported w pid sig err (step : World → Z → list Event) pids :
  (∀ p, step w p = [] ∨ step w p = spec.signalled w p sig
        ∨ ∃ msg, step w p = [EvWarn msg]) →
  EvSignal pid sig ∈ pids ≫= step w → deliverable w pid sig = Some err →
  spec.signalFailure pid sig err ∈ pids ≫= step w.
Proof.
  intros Hstep Hin Herr. apply list_elem_of_bind in Hin as (p & Hin & Hp).
  apply list_elem_of_bind. exists p. split; [|done].
  destruct (Hstep p) as [H|[H|[msg H]]]; rewrite H in Hin |- *.
  - by apply elem_of_nil in Hin.
  - unfold spec.signalled in *. apply elem_of_cons in Hin as [[= ->]|Hin].
    + rewrite Herr. right. left.
    + destruct (deliverable w p sig); [|by apply elem_of_nil in Hin].
      by apply list_elem_of_singleton in Hin.
  - by apply list_elem_of_singleton in Hin.
Qed.

(** C9: when the first scan finds processes, [KillAll] succeeds, and in
    its run: every PID of the first scan that the system can find is sent
    [SIGTERM] before the pause of two seconds; the pause comes before the
    second scan; [SIGKILL] goes only to PIDs that the second scan printed,
    and after that scan; a PID printed by both scans gets [SIGTERM] and then
    [SIGKILL]; and every signal that could not be delivered is reported. *)
Theorem KillAll_graceful_then_forceful w pid1 out1 files1 second rest :
  execs w = Ran pid1 0 out1 files1 :: second :: rest →
  strings.Fields out1 ≠ [] →
  let r := fst (server.KillAll w) in
  let events := spec.newEvents w (snd (server.KillAll w)) in
  r = Ok ()
  ∧ (∀ pid, pid ∈ spec.discovered out1 → findable w pid = None →
       spec.precedes (EvSignal pid SIGTERM) spec.gracePeriod events)
  ∧ spec.precedes spec.gracePeriod spec.scan events
  ∧ (∀ pid, EvSignal pid SIGKILL ∈ events →
       ∃ out2, spec.survivors second = Some out2 ∧ pid ∈ spec.discovered out2
               ∧ spec.precedes spec.scan (EvSignal pid SIGKILL)
                   (drop 1 events))
  ∧ (∀ pid out2, spec.survivors second = Some out2 →
       pid ∈ spec.discovered out1 → pid ∈ spec.discovered out2 →
       findable w pid = None →
       spec.precedes (EvSignal pid SIGTERM) (EvSignal pid SIGKILL) events)
  ∧ (∀ pid sig err, EvSignal pid sig ∈ events → deliverable w pid sig = Some err →
       spec.signalFailure pid sig err ∈ events).
Proof.
  intros Hexecs Hfields r events. subst r events.
  destruct (KillAll_run w pid1 out1 files1 second rest Hexecs Hfields) as (w' & Hrun & Hev).
  rewrite Hrun. cbn [fst snd]. rewrite Hev. unfold spec.killAllEvents.
  set (G := spec.discovered out1 ≫= spec.graceful w).
  set (K := match spec.survivors second with Some _ => _ | None => _ end).
  assert (HK : ∀ pid, EvSignal pid SIGKILL ∈ K →
            ∃ out2, spec.survivors second = Some out2 ∧ pid ∈ spec.discovered out2
                    ∧ findable w pid = None).
  { intros pid Hin. subst K. destruct (spec.survivors second) as [out2|].
    - apply elem_of_cons in Hin as [[=]|Hin].
      apply forceful_signal in Hin as [? ?]. eauto.
    - by apply elem_of_nil in Hin. }
  split; [done|]. split; [|split; [|split; [|split]]].
  - intros pid Hin Hf. apply precedes_app_r, precedes_app.
    + by apply graceful_signal.
    + left.
  - apply precedes_app_r, precedes_app_r. exists 0%nat, 1%nat. repeat split; [lia|done..].
  - intros pid Hin.
    apply elem_of_cons in Hin as [[=]|Hin]. apply elem_of_cons in Hin as [[=]|Hin].
    apply elem_of_app in Hin as [Hin|Hin]; [by apply graceful_no_kill in Hin|].
    apply elem_of_cons in Hin as [[=]|Hin]. apply elem_of_cons in Hin as [[=]|Hin].
    apply elem_of_app in Hin as [Hin|Hin]; [|by apply list_elem_of_singleton in Hin].
    destruct (HK pid Hin) as (out2 & Hs & Hd & _). exists out2. split; [done|]. split; [done|].
    cbn [app drop].
    change (?e :: G ++ ?l) with ((e :: G) ++ l). apply precedes_app_r.
    change (spec.gracePeriod :: spec.scan :: ?l) with ([spec.gracePeriod; spec.scan] ++ l).
    apply precedes_app.
    + right. left.
    + apply elem_of_app. by left.
  - intros pid out2 Hs Hin1 Hin2 Hf. apply precedes_app_r, precedes_app.
    + by apply graceful_signal.
    + right. right. apply elem_of_app. left. subst K. rewrite Hs. right.
      by apply forceful_signal.
  - intros pid sig err Hin Herr.
    apply elem_of_cons in Hin as [[=]|Hin]. apply elem_of_cons in Hin as [[=]|Hin].
    right. right.
    apply elem_of_app in Hin as [Hin|Hin].
    + apply elem_of_app. left. subst G.
      destruct sig; [|by apply graceful_no_kill in Hin].
      apply (signalled_reported w pid SIGTERM err spec.graceful); try done.
      intros p. unfold spec.graceful. destruct (findable w p); eauto.
    + apply elem_of_app. right.
      apply elem_of_cons in Hin as [[=]|Hin]. apply elem_of_cons in Hin as [[=]|Hin].
      right. right.
      apply elem_of_app in Hin as [Hin|Hin]; [|by apply list_elem_of_singleton in Hin].
      apply elem_of_app. left. subst K.
      destruct (spec.survivors second) as [out2|]; [|by apply elem_of_nil in Hin].
      apply elem_of_cons in Hin as [[=]|Hin]. right.
      destruct sig.
      * exfalso. apply list_elem_of_bind in Hin as (p & Hin & _).
        unfold spec.forceful, spec.signalled in Hin.
        destruct (findable w p); [by apply elem_of_nil in Hin|].
        apply elem_of_cons in Hin as [[=]|Hin].
        destruct (deliverable w p SIGKILL); [|by apply elem_of_nil in Hin].
        by apply list_elem_of_singleton in Hin.
      * apply (signalled_reported w pid SIGKILL err spec.forceful); try done.
        intros p. unfold spec.forceful. destruct (findable w p); eauto.
Qed.

(** ** The chat stream *)

Lemma streamLine_nothing line acc w :
  spec.carriesNothing line → server.streamLine acc line w = (Ok acc, w).
Proof.
  unfold server.streamLine. intros [Hp|[err He]].
  - by rewrite Hp.
  - rewrite He. by destruct (strings.HasPrefix _ _).
Qed.

(** A line that carries nothing is as good as absent, wherever it stands. *)
Lemma scanLines_skip pre line post : ∀ acc w,
  spec.carriesNothing line →
  server.scanLines (pre ++ line :: post) acc w = server.scanLines (pre ++ post) acc w.
Proof.
  induction pre as [|l pre IH]; intros acc w Hn; cbn [app server.scanLines]; unfold bind.
  - by rewrite streamLine_nothing.
  - destruct (server.streamLine acc l w) as [[acc'|e] w1]; [|done]. by apply IH.
Qed.

Lemma streamLine_Hi acc w :
  server.streamLine acc (spec.contentLine (lit "Hi")) w
  = (Ok (acc ++ lit "Hi"), with_trace (trace w ++ [EvStdout (lit "Hi")]) w).
Proof.
  unfold server.streamLine.
  assert (strings.HasPrefix (spec.contentLine (lit "Hi")) (lit "data: ") = true) as ->
    by (vm_compute; reflexivity).
  assert (json.Unmarshal (strings.TrimPrefix (spec.contentLine (lit "Hi")) (lit "data: "))
          = Ok [(lit "content", json.JString (lit "Hi"))]) as ->
    by (vm_compute; reflexivity).
  reflexivity.
Qed.

Lemma streamLine_there acc w :
  server.streamLine acc (spec.contentLine (lit " there")) w
  = (Ok (acc ++ lit " there"), with_trace (trace w ++ [EvStdout (lit " there")]) w).
Proof.
  unfold server.streamLine.
  assert (strings.HasPrefix (spec.contentLine (lit " there")) (lit "data: ") = true) as ->
    by (vm_compute; reflexivity).
  assert (json.Unmarshal (strings.TrimPrefix (spec.contentLine (lit " there")) (lit "data: "))
          = Ok [(lit "content", json.JString (lit " there"))]) as ->
    by (vm_compute; reflexivity).
  reflexivity.
Qed.

(** C7: when the server streams [data: {"content":"Hi"}], then
    [data: {"content":" there"}], then a line without the marker or with a
    malformed fragment, one turn of the chat prints [Hi] and [ there],
    appends the user's turn and exactly one assistant turn, [Hi there], to
    the transcript, and returns without error. Such a line is skipped
    wherever it stands in a stream: the scan with it equals the scan
    without it. *)
Theorem chatTurn_accumulates cfg chatHistory userInput w other rest :
  inference w
  = Response 200 [spec.contentLine (lit "Hi"); spec.contentLine (lit " there"); other] None
    :: rest →
  spec.carriesNothing other →
  fst (server.chatTurn cfg chatHistory userInput w)
  = Ok (chatHistory ++ [userInput; lit "Hi there"])
  ∧ spec.newEvents w (snd (server.chatTurn cfg chatHistory userInput w))
    = [spec.turnRequest cfg (chatHistory ++ [userInput]); EvStdout (lit "Assistant: ");
       EvStdout (lit "Hi"); EvStdout (lit " there"); EvStdout [10]]
  ∧ (∀ before after acc w0,
       server.scanLines (before ++ other :: after) acc w0
       = server.scanLines (before ++ after) acc w0).
Proof.
  intros Hinf Hother. split; [|split]; [| |intros; by apply scanLines_skip].
  - unfold server.chatTurn, server.roundTrip, bind, emit, get, modify, ret.
    cbn [fst snd inference with_trace]. rewrite Hinf.
    cbn [head default from_option id]. change (negb (200 =? 200)) with false. cbv iota.
    cbn [server.scanLines]. unfold bind. rewrite streamLine_Hi, streamLine_there.
    rewrite streamLine_nothing by done. cbn [fst]. unfold ret. cbn [fst].
    by rewrite <- app_assoc.
  - unfold server.chatTurn, server.roundTrip, bind, emit, get, modify, ret.
    cbn [fst snd inference with_trace]. rewrite Hinf.
    cbn [head default from_option id]. change (negb (200 =? 200)) with false. cbv iota.
    cbn [server.scanLines]. unfold bind. rewrite streamLine_Hi, streamLine_there.
    rewrite streamLine_nothing by done. unfold ret. cbn [fst snd].
    apply newEvents_app. cbn [trace with_trace with_inference].
    unfold spec.turnRequest. by rewrite <- !app_assoc.
Qed.

(** ** The slug of an identifier *)

(** C3: for [Qwen/Qwen2.5] the code answers [qwen-qwen2-5], where deleting
    the dot, as the specification and the comment in the code have it, gives
    [qwen-qwen25]. *)
Theorem generateSlug_replaces_where_the_spec_strips :
  model.generateSlug (lit "Qwen/Qwen2.5") = lit "qwen-qwen2-5"
  ∧ spec.slugByStripping (lit "Qwen/Qwen2.5") = lit "qwen-qwen25"
  ∧ model.generateSlug (lit "Qwen/Qwen2.5") ≠ spec.slugByStripping (lit "Qwen/Qwen2.5").
Proof.
  assert (model.generateSlug (lit "Qwen/Qwen2.5") = lit "qwen-qwen2-5") as Hcode.
  { rewrite generateSlug_one_pass. by vm_compute. }
  assert (spec.slugByStripping (lit "Qwen/Qwen2.5") = lit "qwen-qwen25") as Hspec
    by (by vm_compute).
  split; [exact Hcode|]. split; [exact Hspec|].
  rewrite Hcode, Hspec. intros H. by vm_compute in H.
Qed.

(** C4: the slug of a valid identifier is a function of the identifier
    alone ([generateSlug] reads no state), is lower-case, holds only
    [a-z0-9-] and neither starts nor ends with a hyphen. The same holds of
    every other identifier ([generateSlug_shape]). *)
Theorem generateSlug_of_valid_identifier modelID :
  model.validateModelID modelID = true →
  (∀ other, other = modelID → model.generateSlug other = model.generateSlug modelID)
  ∧ strings.ToLower (model.generateSlug modelID) = model.generateSlug modelID
  ∧ Forall (λ r, spec.slugRune r = true) (model.generateSlug modelID)
  ∧ head (model.generateSlug modelID) ≠ Some (chr "-")
  ∧ last (model.generateSlug modelID) ≠ Some (chr "-").
Proof.
  intros _. destruct (generateSlug_shape modelID) as (Hrunes & Hlower & Hhead & Hlast).
  split; [by intros other ->|]. done.
Qed.

(** A valid identifier with capitals and dots. *)
Lemma generateSlug_of_valid_identifier_witness :
  model.validateModelID (lit "bartowski/Qwen2.5-Math-1.5B-Instruct-GGUF") = true
  ∧ strings.ToLower (model.generateSlug (lit "bartowski/Qwen2.5-Math-1.5B-Instruct-GGUF"))
    = model.generateSlug (lit "bartowski/Qwen2.5-Math-1.5B-Instruct-GGUF")
  ∧ last (model.generateSlug (lit "bartowski/Qwen2.5-Math-1.5B-Instruct-GGUF"))
    ≠ Some (chr "-").
Proof.
  assert (model.validateModelID (lit "bartowski/Qwen2.5-Math-1.5B-Instruct-GGUF") = true)
    as Hv by (vm_compute; reflexivity).
  split; [exact Hv|].
  destruct (generateSlug_of_valid_identifier _ Hv) as (_ & Hlower & _ & _ & Hlast).
  split; [exact Hlower|exact Hlast].
Defined.

(** ** The program at work *)

(** C1 (as the specification has it) fails: when the database fails after
    the file is gone, [Remove] returns the error and leaves the record of
    the model behind with no file: an orphaned record, which was none
    before. *)
Lemma Remove_partial_failure_orphans_record :
  ¬ spec.orphanedRecord examples.flaky examples.tiny
  ∧ fst (model.Remove examples.cfg (lit "qwen-tiny") examples.flaky)
    = Err (wrapf "deleting model" (lit "disk I/O error"))
  ∧ spec.orphanedRecord
      (snd (model.Remove examples.cfg (lit "qwen-tiny") examples.flaky)) examples.tiny.
Proof.
  split; [|split].
  - intros [_ H]. by vm_compute in H.
  - by vm_compute.
  - split.
    + vm_compute. left.
    + by vm_compute.
Qed.

(** The theorem at work on the failing run: the table is as it was. *)
Lemma Remove_file_first_witness :
  spec.slugsUnique (models examples.flaky)
  ∧ models (snd (model.Remove examples.cfg (lit "qwen-tiny") examples.flaky))
    = models examples.flaky.
Proof.
  assert (spec.slugsUnique (models examples.flaky)) as Hu.
  { unfold spec.slugsUnique. refine (bool_decide_unpack _ _). by vm_compute. }
  split; [exact Hu|].
  exact (proj1 (proj2 (Remove_file_first_record_second examples.cfg (lit "qwen-tiny")
                         examples.flaky Hu))
           (wrapf "deleting model" (lit "disk I/O error")) eq_refl).
Defined.

(** C2 (as the specification has it) fails: both segments of [a.b/c] use
    only letters and a dot, yet [Pull] rejects it, because the author
    segment may hold no dot. *)
Lemma Pull_rejects_dotted_author :
  spec.dottedID (lit "a.b/c")
  ∧ spec.rejected examples.cfg (lit "a.b/c") examples.quiet
  ∧ ¬ spec.proceeds examples.cfg (lit "a.b/c") examples.quiet.
Proof.
  split; [|split].
  - exists (lit "a.b"), (lit "c"). repeat split; try done; by repeat constructor.
  - reflexivity.
  - apply rejected_not_proceeds. reflexivity.
Qed.

(** An alias onto a slug in use keeps the slugs apart. *)
Lemma slug_unique_invariant_witness :
  spec.slugsUnique (models examples.stocked)
  ∧ spec.slugsUnique
      (models (snd (spec.perform (spec.OpAlias (lit "phi") (lit "qwen-tiny"))
                      examples.stocked))).
Proof.
  assert (spec.slugsUnique (models examples.stocked)) as Hu.
  { unfold spec.slugsUnique. refine (bool_decide_unpack _ _). by vm_compute. }
  split; [exact Hu|].
  exact (proj1 slug_unique_invariant (spec.OpAlias (lit "phi") (lit "qwen-tiny"))
           examples.stocked Hu).
Defined.

(** C6 (as the specification has it) fails: the walk meets an unreadable
    path, [ImportExisting] returns the error, and the model file further
    on, which calls for a record, is never imported. *)
Lemma ImportExisting_stops_at_unreadable_path :
  examples.model_file ∈ tree examples.obstructed
  ∧ is_Some (spec.recordFor examples.cfg examples.model_file)
  ∧ fst (model.ImportExisting examples.cfg examples.obstructed)
    = Err (wrapf "walking models directory" (lit "lstat lost+found: permission denied"))
  ∧ spec.statements
      (spec.newEvents examples.obstructed
         (snd (model.ImportExisting examples.cfg examples.obstructed))) = [].
Proof.
  split; [|split; [|split]].
  - apply list_elem_of_lookup. by exists 5%nat.
  - vm_compute. eexists. reflexivity.
  - by vm_compute.
  - by vm_compute.
Qed.

(** The third line of the stream breaks off in the middle of the object. *)
Lemma chatTurn_accumulates_witness :
  spec.carriesNothing examples.truncated
  ∧ fst (server.chatTurn examples.cfg [] (lit "hello") examples.streaming)
    = Ok [lit "hello"; lit "Hi there"].
Proof.
  assert (spec.carriesNothing examples.truncated) as Hn.
  { right. eexists. vm_compute. reflexivity. }
  split; [exact Hn|].
  exact (proj1 (chatTurn_accumulates examples.cfg [] (lit "hello") examples.streaming
                  examples.truncated [] eq_refl Hn)).
Defined.

(** Two refused connections and two answers 503, then 200: ready at the
    fifth check. *)
Lemma WaitForServer_polls_witness :
  fst (server.WaitForServer 1966 300 examples.warming) = Ok ()
  ∧ spec.checks (spec.newEvents examples.warming
                   (snd (server.WaitForServer 1966 300 examples.warming))) = 5%nat.
Proof.
  destruct (proj1 (WaitForServer_polls 1966 examples.warming)
              [NoConnection (lit "connection refused");
               NoConnection (lit "connection refused");
               Response 503 [] None; Response 503 [] None]
              (Response 200 [] None) [] eq_refl)
    as (Hr & _ & Hc & _).
  - simpl. lia.
  - repeat constructor.
  - reflexivity.
  - split; [exact Hr|exact Hc].
Defined.

(** Process 4711 outlives [SIGTERM] and is killed; the failure to signal
    4712 is reported, and the operation succeeds. *)
Lemma KillAll_witness :
  fst (server.KillAll examples.stubborn) = Ok ()
  ∧ spec.precedes (EvSignal 4711 SIGTERM) (EvSignal 4711 SIGKILL)
      (spec.newEvents examples.stubborn (snd (server.KillAll examples.stubborn)))
  ∧ spec.signalFailure 4712 SIGTERM (lit "operation not permitted")
    ∈ spec.newEvents examples.stubborn (snd (server.KillAll examples.stubborn)).
Proof.
  assert (strings.Fields (lit "4711 4712 ") ≠ []) as Hf by (by vm_compute).
  destruct (KillAll_graceful_then_forceful examples.stubborn 900 (lit "4711 4712 ") ∅
              (Ran 901 0 (lit "4711 ") ∅) [] eq_refl Hf)
    as (Hr & _ & _ & _ & Hboth & Hrep).
  split; [exact Hr|]. split.
  - apply (Hboth 4711 (lit "4711 ")); try reflexivity.
    + refine (bool_decide_unpack _ _). by vm_compute.
    + refine (bool_decide_unpack _ _). by vm_compute.
  - apply Hrep; [|reflexivity].
    apply list_elem_of_lookup. exists 3%nat. by vm_compute.
Defined.

(** Renaming [phi] to the slug of another model. *)
Lemma Alias_onto_existing_slug_witness :
  spec.hasRecord (lit "qwen-tiny") examples.stocked
  ∧ fst (model.Alias (lit "phi") (lit "qwen-tiny") examples.stocked)
    = Err (model.alreadyExists (lit "qwen-tiny"))
  ∧ models (snd (model.Alias (lit "phi") (lit "qwen-tiny") examples.stocked))
    = models examples.stocked.
Proof.
  assert (spec.hasRecord (lit "qwen-tiny") examples.stocked) as Hnew.
  { exists examples.tiny. split; [left|reflexivity]. }
  assert (spec.hasRecord (lit "phi") examples.stocked) as Hold.
  { exists examples.phi. split; [right; left|reflexivity]. }
  destruct (Alias_onto_existing_slug (lit "phi") (lit "qwen-tiny") examples.stocked Hnew)
    as [Hsame Herr].
  split; [exact Hnew|]. split; [exact (Herr Hold eq_refl)|exact Hsame].
Defined.

(** * More of the program *)

(** ** The store: what a caller reads back *)

Lemma under_app slug l k : spec.under slug (l ++ k) = spec.under slug l ++ spec.under slug k.
Proof. apply filter_app. Qed.

Lemma others_app slug l k :
  spec.others slug (l ++ k) = spec.others slug l ++ spec.others slug k.
Proof. apply filter_app. Qed.

Lemma under_others slug rows : spec.under slug (spec.others slug rows) = [].
Proof.
  unfold spec.under, spec.others. induction rows as [|m rows IH]; [done|].
  rewrite filter_cons. destruct (decide (Slug m ≠ slug)) as [Hne|]; [|done].
  rewrite filter_cons. by rewrite decide_False.
Qed.

Lemma others_others slug rows : spec.others slug (spec.others slug rows) = spec.others slug rows.
Proof.
  unfold spec.others. induction rows as [|m rows IH]; [done|].
  rewrite filter_cons. destruct (decide (Slug m ≠ slug)) as [Hne|]; [|done].
  rewrite filter_cons. rewrite decide_True by done. by rewrite IH.
Qed.

Lemma under_nil_absent slug w : spec.under slug (models w) = [] ↔ ¬ spec.hasRecord slug w.
Proof.
  unfold spec.hasRecord. rewrite filter_slug_nonempty. unfold spec.under.
  destruct (filter _ (models w)) as [|m l]; split; try done.
  - intros _ H. by apply H.
  - intros H. exfalso. by apply H.
Qed.

Lemma nextRowid_above rows m : m ∈ rows → ID m < db.nextRowid rows.
Proof.
  unfold db.nextRowid. induction rows as [|x rows IH]; [by intros ?%elem_of_nil|].
  intros [->|Hin]%elem_of_cons; simpl; [lia|]. specialize (IH Hin). lia.
Qed.

(** [AddModel], then [GetModelBySlug]: the caller reads back what it
    stored. *)
Theorem AddModel_then_GetModelBySlug slug modelID fileName filePath fileSize w :
  dbFaults w = [] →
  fst (db.AddModel slug modelID fileName filePath fileSize w) = Ok ()
  ∧ ∃ m, fst (db.GetModelBySlug slug
                (snd (db.AddModel slug modelID fileName filePath fileSize w))) = Ok m
         ∧ spec.holds m slug modelID fileName filePath fileSize
         ∧ CreatedAt m = now w.
Proof.
  intros Hf. rewrite AddModel_unfold, Hf. cbn [nextFault fst snd]. split; [done|].
  rewrite GetModelBySlug_unfold. cbn [dbFaults with_models spec.sent with_dbFaults nextFault
    fst snd models with_trace].
  change (filter (λ m, Slug m = slug) ?l) with (spec.under slug l).
  change (filter (λ m, Slug m ≠ slug) ?l) with (spec.others slug l).
  rewrite under_app, under_others. cbn [app]. unfold spec.under. rewrite filter_cons.
  cbn [Slug]. rewrite decide_True by done. rewrite Hf. cbn [nextFault fst snd].
  eexists. split; [done|]. by repeat split.
Qed.

(** [AddModel] is an upsert: the records under other slugs stay as they
    are and in their order; under the slug there is afterwards one record,
    the new one, with an id above all earlier ones: a record that was
    there, with its time of use, is gone. A call that fails changes
    nothing. *)
Theorem AddModel_upsert slug modelID fileName filePath fileSize w :
  let r := fst (db.AddModel slug modelID fileName filePath fileSize w) in
  let w' := snd (db.AddModel slug modelID fileName filePath fileSize w) in
  (r = Ok () →
   spec.others slug (models w') = spec.others slug (models w)
   ∧ ∃ m, spec.under slug (models w') = [m]
          ∧ spec.holds m slug modelID fileName filePath fileSize
          ∧ ∀ m0, m0 ∈ models w → ID m0 < ID m)
  ∧ (∀ e, r = Err e → models w' = models w).
Proof.
  intros r w'. subst r w'. rewrite AddModel_unfold.
  destruct (fst (nextFault (dbFaults w))) as [err|]; cbn [fst snd]; split; try done.
  intros _. cbn [models with_models].
  change (filter (λ m, Slug m ≠ slug) ?l) with (spec.others slug l).
  rewrite others_app, under_app, others_others, under_others. split.
  - unfold spec.others at 2. rewrite filter_cons. cbn [Slug].
    rewrite decide_False by (intros H; by apply H). by rewrite filter_nil, app_nil_r.
  - eexists. split.
    + unfold spec.under. rewrite filter_cons. cbn [Slug]. by rewrite decide_True.
    + split; [by repeat split|]. intros m0 Hm0. cbn [ID]. by apply nextRowid_above.
Qed.

Lemma hasRecord_sent slug q w : spec.hasRecord slug (spec.sent q w) ↔ spec.hasRecord slug w.
Proof. done. Qed.

Lemma under_length_zero slug w :
  Z.of_nat (length (filter (λ m, Slug m = slug) (models w))) = 0 ↔ ¬ spec.hasRecord slug w.
Proof.
  rewrite <- under_nil_absent. unfold spec.under.
  destruct (filter _ (models w)); simpl; split; try done; lia.
Qed.

Lemma hasRecord_stable slug w : ¬ ¬ spec.hasRecord slug w → spec.hasRecord slug w.
Proof.
  unfold spec.hasRecord. rewrite filter_slug_nonempty.
  destruct (filter _ (models w)); [|done].
  intros H. exfalso. apply H. intros H'. by apply H'.
Qed.

(** [RemoveModel], then [GetModelBySlug]: the slug is not found. The
    records under other slugs stay; a slug that is not in the table is
    an error; a call that fails changes nothing. *)
Theorem RemoveModel_then_GetModelBySlug slug w :
  let r := fst (db.RemoveModel slug w) in
  let w' := snd (db.RemoveModel slug w) in
  (r = Ok () →
   spec.hasRecord slug w ∧ ¬ spec.hasRecord slug w'
   ∧ spec.others slug (models w') = spec.others slug (models w)
   ∧ (dbFaults w' = [] → fst (db.GetModelBySlug slug w') = Err (db.notFound slug)))
  ∧ (∀ e, r = Err e → models w' = models w)
  ∧ (dbFaults w = [] → ¬ spec.hasRecord slug w → r = Err (db.noneFound slug)).
Proof.
  intros r w'. subst r w'. unfold db.RemoveModel, bind, wrapping. rewrite Exec_unfold.
  destruct (fst (nextFault (dbFaults w))) as [err|] eqn:Hfault.
  { cbn [fst snd]. split; [done|]. split; [done|]. intros Hf. by rewrite Hf in Hfault. }
  cbn [db.run db.rowsAffected fst snd].
  destruct (Z.eqb_spec (Z.of_nat (length (filter (λ m, Slug m = slug) (models w)))) 0)
    as [Hz|Hz]; rewrite under_length_zero in Hz; cbn [fst snd raise ret].
  - split; [done|]. split; [|done]. intros e _. cbn [models with_models].
    apply under_nil_absent in Hz. unfold spec.under in Hz.
    induction (models w) as [|m rows IH]; [done|].
    rewrite filter_cons in Hz |- *. destruct (decide (Slug m = slug)); [done|].
    rewrite decide_True by done. f_equal. by apply IH.
  - split; [|done]. intros _.
    assert (¬ spec.hasRecord slug
              (with_models (filter (λ m, Slug m ≠ slug) (models w))
                 (spec.sent (DeleteBySlug slug) w))) as Hgone.
    { apply under_nil_absent. cbn [models with_models]. apply under_others. }
    split; [by apply hasRecord_stable|].
    split; [done|]. split; [apply others_others|].
    intros Hf. rewrite GetModelBySlug_unfold, Hf. cbn [nextFault fst].
    apply under_nil_absent in Hgone. unfold spec.under in Hgone. by rewrite Hgone.
Qed.

(** [UpdateModelLastUsed] stamps the records under the slug with the
    time of the call and changes nothing else: no other record, and no
    other column. A slug that is not in the table is an error. *)
Theorem UpdateModelLastUsed_stamps slug w :
  let r := fst (db.UpdateModelLastUsed slug w) in
  let w' := snd (db.UpdateModelLastUsed slug w) in
  (r = Ok () →
   spec.hasRecord slug w
   ∧ Forall (λ m, LastUsed m = Some (now w)) (spec.under slug (models w'))
   ∧ spec.others slug (models w') = spec.others slug (models w)
   ∧ Forall2 spec.sameButUse (models w) (models w'))
  ∧ (∀ e, r = Err e → models w' = models w)
  ∧ (dbFaults w = [] → ¬ spec.hasRecord slug w → r = Err (db.noneFound slug)).
Proof.
  intros r w'. subst r w'. unfold db.UpdateModelLastUsed, bind, wrapping. rewrite Exec_unfold.
  destruct (fst (nextFault (dbFaults w))) as [err|] eqn:Hfault.
  { cbn [fst snd]. split; [done|]. split; [done|]. intros Hf. by rewrite Hf in Hfault. }
  cbn [db.run db.rowsAffected fst snd].
  destruct (Z.eqb_spec (Z.of_nat (length (filter (λ m, Slug m = slug) (models w)))) 0)
    as [Hz|Hz]; rewrite under_length_zero in Hz; cbn [fst snd raise ret].
  - split; [done|]. split; [|done]. intros e _. cbn [models with_models].
    apply under_nil_absent in Hz. unfold spec.under in Hz.
    induction (models w) as [|m rows IH]; [done|].
    rewrite filter_cons in Hz. rewrite fmap_cons.
    destruct (decide (Slug m = slug)); [done|]. f_equal. by apply IH.
  - split; [|done]. intros _.
    split; [by apply hasRecord_stable|].
    cbn [models with_models]. clear Hz Hfault.
    induction (models w) as [|m rows (IH1 & IH2 & IH3)]; [by repeat split|].
    rewrite fmap_cons. unfold spec.under, spec.others in *. rewrite !filter_cons.
    destruct (decide (Slug m = slug)) as [Hs|Hs]; cbn [Slug db.setLastUsed].
    + rewrite decide_True by done. rewrite !decide_False by (intros H; by apply H).
      split; [by constructor|]. split; [done|]. constructor; [by repeat split|done].
    + rewrite decide_False by done. rewrite !decide_True by done.
      split; [done|]. split; [by f_equal|]. constructor; [by repeat split|done].
Qed.

(** ** Slugs: idempotent, and blind to case *)

Lemma TrimLeftFunc_fixed f s :
  (∀ r, head s = Some r → f r = false) → strings.TrimLeftFunc f s = s.
Proof. destruct s as [|r s]; [done|]. intros H. simpl. by rewrite (H r). Qed.

Lemma TrimRightFunc_fixed f s :
  (∀ r, last s = Some r → f r = false) → strings.TrimRightFunc f s = s.
Proof.
  intros H. unfold strings.TrimRightFunc. rewrite TrimLeftFunc_fixed.
  - apply reverse_involutive.
  - intros r Hr. apply H. by rewrite <- head_reverse.
Qed.

Lemma Trim_fixed s cutset :
  (∀ r, head s = Some r → r ∉ cutset) → (∀ r, last s = Some r → r ∉ cutset) →
  strings.Trim s cutset = s.
Proof.
  intros Hh Hl. unfold strings.Trim. rewrite TrimLeftFunc_fixed, TrimRightFunc_fixed; [done|..].
  - intros r Hr. apply bool_decide_eq_false. by apply Hl.
  - intros r Hr. apply bool_decide_eq_false. by apply Hh.
Qed.

Lemma slugRuneOf_fixed r : spec.slugRune r = true → spec.slugRuneOf r = r.
Proof.
  intros H. unfold spec.slugRuneOf. cbv zeta. rewrite (slugRune_lower r H). by rewrite H.
Qed.

Lemma slugRuneOf_fixed_all s :
  Forall (λ r, spec.slugRune r = true) s → spec.slugRuneOf <$> s = s.
Proof.
  induction 1 as [|r s Hr _ IH]; [done|].
  rewrite fmap_cons, IH. f_equal. by apply slugRuneOf_fixed.
Qed.


(** The slug of a slug is the slug itself. *)
Theorem generateSlug_idempotent modelID :
  model.generateSlug (model.generateSlug modelID) = model.generateSlug modelID.
Proof.
  destruct (generateSlug_shape modelID) as (Hrunes & _ & Hhead & Hlast).
  rewrite (generateSlug_one_pass (model.generateSlug modelID)).
  rewrite (slugRuneOf_fixed_all _ Hrunes).
  apply Trim_fixed.
  - intros r Hr [->|[]%elem_of_nil]%elem_of_cons. by apply Hhead.
  - intros r Hr [->|[]%elem_of_nil]%elem_of_cons. by apply Hlast.
Qed.


Lemma under_nil_rows slug rows :
  Forall (λ x, Slug x ≠ slug) rows → spec.under slug rows = [].
Proof.
  unfold spec.under. induction 1 as [|x rows Hx _ IH]; [done|].
  rewrite filter_cons. by rewrite decide_False.
Qed.

(** ** Renaming a model *)

Section rename_facts.
Context (oldSlug newSlug : gostring).


Lemma rename_old m : Slug m = oldSlug → spec.renamed oldSlug newSlug m = db.setSlug newSlug m.
Proof. intros H. unfold spec.renamed. by rewrite decide_True. Qed.

Lemma rename_other m : Slug m ≠ oldSlug → spec.renamed oldSlug newSlug m = m.
Proof. intros H. unfold spec.renamed. by rewrite decide_False. Qed.

Lemma rename_untouched rows :
  Forall (λ x, Slug x ≠ oldSlug) rows → spec.renamed oldSlug newSlug <$> rows = rows.
Proof.
  induction 1 as [|x rows Hx _ IH]; [done|].
  by rewrite fmap_cons, IH, rename_other.
Qed.

Lemma rename_under_new rows m :
  spec.slugsUnique rows → m ∈ rows → Slug m = oldSlug →
  Forall (λ x, Slug x ≠ newSlug) rows →
  spec.under newSlug (spec.renamed oldSlug newSlug <$> rows) = [db.setSlug newSlug m].
Proof.
  unfold spec.slugsUnique, spec.under. intros Hu Hm Hs Hnew.
  induction rows as [|x rows IH]; [by apply elem_of_nil in Hm|].
  rewrite fmap_cons in Hu. apply NoDup_cons in Hu as [Hx Hu].
  apply Forall_cons in Hnew as [Hxn Hnew]. rewrite fmap_cons, filter_cons.
  apply elem_of_cons in Hm as [<-|Hm].
  - rewrite rename_old by done. cbn [Slug db.setSlug].
    rewrite decide_True by done. f_equal.
    rewrite rename_untouched.
    + apply under_nil_rows. exact Hnew.
    + apply Forall_forall. intros y Hy Hys. apply Hx. rewrite Hs, <- Hys.
      by apply list_elem_of_fmap_2.
  - assert (Slug x ≠ oldSlug) as Hxo.
    { intros Hxo. apply Hx. rewrite Hxo, <- Hs. by apply list_elem_of_fmap_2. }
    rewrite rename_other by done. rewrite decide_False by done.
    by apply IH.
Qed.

Lemma rename_under_old rows :
  oldSlug ≠ newSlug → spec.under oldSlug (spec.renamed oldSlug newSlug <$> rows) = [].
Proof.
  intros Hne. unfold spec.under. induction rows as [|x rows IH]; [done|].
  rewrite fmap_cons, filter_cons.
  destruct (decide (Slug x = oldSlug)) as [Hx|Hx].
  - rewrite rename_old by done. cbn [Slug db.setSlug]. by rewrite decide_False.
  - rewrite rename_other by done. by rewrite decide_False.
Qed.

Lemma rename_others rows :
  Forall (λ x, Slug x ≠ newSlug) rows →
  spec.others newSlug (spec.renamed oldSlug newSlug <$> rows) = spec.others oldSlug rows.
Proof.
  unfold spec.others. induction 1 as [|x rows Hx _ IH]; [done|].
  rewrite fmap_cons, !filter_cons, IH.
  destruct (decide (Slug x = oldSlug)) as [Hxo|Hxo].
  - rewrite rename_old by done. cbn [Slug db.setSlug].
    rewrite decide_False by (intros H; by apply H).
    by rewrite decide_False by (intros H; by apply H).
  - rewrite rename_other by done. by rewrite !decide_True.
Qed.

End rename_facts.

Lemma UpdateModelSlug_unfold oldSlug newSlug w :
  db.UpdateModelSlug oldSlug newSlug w =
  match fst (nextFault (dbFaults w)) with
  | Some err =>
      (Err (wrapf "updating model slug" err), spec.sent (UpdateSlug newSlug oldSlug) w)
  | None =>
      if decide (Exists (λ m, Slug m = newSlug ∧ Slug m ≠ oldSlug) (models w)
                 ∧ Exists (λ m, Slug m = oldSlug) (models w))
      then (Err (wrapf "updating model slug" (lit "UNIQUE constraint failed: models.slug")),
            spec.sent (UpdateSlug newSlug oldSlug) w)
      else if Z.of_nat (length (spec.under oldSlug (models w))) =? 0
           then (Err (db.noneFound oldSlug),
                 with_models (spec.renamed oldSlug newSlug <$> models w)
                   (spec.sent (UpdateSlug newSlug oldSlug) w))
           else (Ok (),
                 with_models (spec.renamed oldSlug newSlug <$> models w)
                   (spec.sent (UpdateSlug newSlug oldSlug) w))
  end.
Proof.
  unfold db.UpdateModelSlug, bind, wrapping. rewrite Exec_unfold.
  destruct (fst (nextFault (dbFaults w))) as [err|]; [done|].
  cbn [db.run]. destruct (decide _); [done|]. cbn [db.rowsAffected].
  unfold spec.under. by destruct (_ =? 0).
Qed.

(** [Alias], then [GetModelBySlug]: the record is found under the new
    slug, with every other column as it was, and no longer under the old
    one; no other record is touched. *)
Theorem Alias_then_GetModelBySlug oldSlug newSlug m w :
  spec.slugsUnique (models w) → m ∈ models w → Slug m = oldSlug →
  ¬ spec.hasRecord newSlug w → dbFaults w = [] →
  let w' := snd (model.Alias oldSlug newSlug w) in
  fst (model.Alias oldSlug newSlug w) = Ok ()
  ∧ fst (db.GetModelBySlug newSlug w') = Ok (db.setSlug newSlug m)
  ∧ fst (db.GetModelBySlug oldSlug w') = Err (db.notFound oldSlug)
  ∧ spec.others newSlug (models w') = spec.others oldSlug (models w).
Proof.
  intros Hu Hm Hs Hnew Hf w'.
  assert (Forall (λ x, Slug x ≠ newSlug) (models w)) as Hfree.
  { apply Forall_forall. intros x Hx Hxs. apply Hnew. by exists x. }
  assert (oldSlug ≠ newSlug) as Hne.
  { intros <-. apply Hnew. by exists m. }
  assert (spec.hasRecord oldSlug w) as Hold by (by exists m).
  assert (∃ w1, model.Alias oldSlug newSlug w = (Ok (), w1)
                ∧ models w1 = spec.renamed oldSlug newSlug <$> models w
                ∧ dbFaults w1 = []) as (w1 & Hrun & Hrows & Hf1).
  { unfold model.Alias, bind at 1.
    destruct (GetModelBySlug_present oldSlug w Hold Hf) as [m0 ->].
    unfold bind at 1, attempt. rewrite GetModelBySlug_unfold.
    cbn [spec.sent dbFaults with_dbFaults with_trace models]. rewrite Hf. cbn [nextFault fst snd].
    apply under_nil_absent in Hnew. unfold spec.under in Hnew. rewrite Hnew.
    unfold bind at 1. rewrite UpdateModelSlug_unfold.
    cbn [spec.sent dbFaults with_dbFaults with_trace models]. rewrite Hf.
    cbn [nextFault fst snd].
    rewrite decide_False.
    2:{ intros [(x & Hx & Hxs & _)%Exists_exists _]. apply (proj1 (Forall_forall _ _) Hfree x Hx Hxs). }
    destruct (Z.eqb_spec (Z.of_nat (length (spec.under oldSlug (models w)))) 0) as [Hz|Hz].
    { exfalso. apply under_length_zero in Hz. by apply Hz. }
    unfold ui.PrintInfo, emit. eexists. split; [reflexivity|].
    cbn. by rewrite Hf. }
  subst w'. rewrite Hrun. cbn [fst snd]. split; [done|].
  rewrite !GetModelBySlug_unfold, Hf1, Hrows. cbn [nextFault fst].
  change (filter (λ m, Slug m = ?s) ?l) with (spec.under s l).
  rewrite (rename_under_new oldSlug newSlug (models w) m Hu Hm Hs Hfree).
  rewrite (rename_under_old oldSlug newSlug (models w) Hne).
  split; [done|]. split; [done|]. by apply rename_others.
Qed.

(** An [Alias] that fails, for whatever reason, leaves the table as it
    was. *)
Theorem Alias_failure_changes_nothing oldSlug newSlug w e :
  fst (model.Alias oldSlug newSlug w) = Err e →
  models (snd (model.Alias oldSlug newSlug w)) = models w.
Proof.
  destruct (model.Alias oldSlug newSlug w) as [r w'] eqn:Hrun. cbn [fst snd]. intros ->.
  revert Hrun. unfold model.Alias, bind at 1. rewrite GetModelBySlug_unfold.
  destruct (fst (nextFault (dbFaults w))) as [err|]; [by intros [= _ <-]|].
  destruct (filter (λ m, Slug m = oldSlug) (models w)) as [|m rest] eqn:Hold;
    [by intros [= _ <-]|].
  unfold bind at 1, attempt. rewrite GetModelBySlug_unfold.
  set (w1 := spec.sent (SelectBySlug oldSlug) w).
  assert (∀ w2, models w2 = models w →
            ∀ r0 w3, (db.UpdateModelSlug oldSlug newSlug ;;
                      ui.PrintInfo (lit "Model '" ++ oldSlug ++ lit "' aliased to '"
                                    ++ newSlug ++ lit "'.")) w2 = (Err r0, w3) →
            models w3 = models w) as Hupdate.
  { intros w2 H2 r0 w3. unfold bind. rewrite UpdateModelSlug_unfold.
    destruct (fst (nextFault (dbFaults w2))) as [err'|]; [by intros [= _ <-]|].
    destruct (decide _); [by intros [= _ <-]|].
    destruct (Z.eqb_spec (Z.of_nat (length (spec.under oldSlug (models w2)))) 0) as [Hz|Hz];
      [|done].
    exfalso. unfold spec.under in Hz. rewrite H2, Hold in Hz. simpl in Hz. lia. }
  destruct (fst (nextFault (dbFaults w1))) as [err|].
  - apply Hupdate. done.
  - change (models w1) with (models w).
    destruct (filter (λ m, Slug m = newSlug) (models w)) as [|m' rest'] eqn:Hnew;
      [|by intros [= _ <-]].
    apply Hupdate. done.
Qed.

(** ** Removing a model: when it works, and when it never can *)

Lemma fs_sent q w : fs (spec.sent q w) = fs w.
Proof. done. Qed.
Lemma fs_asked e w : fs (spec.asked e w) = fs w.
Proof. done. Qed.
Lemma models_sent q w : models (spec.sent q w) = models w.
Proof. done. Qed.
Lemma models_asked e w : models (spec.asked e w) = models w.
Proof. done. Qed.
Lemma dbFaults_asked e w : dbFaults (spec.asked e w) = dbFaults w.
Proof. done. Qed.
Lemma fsFaults_sent q w : fsFaults (spec.sent q w) = fsFaults w.
Proof. done. Qed.
Lemma dbFaults_sent q w : dbFaults (spec.sent q w) = snd (nextFault (dbFaults w)).
Proof. done. Qed.
Lemma fsFaults_asked e w : fsFaults (spec.asked e w) = snd (nextFault (fsFaults w)).
Proof. done. Qed.

Create Rewrite HintDb world.
#[local] Hint Rewrite fs_sent fs_asked models_sent models_asked dbFaults_asked fsFaults_sent
  dbFaults_sent fsFaults_asked : world.

Lemma GetModelBySlug_the slug m w :
  spec.slugsUnique (models w) → m ∈ models w → Slug m = slug → dbFaults w = [] →
  db.GetModelBySlug slug w = (Ok m, spec.sent (SelectBySlug slug) w).
Proof.
  intros Hu Hm Hs Hf. rewrite GetModelBySlug_unfold, Hf. cbn [nextFault fst].
  destruct (filter (λ m, Slug m = slug) (models w)) as [|x l] eqn:Hsel.
  - exfalso. assert (m ∈ filter (λ m, Slug m = slug) (models w)) as Hin
      by (by apply list_elem_of_filter).
    rewrite Hsel in Hin. by apply elem_of_nil in Hin.
  - rewrite (selected_unique slug (models w) x m Hu); try done. by rewrite Hsel.
Qed.

(** [Remove], then [GetModelBySlug]: the file is gone from the disk, the
    record from the table, and the slug is not found; the other files and
    the other records stay. *)
Theorem Remove_then_GetModelBySlug cfg slug m info w :
  spec.slugsUnique (models w) → m ∈ models w → Slug m = slug →
  fs w !! FilePath m = Some info → IsDir info = false →
  dbFaults w = [] → fsFaults w = [] →
  let w' := snd (model.Remove cfg slug w) in
  fst (model.Remove cfg slug w) = Ok ()
  ∧ fs w' = delete (FilePath m) (fs w)
  ∧ models w' = spec.others slug (models w)
  ∧ fst (db.GetModelBySlug slug w') = Err (db.notFound slug).
Proof.
  intros Hu Hm Hs Hfile Hreg Hdb Hfs w'.
  assert (∃ w1, model.Remove cfg slug w = (Ok (), w1)
                ∧ fs w1 = delete (FilePath m) (fs w)
                ∧ models w1 = spec.others slug (models w)
                ∧ dbFaults w1 = []) as (w1 & Hrun & Hfs1 & Hrows & Hdb1).
  { unfold model.Remove, bind at 1. rewrite (GetModelBySlug_the slug m w) by done.
    unfold bind at 1, wrapping, os.Remove. rewrite syscall_unfold.
    autorewrite with world. rewrite Hfs. cbn [nextFault fst snd].
    unfold bind at 1, get. autorewrite with world.
    rewrite Hfile, Hreg. cbn [andb modify].
    unfold bind at 1. unfold db.RemoveModel, bind at 1, wrapping. rewrite Exec_unfold.
    cbn [dbFaults with_fs]. autorewrite with world. rewrite Hdb.
    cbn [nextFault fst snd db.run models with_fs db.rowsAffected]. autorewrite with world.
    destruct (Z.eqb_spec (Z.of_nat (length (filter (λ m, Slug m = slug) (models w)))) 0)
      as [Hz|Hz].
    { exfalso. apply under_length_zero in Hz. apply Hz. by exists m. }
    unfold ui.PrintInfo, emit. eexists. split; [reflexivity|].
    cbn. by rewrite Hdb. }
  subst w'. rewrite Hrun. cbn [fst snd]. split; [done|]. split; [done|]. split; [done|].
  rewrite GetModelBySlug_unfold, Hdb1, Hrows. cbn [nextFault fst].
  change (filter (λ m, Slug m = slug) ?l) with (spec.under slug l).
  by rewrite under_others.
Qed.

(** A record whose file is gone cannot be removed: [Remove] fails at the
    file, whatever else happens, and the record stays. *)
Theorem Remove_of_orphaned_record cfg slug m w :
  spec.slugsUnique (models w) → spec.orphanedRecord w m → Slug m = slug →
  (∃ e, fst (model.Remove cfg slug w) = Err e)
  ∧ models (snd (model.Remove cfg slug w)) = models w
  ∧ (dbFaults w = [] → fsFaults w = [] →
     fst (model.Remove cfg slug w)
     = Err (wrapf "removing file" (os.noEntry "remove" (FilePath m)))).
Proof.
  intros Hu [Hm Hgone] Hs.
  destruct (model.Remove cfg slug w) as [r w'] eqn:Hrun. cbn [fst snd].
  pose proof (Remove_outcome cfg slug w r w' Hrun) as Hout.
  assert (∀ m0, head (filter (λ m, Slug m = slug) (models w)) = Some m0 →
                ¬ is_Some (fs w !! FilePath m0)) as Hnofile.
  { intros m0 Hsel. rewrite <- (selected_unique slug (models w) m0 m Hu Hsel Hm Hs).
    rewrite Hgone. by intros [? ?]. }
  split; [|split].
  - destruct Hout as [e -> | m0 e _ -> | m0 e Hsel _ _ Hfile | m0 Hsel _ _ Hfile]; eauto.
    + destruct (Hnofile m0 Hsel Hfile).
    + destruct (Hnofile m0 Hsel Hfile).
  - destruct Hout as [e _ H | m0 e _ _ H | m0 e Hsel _ _ Hfile | m0 Hsel _ _ Hfile]; try done.
    + destruct (Hnofile m0 Hsel Hfile).
    + destruct (Hnofile m0 Hsel Hfile).
  - intros Hdb Hfs. revert Hrun.
    unfold model.Remove, bind at 1. rewrite (GetModelBySlug_the slug m w) by done.
    unfold bind at 1, wrapping, os.Remove. rewrite syscall_unfold.
    autorewrite with world. rewrite Hfs. cbn [nextFault fst snd].
    unfold bind at 1, get. autorewrite with world.
    rewrite Hgone. by intros [= <- _].
Qed.

(** ** Pull and import: what they may do to the table *)

Lemma upsertsOnly_same slug modelID w w' :
  models w' = models w → spec.upsertsOnly slug modelID w w'.
Proof.
  intros H. unfold spec.upsertsOnly, spec.hasRecord. rewrite H. split; [done|]. split; auto.
Qed.

Lemma upsertsOnly_refl slug modelID w : spec.upsertsOnly slug modelID w w.
Proof. by apply upsertsOnly_same. Qed.

Lemma upsertsOnly_trans slug modelID w1 w2 w3 :
  spec.upsertsOnly slug modelID w1 w2 → spec.upsertsOnly slug modelID w2 w3 →
  spec.upsertsOnly slug modelID w1 w3.
Proof.
  intros (Ho1 & Hn1 & Hk1) (Ho2 & Hn2 & Hk2). split; [by rewrite Ho2|]. split; [|auto].
  intros m Hm. destruct (Hn2 m Hm) as [Hm2|Hnew]; [by apply Hn1|by right].
Qed.

Lemma upsertsOnly_emit slug modelID e : stable (spec.upsertsOnly slug modelID) (emit e).
Proof. intros w. by apply upsertsOnly_same. Qed.

Lemma upsertsOnly_modify slug modelID f :
  (∀ w, models (f w) = models w) → stable (spec.upsertsOnly slug modelID) (modify f).
Proof. intros Hf w. apply upsertsOnly_same. apply Hf. Qed.

Lemma upsertsOnly_AddModel slug modelID fileName filePath fileSize :
  stable (spec.upsertsOnly slug modelID)
    (db.AddModel slug modelID fileName filePath fileSize).
Proof.
  intros w. rewrite AddModel_unfold.
  destruct (fst (nextFault (dbFaults w))); [by apply upsertsOnly_same|].
  cbn [snd]. split; [|split].
  - cbn [models with_models].
    change (filter (λ m, Slug m ≠ slug) ?l) with (spec.others slug l).
    rewrite others_app, others_others. unfold spec.others at 2. rewrite filter_cons.
    cbn [Slug]. rewrite decide_False by (intros H; by apply H).
    by rewrite filter_nil, app_nil_r.
  - cbn [models with_models]. intros m [Hm|Hm]%elem_of_app.
    + left. by apply list_elem_of_filter in Hm as [_ Hm].
    + right. apply list_elem_of_singleton in Hm as ->. done.
  - intros _.
    exists (mkModel (db.nextRowid (models w)) slug modelID fileName filePath fileSize
              (now w) None).
    split; [|reflexivity]. cbn [models with_models]. apply elem_of_app. right. left.
Qed.

Ltac upserts_tac slug modelID :=
  repeat first
    [ assumption
    | apply upsertsOnly_emit
    | apply upsertsOnly_AddModel
    | apply upsertsOnly_modify; by intros []
    | stable_step (upsertsOnly_refl slug modelID) (upsertsOnly_trans slug modelID) ].

Lemma upsertsOnly_syscall {A} slug modelID e (m : M A) :
  stable (spec.upsertsOnly slug modelID) m →
  stable (spec.upsertsOnly slug modelID) (os.syscall e m).
Proof. intros. unfold os.syscall. upserts_tac slug modelID. Qed.

(** Whatever the hub, the downloader, the disk and the driver do, [Pull]
    does nothing to the table but, at most, upsert the record of the
    model, under the slug of its identifier: no record under another slug
    changes, and no slug leaves the table. *)
Theorem Pull_upserts_one_slug cfg modelID w :
  spec.upsertsOnly (model.generateSlug modelID) modelID w (snd (model.Pull cfg modelID w)).
Proof.
  revert w. change (stable (spec.upsertsOnly (model.generateSlug modelID) modelID)
                      (model.Pull cfg modelID)).
  unfold model.Pull, model.fetchModelInfo, model.runDownloader, ui.PrintWarn,
    ui.PrintInfo, os.Stat, os.MkdirAll, filepath.Glob, exec.Run, exec.spawn.
  upserts_tac (model.generateSlug modelID) modelID;
    apply upsertsOnly_syscall; upserts_tac (model.generateSlug modelID) modelID.
Qed.

Lemma keepsSlugs_refl w : spec.keepsSlugs w w.
Proof. by intros ?. Qed.

Lemma keepsSlugs_trans w1 w2 w3 :
  spec.keepsSlugs w1 w2 → spec.keepsSlugs w2 w3 → spec.keepsSlugs w1 w3.
Proof. unfold spec.keepsSlugs. auto. Qed.

Lemma keepsSlugs_emit e : stable spec.keepsSlugs (emit e).
Proof. by intros w slug. Qed.

Lemma keepsSlugs_modify f :
  (∀ w, models (f w) = models w) → stable spec.keepsSlugs (modify f).
Proof. intros Hf w slug. unfold spec.hasRecord. simpl. by rewrite Hf. Qed.

Lemma keepsSlugs_AddModel slug modelID fileName filePath fileSize :
  stable spec.keepsSlugs (db.AddModel slug modelID fileName filePath fileSize).
Proof.
  intros w slug0 (m & Hm & Hs).
  destruct (upsertsOnly_AddModel slug modelID fileName filePath fileSize w) as (Ho & _ & Hk).
  destruct (decide (slug0 = slug)) as [->|Hne]; [apply Hk; by exists m|].
  exists m. split; [|done].
  assert (m ∈ spec.others slug (models w)) as Hin
    by (apply list_elem_of_filter; split; [congruence|done]).
  rewrite <- Ho in Hin. by apply list_elem_of_filter in Hin as [_ Hin].
Qed.

Lemma keepsSlugs_importVisit cfg v : stable spec.keepsSlugs (model.importVisit cfg v).
Proof.
  unfold model.importVisit, ui.PrintInfo, ui.PrintWarn.
  repeat first
    [ apply keepsSlugs_emit
    | apply keepsSlugs_AddModel
    | stable_step keepsSlugs_refl keepsSlugs_trans ].
Qed.

Lemma keepsSlugs_walk cfg visits :
  stable spec.keepsSlugs (forEach visits (model.importVisit cfg)).
Proof.
  apply stable_forEach; [exact keepsSlugs_refl|exact keepsSlugs_trans|].
  apply keepsSlugs_importVisit.
Qed.

Lemma importVisit_records cfg v w slug modelID fileName filePath fileSize :
  spec.recordFor cfg v = Some (InsertOrReplace slug modelID fileName filePath fileSize) →
  spec.visitError cfg v = None → dbFaults w = [] →
  spec.hasRecord slug (snd (model.importVisit cfg v w)).
Proof.
  intros Hrec Herr Hf.
  exists (mkModel (db.nextRowid (models w)) slug modelID fileName filePath fileSize
            (now w) None).
  split; [|reflexivity]. revert Hrec Herr.
  unfold model.importVisit, spec.visitError, spec.recordFor.
  destruct (v_err v); [done|].
  destruct (IsDir (v_info v)); cbn [negb andb]; [done|].
  destruct (strings.HasSuffix _ _); cbn [negb andb]; [|done].
  destruct (filepath.Rel _ _) as [rel|]; cbn [mbind option_bind]; [|done].
  destruct (strings.Split rel [filepath.Separator]) as [|p1 [|p2 [|p3 parts]]];
    cbn [length Nat.ltb Nat.leb head default]; try done.
  - intros [= <- <- <- <- <-] _.
    unfold bind, attempt. rewrite AddModel_unfold, Hf. cbn [nextFault fst].
    unfold ui.PrintInfo, emit. cbn [snd models with_trace with_models].
    apply elem_of_app. right. left.
  - intros [= <- <- <- <- <-] _.
    unfold bind, attempt. rewrite AddModel_unfold, Hf. cbn [nextFault fst].
    unfold ui.PrintInfo, emit. cbn [snd models with_trace with_models].
    apply elem_of_app. right. left.
Qed.

(** A walk that meets no error, with a driver that answers, leaves a
    record under the slug of every model file it visits. *)
Lemma walk_records cfg visits : ∀ w,
  dbFaults w = [] → snd (spec.walked cfg visits) = None →
  ∀ v slug modelID fileName filePath fileSize,
    v ∈ visits →
    spec.recordFor cfg v = Some (InsertOrReplace slug modelID fileName filePath fileSize) →
    spec.hasRecord slug (snd (forEach visits (model.importVisit cfg) w)).
Proof.
  induction visits as [|v0 visits IH]; intros w Hf Hwalk v slug modelID fileName filePath
    fileSize Hv Hrec; [by apply elem_of_nil in Hv|].
  cbn [spec.walked] in Hwalk. cbn [forEach]. unfold bind.
  pose proof (importVisit_cases cfg v0 w) as Hcase.
  destruct (spec.visitError cfg v0) as [err|] eqn:Herr.
  { destruct (spec.walked cfg visits). done. }
  destruct (spec.walked cfg visits) as [seen stop] eqn:Hrest. cbn [snd] in Hwalk. subst stop.
  destruct (model.importVisit cfg v0 w) as [r w1] eqn:Hrun.
  assert (r = Ok () ∧ dbFaults w1 = []) as [-> Hf1].
  { destruct (spec.recordFor cfg v0) as [q|].
    - destruct Hcase as (w' & note & [= -> ->] & _ & Hf' & _). split; [done|].
      by rewrite Hf', Hf.
    - by injection Hcase as -> ->. }
  apply elem_of_cons in Hv as [->|Hv].
  - apply (keepsSlugs_walk cfg visits w1).
    replace w1 with (snd (model.importVisit cfg v0 w)) by (by rewrite Hrun).
    by eapply importVisit_records.
  - by eapply (IH w1 Hf1).
Qed.

(** [ImportExisting] never takes a slug out of the table: a record is
    replaced, if at all, by one under the same slug, so a model that was
    given another slug by [Alias] keeps it. When the walk meets no error
    and the driver answers, the table afterwards holds a record under the
    slug of every model file of the tree. *)
Theorem ImportExisting_slugs cfg w :
  let w' := snd (model.ImportExisting cfg w) in
  (∀ slug, spec.hasRecord slug w → spec.hasRecord slug w')
  ∧ (dbFaults w = [] → snd (spec.walked cfg (tree w)) = None →
     fst (model.ImportExisting cfg w) = Ok ()
     ∧ ∀ v slug modelID fileName filePath fileSize,
         v ∈ tree w →
         spec.recordFor cfg v
         = Some (InsertOrReplace slug modelID fileName filePath fileSize) →
         spec.hasRecord slug w').
Proof.
  intros w'. subst w'. split.
  - revert w. change (stable spec.keepsSlugs (model.ImportExisting cfg)).
    unfold model.ImportExisting, ui.PrintInfo.
    repeat first
      [ apply keepsSlugs_emit
      | apply keepsSlugs_importVisit
      | stable_step keepsSlugs_refl keepsSlugs_trans ].
  - intros Hf Hwalk.
    unfold model.ImportExisting, ui.PrintInfo, bind, emit, get, wrapping.
    set (w1 := with_trace _ (with_trace _ w)).
    destruct (forEach_importVisit cfg (tree w) w1) as (evs & w2 & Hrun & _).
    rewrite Hwalk in Hrun.
    pose proof (walk_records cfg (tree w) w1 Hf Hwalk) as Hrec.
    change (tree w1) with (tree w). rewrite Hrun in *. cbn [fst snd] in *.
    split; [done|]. intros v slug modelID fileName filePath fileSize Hv Hq.
    by eapply Hrec.
Qed.

(** ** Pull: nothing is fetched that the hub does not offer *)

Lemma untouched_refl w : spec.untouched w w.
Proof. done. Qed.

Lemma untouched_trans w1 w2 w3 :
  spec.untouched w1 w2 → spec.untouched w2 w3 → spec.untouched w1 w3.
Proof.
  intros (Hm1 & Hf1 & He1 & Hh1) (Hm2 & Hf2 & He2 & Hh2).
  unfold spec.untouched. by rewrite Hm2, Hf2, He2, Hh2.
Qed.

Lemma untouched_emit e : stable spec.untouched (emit e).
Proof. by intros w. Qed.

Lemma untouched_modify f :
  (∀ w, spec.untouched w (f w)) → stable spec.untouched (modify f).
Proof. intros Hf w. apply Hf. Qed.

Ltac untouched_tac :=
  repeat first
    [ assumption
    | apply untouched_emit
    | apply untouched_modify; by intros []
    | stable_step untouched_refl untouched_trans ].

Lemma untouched_Stat path : stable spec.untouched (os.Stat path).
Proof. unfold os.Stat, os.syscall. untouched_tac. Qed.

Lemma untouched_Glob pattern : stable spec.untouched (filepath.Glob pattern).
Proof. unfold filepath.Glob. untouched_tac. Qed.

Lemma untouched_fetchModelInfo modelID url :
  stable spec.untouched (model.fetchModelInfo modelID url).
Proof. unfold model.fetchModelInfo. untouched_tac. Qed.

(** A step of a computation, and what follows it in the world the step
    leaves. *)
Lemma untouched_bind {A B} (m : M A) (k : A → M B) w :
  stable spec.untouched m →
  (∀ a w1, m w = (Ok a, w1) → spec.untouched w w1 → spec.untouched w1 (snd (k a w1))) →
  spec.untouched w (snd (bind m k w)).
Proof.
  intros Hm Hk. unfold bind. specialize (Hm w).
  destruct (m w) as [[a|e] w1]; [|done].
  eapply untouched_trans; [exact Hm|]. by apply Hk.
Qed.

Lemma fetchModelInfo_Ok modelID url w siblings w1 :
  model.fetchModelInfo modelID url w = (Ok siblings, w1) →
  hub w url = HubResponse 200 (Manifest siblings).
Proof.
  unfold model.fetchModelInfo, bind, emit, get. cbn [hub with_trace].
  destruct (hub w url) as [err|status body]; [done|].
  destruct (Z.eqb_spec status 200) as [->|Hne]; cbn [negb]; [|done].
  destruct body; try done. by intros [= -> _].
Qed.

(** When the hub does not offer a [q4_k_m.gguf] file (it cannot be
    reached, answers another status than 200, or lists none), [Pull] makes
    no directory, starts no downloader and writes no record: the table,
    the disk and the processes are as they were. *)
Theorem Pull_without_offer cfg modelID w :
  spec.offered (hub w (spec.manifestURL modelID)) = None →
  let w' := snd (model.Pull cfg modelID w) in
  models w' = models w ∧ fs w' = fs w ∧ execs w' = execs w.
Proof.
  intros Hoffer w'.
  assert (spec.untouched w w') as (Hm & Hf & He & _); [|done].
  subst w'. unfold model.Pull.
  destruct (model.validateModelID modelID); cbn [negb]; [|done]. cbv zeta.
  apply untouched_bind; [apply stable_attempt, untouched_Stat|].
  intros dir w1 _ H1.
  apply untouched_bind; [destruct dir; [apply untouched_Glob|untouched_tac]|].
  intros files w2 _ H2.
  destruct files as [|f files]; [|by apply untouched_emit].
  apply untouched_bind; [apply untouched_emit|]. intros _ w3 _ H3.
  apply untouched_bind; [apply untouched_fetchModelInfo|]. intros siblings w4 Hfetch H4.
  apply fetchModelInfo_Ok in Hfetch.
  destruct H1 as (_ & _ & _ & Hh1), H2 as (_ & _ & _ & Hh2), H3 as (_ & _ & _ & Hh3).
  rewrite Hh3, Hh2, Hh1 in Hfetch. unfold spec.manifestURL in Hoffer.
  rewrite Hfetch in Hoffer. cbn [spec.offered Z.eqb Pos.eqb] in Hoffer.
  unfold spec.quantized in Hoffer. by rewrite Hoffer.
Qed.

(** ** Runs in which nothing fails, step by step *)

Lemma calm_refl w : spec.calm w w.
Proof. split; [by destruct w|auto]. Qed.

Lemma calm_trans w1 w2 w3 : spec.calm w1 w2 → spec.calm w2 w3 → spec.calm w1 w3.
Proof.
  intros [H1 Hg1] [H2 Hg2]. split; [|by eapply grows_trans].
  transitivity (with_trace (trace w1) w2); [|done].
  rewrite <- H2. by destruct w3.
Qed.

Lemma calm_grows w w' : spec.calm w w' → spec.grows w w'.
Proof. by intros [_ ?]. Qed.

Lemma calm_emit e w : spec.calm w (snd (emit e w)).
Proof. split; [by destruct w|]. by exists [e]. Qed.

Section calm_facts.
Context (w w' : World) (H : spec.calm w w').

Lemma calm_models : models w' = models w.
Proof. destruct H as [H' _]. by rewrite <- H'. Qed.
Lemma calm_fs : fs w' = fs w.
Proof. destruct H as [H' _]. by rewrite <- H'. Qed.
Lemma calm_hub : hub w' = hub w.
Proof. destruct H as [H' _]. by rewrite <- H'. Qed.
Lemma calm_execs : execs w' = execs w.
Proof. destruct H as [H' _]. by rewrite <- H'. Qed.
Lemma calm_inference : inference w' = inference w.
Proof. destruct H as [H' _]. by rewrite <- H'. Qed.
Lemma calm_stdin : stdin w' = stdin w.
Proof. destruct H as [H' _]. by rewrite <- H'. Qed.
Lemma calm_now : now w' = now w.
Proof. destruct H as [H' _]. by rewrite <- H'. Qed.
Lemma calm_dbFaults : dbFaults w' = dbFaults w.
Proof. destruct H as [H' _]. by rewrite <- H'. Qed.
Lemma calm_fsFaults : fsFaults w' = fsFaults w.
Proof. destruct H as [H' _]. by rewrite <- H'. Qed.

End calm_facts.

Lemma Stat_calm path w :
  fsFaults w = [] →
  ∃ w1, os.Stat path w
        = (match fs w !! path with
           | Some info => Ok info
           | None => Err (os.noEntry "stat" path)
           end, w1)
        ∧ spec.calm w w1.
Proof.
  intros Hf. unfold os.Stat. rewrite syscall_unfold, Hf. cbn [nextFault fst].
  unfold bind, get. autorewrite with world.
  exists (spec.asked (EvStat path) w). split.
  - by destruct (fs w !! path).
  - split; [|by exists [EvStat path]].
    unfold spec.asked. rewrite Hf. by destruct w; simplify_eq/=.
Qed.

Lemma fetchModelInfo_calm modelID url w siblings :
  hub w url = HubResponse 200 (Manifest siblings) →
  ∃ w1, model.fetchModelInfo modelID url w = (Ok siblings, w1) ∧ spec.calm w w1.
Proof.
  intros Hh. unfold model.fetchModelInfo, bind, emit, get. cbn [hub with_trace].
  rewrite Hh. cbn [Z.eqb Pos.eqb negb]. eexists. split; [reflexivity|].
  apply (calm_emit (EvHubGet url)).
Qed.

Lemma find_regular_none w path :
  spec.clearPath w path = true →
  List.find (λ p, match fs w !! p with
                  | Some info => negb (IsDir info)
                  | None => false
                  end) (os.ancestors path) = None.
Proof.
  unfold spec.clearPath. induction (os.ancestors path) as [|p l IH]; [done|].
  cbn [forallb List.find]. intros [Hp Hl]%andb_true_iff.
  destruct (fs w !! p) as [info|]; [|by apply IH].
  rewrite Hp. cbn [negb]. by apply IH.
Qed.

Lemma MkdirAll_calm path w :
  fsFaults w = [] → spec.clearPath w path = true →
  ∃ w1, os.MkdirAll path w = (Ok (), w1)
        ∧ spec.calm (with_fs (spec.made path (fs w)) w) w1.
Proof.
  intros Hf Hclear. unfold os.MkdirAll. rewrite syscall_unfold, Hf. cbn [nextFault fst].
  unfold bind, get. autorewrite with world. rewrite (find_regular_none w path Hclear).
  eexists. split; [reflexivity|]. split; [|by exists [EvMkdirAll path]].
  unfold spec.asked. rewrite Hf. by destruct w; simplify_eq/=.
Qed.

Lemma Run_calm argv w pid code out files rest :
  execs w = Ran pid code out files :: rest →
  ∃ w1, exec.Run argv w = (Ok (Ran pid code out files), w1)
        ∧ spec.calm (with_execs rest (with_fs (files ∪ fs w) w)) w1
        ∧ EvExec argv ∈ spec.newEvents w w1.
Proof.
  intros He. unfold exec.Run, exec.spawn, bind, emit, get, modify, ret.
  cbn [execs with_trace fst snd]. rewrite He. cbn [head tail default from_option id].
  eexists. split; [reflexivity|]. split.
  - split; [|by exists [EvExec argv]]. by destruct w; simplify_eq/=.
  - erewrite newEvents_app; [|reflexivity]. left.
Qed.

Lemma bind_Ok {A B} (m : M A) (k : A → M B) w a w1 :
  m w = (Ok a, w1) → bind m k w = k a w1.
Proof. intros H. unfold bind. by rewrite H. Qed.

Lemma bind_Err {A B} (m : M A) (k : A → M B) w e w1 :
  m w = (Err e, w1) → bind m k w = (Err e, w1).
Proof. intros H. unfold bind. by rewrite H. Qed.

Lemma wrapping_Ok {A} c (m : M A) w a w1 :
  m w = (Ok a, w1) → wrapping c m w = (Ok a, w1).
Proof. intros H. unfold wrapping. by rewrite H. Qed.

Lemma wrapping_Err {A} c (m : M A) w e w1 :
  m w = (Err e, w1) → wrapping c m w = (Err (wrapf c e), w1).
Proof. intros H. unfold wrapping. by rewrite H. Qed.

Lemma attempt_run {A} (m : M A) w r w1 :
  m w = (r, w1) → attempt m w = (Ok r, w1).
Proof. intros H. unfold attempt. by rewrite H. Qed.

Lemma emit_calm e w : ∃ w1, emit e w = (Ok (), w1) ∧ spec.calm w w1.
Proof. eexists. split; [reflexivity|]. apply (calm_emit e). Qed.

Lemma AddModel_calm slug modelID fileName filePath fileSize w :
  dbFaults w = [] →
  ∃ w1, db.AddModel slug modelID fileName filePath fileSize w = (Ok (), w1)
        ∧ spec.calm
            (with_models
               (spec.others slug (models w)
                ++ [mkModel (db.nextRowid (models w)) slug modelID fileName filePath fileSize
                            (now w) None]) w) w1.
Proof.
  intros Hf. rewrite AddModel_unfold, Hf. cbn [nextFault fst].
  eexists. split; [reflexivity|]. split.
  - unfold spec.sent. rewrite Hf. by destruct w; simplify_eq/=.
  - by eexists [_].
Qed.

Lemma runDownloader_calm argv w pid out files rest :
  execs w = Ran pid 0 out files :: rest →
  ∃ w1, model.runDownloader argv w = (Ok (), w1)
        ∧ spec.calm (with_execs rest (with_fs (files ∪ fs w) w)) w1
        ∧ EvExec argv ∈ spec.newEvents w w1.
Proof.
  intros He. destruct (Run_calm argv w pid 0 out files rest He) as (w1 & Hrun & Hc & Hev).
  destruct (emit_calm (EvStdout out) w1) as (w2 & Hout & Hc2).
  exists w2. unfold model.runDownloader. rewrite (bind_Ok _ _ _ _ _ Hrun).
  cbv beta iota. rewrite (bind_Ok _ _ _ _ _ Hout). split; [done|].
  split; [by eapply calm_trans|].
  destruct (calm_grows _ _ Hc2) as [e2 He2]. unfold spec.newEvents in *.
  destruct (calm_grows _ _ Hc) as [e1 He1]. cbn [trace with_execs with_fs] in He1.
  rewrite He2, He1, <- app_assoc, drop_app_length.
  rewrite He1, drop_app_length in Hev. apply elem_of_app. by left.
Qed.

Lemma newEvents_between w a b c e :
  spec.grows w a → spec.grows b c → e ∈ spec.newEvents a b → e ∈ spec.newEvents w c.
Proof.
  intros [x Hx] [z Hz]. unfold spec.newEvents.
  intros (i & Hi)%list_elem_of_lookup. rewrite lookup_drop in Hi.
  rewrite Hx, length_app in Hi.
  apply list_elem_of_lookup. exists (length x + i)%nat.
  rewrite lookup_drop, Hz, Nat.add_assoc.
  rewrite lookup_app_l; [done|]. by eapply lookup_lt_Some.
Qed.

Lemma quantized_named siblings file : spec.quantized siblings = Some file → file ≠ [].
Proof.
  unfold spec.quantized. intros [_ Hsuf]%find_some ->. by vm_compute in Hsuf.
Qed.

(** [Pull], then [GetModelBySlug]: when the hub offers a file, the
    directory can be made, the downloader exits with 0 and has written
    the file, and nothing fails, the model is found under the slug of its
    identifier, with the name, the path and the size in megabytes of the
    file that was downloaded. *)
Theorem Pull_then_GetModelBySlug cfg modelID w siblings file pid out files rest info :
  let modelDir := filepath.Join [config.ModelsDir cfg; modelID] in
  let downloaded := filepath.Join [modelDir; file] in
  model.validateModelID modelID = true →
  fs w !! modelDir = None → spec.clearPath w modelDir = true →
  hub w (spec.manifestURL modelID) = HubResponse 200 (Manifest siblings) →
  spec.quantized siblings = Some file →
  execs w = Ran pid 0 out files :: rest → files !! downloaded = Some info →
  dbFaults w = [] → fsFaults w = [] →
  let w' := snd (model.Pull cfg modelID w) in
  fst (model.Pull cfg modelID w) = Ok ()
  ∧ spec.download modelID file modelDir ∈ spec.newEvents w w'
  ∧ ∃ m, fst (db.GetModelBySlug (model.generateSlug modelID) w') = Ok m
         ∧ spec.holds m (model.generateSlug modelID) modelID file downloaded
             (model.megabytes (Size info)).
Proof.
  intros modelDir downloaded Hvalid Hnodir Hclear Hhub Hq Hexecs Hfile Hdb Hfs w'.
  pose proof (quantized_named siblings file Hq) as Hnamed.
  set (slug := model.generateSlug modelID).
  set (new := mkModel (db.nextRowid (models w)) slug modelID file downloaded
                (model.megabytes (Size info)) (now w) None).
  assert (∃ w1, model.Pull cfg modelID w = (Ok (), w1)
                ∧ models w1 = spec.others slug (models w) ++ [new]
                ∧ dbFaults w1 = []
                ∧ spec.download modelID file modelDir ∈ spec.newEvents w w1)
    as (w1 & Hrun & Hrows & Hdb1 & Hev).
  { unfold model.Pull. rewrite Hvalid. cbn [negb]. cbv zeta. fold modelDir.
    destruct (Stat_calm modelDir w Hfs) as (wa & Hstat & Hca). rewrite Hnodir in Hstat.
    rewrite (bind_Ok _ _ _ _ _ (attempt_run _ _ _ _ Hstat)).
    unfold bind at 1, ret.
    destruct (emit_calm (EvInfo (lit "Fetching model information for " ++ modelID
                                 ++ lit "...")) wa) as (wb & Hinfo & Hcb).
    unfold ui.PrintInfo at 1. rewrite (bind_Ok _ _ _ _ _ Hinfo).
    pose proof (calm_trans _ _ _ Hca Hcb) as Hwb.
    destruct (fetchModelInfo_calm modelID (spec.manifestURL modelID) wb siblings)
      as (wc & Hfetch & Hcc); [by rewrite (calm_hub _ _ Hwb)|].
    unfold spec.manifestURL in Hfetch. rewrite (bind_Ok _ _ _ _ _ Hfetch).
    pose proof (calm_trans _ _ _ Hwb Hcc) as Hwc.
    unfold spec.quantized in Hq. rewrite Hq.
    destruct file as [|c file']; [done|]. set (file := c :: file') in *.
    destruct (MkdirAll_calm modelDir wc) as (wd & Hmk & Hcd).
    { by rewrite (calm_fsFaults _ _ Hwc). }
    { unfold spec.clearPath. rewrite (calm_fs _ _ Hwc). exact Hclear. }
    rewrite (bind_Ok _ _ _ _ _ (wrapping_Ok _ _ _ _ _ Hmk)).
    destruct (emit_calm (EvInfo (lit "Downloading " ++ file ++ lit " for model "
                                 ++ modelID ++ lit "...")) wd) as (we & Hinfo2 & Hce).
    unfold ui.PrintInfo at 1. rewrite (bind_Ok _ _ _ _ _ Hinfo2).
    pose proof (calm_trans _ _ _ Hcd Hce) as Hwe.
    destruct (runDownloader_calm [lit "huggingface-cli"; lit "download"; modelID; file;
                                  lit "--local-dir"; modelDir] we pid out files rest)
      as (wg & Hdl & Hwg & Hexec).
    { rewrite (calm_execs _ _ Hwe). cbn [execs with_fs]. by rewrite (calm_execs _ _ Hwc). }
    rewrite (bind_Ok _ _ _ _ _ Hdl).
    assert (fs wg !! downloaded = Some info) as Hthere.
    { rewrite (calm_fs _ _ Hwg). cbn [fs with_execs with_fs].
      by apply lookup_union_Some_l. }
    assert (fsFaults wg = []) as Hfsg.
    { rewrite (calm_fsFaults _ _ Hwg). cbn [fsFaults with_execs with_fs].
      rewrite (calm_fsFaults _ _ Hwe). cbn [fsFaults with_fs].
      by rewrite (calm_fsFaults _ _ Hwc). }
    fold downloaded.
    destruct (Stat_calm downloaded wg Hfsg) as (wh & Hstat1 & Hch). rewrite Hthere in Hstat1.
    rewrite (bind_Ok _ _ _ _ _ (wrapping_Ok _ _ _ _ _ Hstat1)).
    destruct (Stat_calm downloaded wh) as (wi & Hstat2 & Hci);
      [by rewrite (calm_fsFaults _ _ Hch)|].
    rewrite (calm_fs _ _ Hch), Hthere in Hstat2.
    rewrite (bind_Ok _ _ _ _ _ (wrapping_Ok _ _ _ _ _ Hstat2)).
    pose proof (calm_trans _ _ _ Hwg (calm_trans _ _ _ Hch Hci)) as Hwi.
    assert (models wi = models w ∧ dbFaults wi = [] ∧ now wi = now w) as (Hmi & Hdbi & Hni).
    { rewrite (calm_models _ _ Hwi), (calm_dbFaults _ _ Hwi), (calm_now _ _ Hwi).
      cbn [models dbFaults now with_execs with_fs].
      rewrite (calm_models _ _ Hwe), (calm_dbFaults _ _ Hwe), (calm_now _ _ Hwe).
      cbn [models dbFaults now with_fs].
      by rewrite (calm_models _ _ Hwc), (calm_dbFaults _ _ Hwc), (calm_now _ _ Hwc). }
    destruct (AddModel_calm slug modelID file downloaded (model.megabytes (Size info)) wi Hdbi)
      as (wj & Hadd & Hcj).
    fold slug. rewrite (bind_Ok _ _ _ _ _ (wrapping_Ok _ _ _ _ _ Hadd)).
    destruct (emit_calm (EvInfo (lit "Model added to database with slug: " ++ slug)) wj)
      as (wk & Hinfo3 & Hck).
    unfold ui.PrintInfo at 1. rewrite (bind_Ok _ _ _ _ _ Hinfo3).
    destruct (emit_calm (EvStdout (lit "To use this model, run: llm-cli chat " ++ slug
                                   ++ [10])) wk) as (wl & Hlast & Hcl).
    rewrite Hlast. exists wl. split; [done|].
    pose proof (calm_trans _ _ _ Hcj (calm_trans _ _ _ Hck Hcl)) as Hwl.
    split; [|split].
    - rewrite (calm_models _ _ Hwl). cbn [models with_models]. by rewrite Hmi, Hni.
    - rewrite (calm_dbFaults _ _ Hwl). cbn [dbFaults with_models]. done.
    - unfold spec.download. eapply (newEvents_between w we wg wl); [| |exact Hexec].
      + eapply grows_trans; [exact (calm_grows _ _ Hwc)|]. exact (calm_grows _ _ Hwe).
      + eapply grows_trans; [exact (calm_grows _ _ (calm_trans _ _ _ Hch Hci))|].
        exact (calm_grows _ _ Hwl). }
  subst w'. rewrite Hrun. cbn [fst snd]. split; [done|]. split; [done|].
  exists new. split; [|by repeat split].
  rewrite GetModelBySlug_unfold, Hdb1, Hrows. cbn [nextFault fst].
  change (filter (λ m, Slug m = slug) ?l) with (spec.under slug l).
  rewrite under_app, under_others. cbn [app]. unfold spec.under. rewrite filter_cons.
  cbn [Slug new]. by rewrite decide_True.
Qed.

(** ** The chat: prompts, turns and sessions *)

Lemma formatTurns_pair h u a :
  Nat.even (length h) = true →
  server.formatTurns (h ++ [u; a])
  = server.formatTurns h ++ spec.humanMark ++ u ++ spec.assistantMark ++ a.
Proof.
  revert h. fix IH 1. intros [|x [|y h]] Hev.
  - cbn [app server.formatTurns]. by rewrite app_nil_r.
  - done.
  - cbn [app server.formatTurns]. rewrite (IH h Hev).
    unfold spec.humanMark, spec.assistantMark. by rewrite <- !app_assoc.
Qed.

Lemma formatTurns_open h u :
  Nat.even (length h) = true →
  server.formatTurns (h ++ [u]) = server.formatTurns h ++ spec.humanMark ++ u.
Proof.
  revert h. fix IH 1. intros [|x [|y h]] Hev.
  - done.
  - done.
  - cbn [app server.formatTurns]. rewrite (IH h Hev). by rewrite <- !app_assoc.
Qed.

Lemma length_parity {A} (h : list A) (l : list A) :
  Nat.odd (length (h ++ l)) = xorb (Nat.odd (length h)) (Nat.odd (length l)).
Proof. rewrite length_app. apply Nat.odd_add. Qed.

(** The prompt of a turn is the prompt of the turn before, followed by
    the answer to it, the marker of the human, the new input and the
    marker of the assistant: the server can reuse all it has cached. *)
Theorem formatChatPrompt_extends h u a u' :
  Nat.even (length h) = true →
  server.formatChatPrompt (h ++ [u; a; u'])
  = server.formatChatPrompt (h ++ [u]) ++ a ++ spec.humanMark ++ u' ++ spec.assistantMark.
Proof.
  intros Hev.
  assert (Nat.odd (length h) = false) as Hodd by (by rewrite <- Nat.negb_even, Hev).
  assert (server.formatTurns (h ++ [u; a; u'])
          = server.formatTurns (h ++ [u]) ++ spec.assistantMark ++ a ++ spec.humanMark ++ u')
    as Hturns.
  { replace (h ++ [u; a; u']) with ((h ++ [u; a]) ++ [u']) by (by rewrite <- app_assoc).
    rewrite (formatTurns_open (h ++ [u; a]) u').
    - rewrite (formatTurns_pair h u a Hev), (formatTurns_open h u Hev).
      by rewrite <- !app_assoc.
    - rewrite length_app. cbn [length]. by rewrite Nat.even_add, Hev. }
  unfold server.formatChatPrompt. rewrite Hturns, !length_parity, Hodd.
  cbn [length Nat.odd Nat.even negb xorb]. fold spec.assistantMark.
  by rewrite <- !app_assoc.
Qed.

Lemma streamLine_run acc line w :
  ∃ fragments w',
    server.streamLine acc line w = (Ok (acc ++ mjoin fragments), w')
    ∧ spec.calm w w'
    ∧ trace w' = trace w ++ (EvStdout <$> fragments)
    ∧ (length fragments ≤ 1)%nat.
Proof.
  assert (∃ fragments w', ret acc w = (Ok (acc ++ mjoin fragments), w')
            ∧ spec.calm w w' ∧ trace w' = trace w ++ (EvStdout <$> fragments)
            ∧ (length fragments ≤ 1)%nat) as Hskip.
  { exists [], w. cbn. rewrite !app_nil_r. repeat split; try done; try apply calm_refl; lia. }
  unfold server.streamLine. destruct (strings.HasPrefix _ _); [|done].
  destruct (json.Unmarshal _) as [streamData|err]; [|done].
  destruct (json.index _ _) as [[| | |content| |]|]; try done.
  exists [content]. eexists. split; [|split; [apply (calm_emit (EvStdout content))|]].
  - unfold bind, emit, ret. cbn. by rewrite app_nil_r.
  - cbn. split; [done|lia].
Qed.

Lemma scanLines_run lines : ∀ acc w,
  ∃ fragments w',
    server.scanLines lines acc w = (Ok (acc ++ mjoin fragments), w')
    ∧ spec.calm w w'
    ∧ trace w' = trace w ++ (EvStdout <$> fragments)
    ∧ (length fragments ≤ length lines)%nat.
Proof.
  induction lines as [|line lines IH]; intros acc w.
  - exists [], w. cbn. rewrite !app_nil_r. repeat split; try done; try apply calm_refl; lia.
  - cbn [server.scanLines].
    destruct (streamLine_run acc line w) as (f1 & w1 & Hline & Hc1 & Ht1 & Hl1).
    rewrite (bind_Ok _ _ _ _ _ Hline).
    destruct (IH (acc ++ mjoin f1) w1) as (f2 & w2 & Hrest & Hc2 & Ht2 & Hl2).
    exists (f1 ++ f2), w2. rewrite Hrest. split; [|split; [by eapply calm_trans|split]].
    + by rewrite join_app, app_assoc.
    + by rewrite Ht2, Ht1, fmap_app, app_assoc.
    + rewrite length_app. cbn [length]. lia.
Qed.

Lemma roundTrip_run e w :
  ∃ w', server.roundTrip e w
        = (Ok (default (NoConnection (lit "connection refused")) (head (inference w))), w')
        ∧ spec.calm (with_inference (tail (inference w)) w) w'
        ∧ trace w' = trace w ++ [e].
Proof.
  unfold server.roundTrip, bind, emit, get, modify, ret. cbn [inference with_trace].
  eexists. split; [reflexivity|]. split; [|done]. split; [by destruct w|by exists [e]].
Qed.



(** A turn that succeeds: one request, and the answer that joins the
    transcript is, fragment by fragment, what went to the terminal. *)
Lemma chatTurn_Ok cfg h u w h1 w1 :
  server.chatTurn cfg h u w = (Ok h1, w1) →
  ∃ body rest fragments,
    inference w = Response 200 body None :: rest
    ∧ h1 = h ++ [u; mjoin fragments]
    ∧ trace w1
      = trace w ++ spec.turnRequest cfg (h ++ [u]) :: EvStdout (lit "Assistant: ")
                   :: (EvStdout <$> fragments) ++ [EvStdout [10]]
    ∧ (length fragments ≤ length body)%nat
    ∧ inference w1 = rest.
Proof.
  unfold server.chatTurn. cbv zeta.
  match goal with |- context [server.roundTrip ?e] =>
    destruct (roundTrip_run e w) as (wa & Hpost & Hca & Hta) end.
  rewrite (bind_Ok _ _ _ _ _ Hpost).
  destruct (inference w) as [|reply rest] eqn:Hinf; cbn [head default from_option id tail] in *;
    [done|].
  destruct reply as [err|status body scanErr]; [done|].
  destruct (Z.eqb_spec status 200) as [->|Hne]; cbn [negb]; [|done].
  destruct (emit_calm (EvStdout (lit "Assistant: ")) wa) as (wb & Hsay & Hcb).
  rewrite (bind_Ok _ _ _ _ _ Hsay).
  destruct (scanLines_run body [] wb) as (fragments & wc & Hscan & Hcc & Htc & Hlen).
  rewrite (bind_Ok _ _ _ _ _ Hscan). cbn [app].
  destruct (emit_calm (EvStdout [10]) wc) as (wd & Hnl & Hcd).
  rewrite (bind_Ok _ _ _ _ _ Hnl).
  destruct scanErr as [err|]; [done|]. intros [= <- <-].
  exists body, rest, fragments. split; [done|]. split; [by rewrite <- app_assoc|].
  split; [|split; [done|]].
  - injection Hnl as <-. injection Hsay as <-.
    cbn [trace with_trace]. rewrite Htc. cbn [trace with_trace]. rewrite Hta.
    unfold spec.turnRequest. by rewrite <- !app_assoc.
  - rewrite (calm_inference _ _ (calm_trans _ _ _ Hcb (calm_trans _ _ _ Hcc Hcd))).
    by rewrite (calm_inference _ _ Hca).
Qed.

(** One turn of the chat whose answer arrives whole: the text that joins
    the transcript as the turn of the assistant is, fragment by fragment,
    the text that went to the terminal; there is at most one fragment per
    line of the stream. *)
Theorem chatTurn_keeps_what_it_prints cfg h u w body rest :
  inference w = Response 200 body None :: rest →
  ∃ fragments,
    fst (server.chatTurn cfg h u w) = Ok (h ++ [u; mjoin fragments])
    ∧ spec.newEvents w (snd (server.chatTurn cfg h u w))
      = spec.turnRequest cfg (h ++ [u]) :: EvStdout (lit "Assistant: ")
        :: (EvStdout <$> fragments) ++ [EvStdout [10]]
    ∧ (length fragments ≤ length body)%nat.
Proof.
  intros Hinf.
  destruct (server.chatTurn cfg h u w) as [[h1|e] w1] eqn:Hrun.
  - apply chatTurn_Ok in Hrun as (body' & rest' & fragments & Hinf' & -> & Hev & Hlen & _).
    rewrite Hinf in Hinf'. injection Hinf' as <- <-. exists fragments.
    cbn [fst snd]. split; [done|]. split; [by apply newEvents_app|done].
  - exfalso. revert Hrun. unfold server.chatTurn. cbv zeta.
    match goal with |- context [server.roundTrip ?e] =>
      destruct (roundTrip_run e w) as (wa & Hpost & Hca & Hta) end.
    rewrite (bind_Ok _ _ _ _ _ Hpost), Hinf. cbn [head default from_option id negb Z.eqb Pos.eqb].
    destruct (emit_calm (EvStdout (lit "Assistant: ")) wa) as (wb & Hsay & _).
    rewrite (bind_Ok _ _ _ _ _ Hsay).
    destruct (scanLines_run body [] wb) as (fragments & wc & Hscan & _).
    rewrite (bind_Ok _ _ _ _ _ Hscan).
    destruct (emit_calm (EvStdout [10]) wc) as (wd & Hnl & _).
    by rewrite (bind_Ok _ _ _ _ _ Hnl).
Qed.



(** ** Making sure a server runs *)

Section keeps_facts.
Context {A : Type} (field : World → A).

Lemma keeps_refl w : spec.keeps field w w.
Proof. done. Qed.

Lemma keeps_trans w1 w2 w3 :
  spec.keeps field w1 w2 → spec.keeps field w2 w3 → spec.keeps field w1 w3.
Proof. unfold spec.keeps. by intros -> ->. Qed.

Lemma keeps_emit e :
  (∀ t w, field (with_trace t w) = field w) → stable (spec.keeps field) (emit e).
Proof. intros H w. apply H. Qed.

Lemma keeps_modify f :
  (∀ w, field (f w) = field w) → stable (spec.keeps field) (modify f).
Proof. intros H w. apply H. Qed.

End keeps_facts.

Ltac keeps_tac field :=
  repeat first
    [ assumption
    | apply keeps_emit; by intros ? []
    | apply keeps_modify; by intros []
    | stable_step (keeps_refl field) (keeps_trans field) ].

Lemma keeps_models_Run argv : stable (spec.keeps models) (exec.Run argv).
Proof. unfold exec.Run, exec.spawn. keeps_tac models. Qed.

Lemma keeps_models_waitFrom port maxWait left : ∀ i,
  stable (spec.keeps models) (server.waitFrom port maxWait i left).
Proof.
  induction left as [|left IH]; intros i; cbn [server.waitFrom].
  - keeps_tac models.
  - unfold server.IsServerRunning, server.roundTrip, ui.PrintInfo, time.Sleep.
    keeps_tac models. apply IH.
Qed.



(** After the look-up and the stamp, nothing [EnsureServerRunning] does
    touches the table. *)
Lemma keeps_models_launch cfg slug (m : Model) :
  stable (spec.keeps models)
    (let* serverRunning :=
       wrapping "checking server status" (server.IsServerRunningForPath (FilePath m)) in
     if serverRunning : bool then
       ui.PrintInfo (lit "Server for model " ++ slug ++ lit " is already running.")
     else
       ui.PrintInfo (lit "Starting server for model " ++ slug ++ lit "...") ;;
       let logFile := lit "/tmp/llama_server_" ++ slug ++ lit ".log" in
       wrapping "creating log file" (os.Create logFile) ;;
       let* pid :=
         wrapping "starting server"
           (exec.Start [config.LlamaServer cfg; lit "-m"; FilePath m; lit "--port";
                        strconv.Itoa (config.DefaultPort cfg)]) in
       ui.PrintInfo (lit "Server started with PID " ++ strconv.Itoa pid ++ lit ". Logs: "
                     ++ logFile) ;;
       wrapping "waiting for server" (server.WaitForServer (config.DefaultPort cfg) 300)).
Proof.
  unfold server.IsServerRunningForPath, ui.PrintInfo, os.Create, os.syscall, exec.Start,
    exec.spawn, server.WaitForServer, ui.PrintInfo.
  keeps_tac models; first [apply keeps_models_Run | apply keeps_models_waitFrom].
Qed.

Lemma UpdateModelLastUsed_run slug w :
  spec.hasRecord slug w → dbFaults w = [] →
  db.UpdateModelLastUsed slug w
  = (Ok (), with_models ((λ m, if decide (Slug m = slug) then db.setLastUsed (now w) m else m)
                           <$> models w) (spec.sent (TouchLastUsed slug) w)).
Proof.
  intros Hrec Hf. unfold db.UpdateModelLastUsed, bind, wrapping. rewrite Exec_unfold, Hf.
  cbn [nextFault fst db.run db.rowsAffected].
  destruct (Z.eqb_spec (Z.of_nat (length (filter (λ m, Slug m = slug) (models w)))) 0)
    as [Hz|Hz]; [|done].
  exfalso. by apply under_length_zero in Hz.
Qed.

Lemma stamped_under slug t rows :
  Forall (λ m, LastUsed m = Some t)
    (spec.under slug ((λ m, if decide (Slug m = slug) then db.setLastUsed t m else m) <$> rows)).
Proof.
  unfold spec.under. induction rows as [|m rows IH]; [constructor|].
  rewrite fmap_cons, filter_cons.
  destruct (decide (Slug m = slug)) as [Hs|Hs]; cbn [Slug db.setLastUsed].
  - rewrite decide_True by done. by constructor.
  - by rewrite decide_False.
Qed.

(** [EnsureServerRunning] stamps the model as used before it looks for a
    server: when the model is in the table and the driver answers, the
    records under the slug carry the time of the call afterwards, also
    when the server could then not be found, started or reached. *)
Theorem EnsureServerRunning_stamps_first cfg slug w :
  spec.hasRecord slug w → dbFaults w = [] →
  let w' := snd (server.EnsureServerRunning cfg slug w) in
  spec.hasRecord slug w'
  ∧ Forall (λ m, LastUsed m = Some (now w)) (spec.under slug (models w')).
Proof.
  intros Hrec Hf w'. subst w'. unfold server.EnsureServerRunning.
  destruct (GetModelBySlug_present slug w Hrec Hf) as [m Hget].
  rewrite (bind_Ok _ _ _ _ _ Hget).
  assert (spec.hasRecord slug (spec.sent (SelectBySlug slug) w)) as Hrec1 by done.
  assert (dbFaults (spec.sent (SelectBySlug slug) w) = []) as Hf1 by (simpl; by rewrite Hf).
  rewrite (bind_Ok _ _ _ _ _ (wrapping_Ok _ _ _ _ _
             (UpdateModelLastUsed_run slug _ Hrec1 Hf1))).
  match goal with |- context [snd (?launch ?w2)] =>
    pose proof (keeps_models_launch cfg slug m w2) as Hkeep end.
  unfold spec.keeps in Hkeep. cbv zeta in Hkeep. unfold spec.hasRecord.
  rewrite Hkeep. cbn [models with_models spec.sent with_dbFaults with_trace now].
  split; [|apply stamped_under].
  destruct Hrec as (m0 & Hm0 & Hs0).
  exists (db.setLastUsed (now w) m0). split; [|done].
  apply list_elem_of_fmap. exists m0. by rewrite decide_True.
Qed.

Lemma GetModelBySlug_head slug m w :
  head (spec.under slug (models w)) = Some m → dbFaults w = [] →
  db.GetModelBySlug slug w = (Ok m, spec.sent (SelectBySlug slug) w).
Proof.
  intros Hm Hf. rewrite GetModelBySlug_unfold, Hf. cbn [nextFault fst].
  unfold spec.under in Hm. destruct (filter _ (models w)); [done|]. by injection Hm as ->.
Qed.

Lemma head_under_hasRecord slug m w :
  head (spec.under slug (models w)) = Some m → spec.hasRecord slug w.
Proof.
  intros Hm. apply hasRecord_stable. intros Hno%under_nil_absent. by rewrite Hno in Hm.
Qed.

Lemma IsServerRunningForPath_run path w scan rest :
  execs w = scan :: rest → xorb (spec.reports scan) (spec.reportsNone scan) = true →
  ∃ w1, server.IsServerRunningForPath path w = (Ok (spec.reports scan), w1)
        ∧ trace w1 = trace w ++ [spec.pgrepFor path]
        ∧ execs w1 = rest
        ∧ models w1 = models w ∧ dbFaults w1 = dbFaults w ∧ fsFaults w1 = fsFaults w
        ∧ inference w1 = inference w ∧ now w1 = now w.
Proof.
  intros He Hscan. unfold server.IsServerRunningForPath.
  destruct scan as [err|pid code out files]; [done|].
  destruct (Run_calm [lit "pgrep"; lit "-f"; lit "llama-server.*" ++ path] w pid code out
              files rest He) as (w1 & Hrun & Hc & _).
  rewrite (bind_Ok _ _ _ _ _ Hrun). exists w1.
  assert (trace w1 = trace w ++ [spec.pgrepFor path]) as Ht.
  { revert Hrun. unfold exec.Run, exec.spawn, bind, emit, get, modify, ret.
    cbn [execs with_trace fst snd]. rewrite He. cbn [head tail default from_option id].
    by intros [= <-]. }
  rewrite (calm_models _ _ Hc), (calm_dbFaults _ _ Hc), (calm_fsFaults _ _ Hc),
    (calm_inference _ _ Hc), (calm_now _ _ Hc), (calm_execs _ _ Hc).
  cbn [spec.reports spec.reportsNone] in *.
  destruct (Z.eqb_spec code 0) as [->|H0]; cbn [andb orb] in *.
  - by destruct (0 <? length out)%nat.
  - destruct (Z.eqb_spec code 1) as [->|H1]; [done|]. done.
Qed.

(** When the scan reports a server for the file of the model,
    [EnsureServerRunning] starts nothing and asks the server nothing: it
    looks the model up, stamps it, scans, and says so. *)
Theorem EnsureServerRunning_reuses cfg slug m w scan rest :
  head (spec.under slug (models w)) = Some m → dbFaults w = [] →
  execs w = scan :: rest → spec.reports scan = true →
  let w' := snd (server.EnsureServerRunning cfg slug w) in
  fst (server.EnsureServerRunning cfg slug w) = Ok ()
  ∧ spec.newEvents w w'
    = [EvSql (SelectBySlug slug); EvSql (TouchLastUsed slug); spec.pgrepFor (FilePath m);
       EvInfo (lit "Server for model " ++ slug ++ lit " is already running.")]
  ∧ inference w' = inference w ∧ execs w' = rest.
Proof.
  intros Hm Hf He Hscan w'. subst w'. unfold server.EnsureServerRunning.
  rewrite (bind_Ok _ _ _ _ _ (GetModelBySlug_head slug m w Hm Hf)).
  assert (spec.hasRecord slug (spec.sent (SelectBySlug slug) w)) as Hrec1
    by (by eapply head_under_hasRecord).
  assert (dbFaults (spec.sent (SelectBySlug slug) w) = []) as Hf1 by (simpl; by rewrite Hf).
  rewrite (bind_Ok _ _ _ _ _ (wrapping_Ok _ _ _ _ _
             (UpdateModelLastUsed_run slug _ Hrec1 Hf1))).
  match goal with |- context [bind _ _ ?w2] => set (wb := w2) end.
  destruct (IsServerRunningForPath_run (FilePath m) wb scan rest)
    as (wc & Hrun & Ht & Hex & _ & _ & _ & Hinf & _); [done| |].
  { destruct scan as [|? code out ?]; [done|]. cbn [spec.reports spec.reportsNone] in *.
    apply andb_true_iff in Hscan as [->%Z.eqb_eq Hout]. rewrite Hout.
    destruct out; [done|]. done. }
  rewrite (bind_Ok _ _ _ _ _ (wrapping_Ok _ _ _ _ _ Hrun)), Hscan.
  unfold ui.PrintInfo, emit. cbn [fst snd inference execs with_trace].
  split; [done|]. split; [|by rewrite Hinf, Hex].
  apply newEvents_app. cbn [trace with_trace]. rewrite Ht. subst wb.
  cbn [trace with_models spec.sent with_dbFaults with_trace]. by rewrite <- !app_assoc.
Qed.




(** ** Terminating servers: one model, or none at all *)

Lemma terminateFor_run target pidStr w :
  ∃ w', server.terminateFor target pidStr w = (Ok (), w')
        ∧ spec.did w w' (match strconv.Atoi pidStr with
                         | Some pid => spec.terminated w target pid
                         | None => []
                         end).
Proof.
  unfold server.terminateFor, spec.terminated.
  destruct (strconv.Atoi pidStr) as [pid|]; [|eexists; split; [done|apply did_nothing]].
  unfold bind at 1, attempt at 1, exec.FindProcess, bind at 1, get at 1.
  destruct (findable w pid) as [err|]; [by eexists|].
  unfold ret at 1. unfold bind.
  destruct (signal_run pid SIGTERM w) as (w1 & -> & Hd).
  destruct (deliverable w pid SIGTERM).
  - eexists. split; [done|]. eapply (did_then _ _ _ [_] [_]); [exact Hd|]. by apply did_emit.
  - eexists. split; [done|]. eapply (did_then _ _ _ [_] [_]); [exact Hd|]. by apply did_emit.
Qed.

Lemma terminated_same target w w' pid :
  findable w' = findable w → deliverable w' = deliverable w →
  spec.terminated w' target pid = spec.terminated w target pid.
Proof. unfold spec.terminated. by intros -> ->. Qed.

Lemma Kill_by_name_run target w pid out files rest :
  strconv.Atoi target = None →
  execs w = Ran pid 0 out files :: rest → strings.Fields out ≠ [] →
  ∃ w', server.Kill target w = (Ok (), w')
        ∧ spec.newEvents w w'
          = spec.pgrepFor target :: (spec.discovered out ≫= spec.terminated w target).
Proof.
  intros Hname He Hfields. unfold server.Kill. rewrite Hname.
  destruct (Run_spec [lit "pgrep"; lit "-f"; lit "llama-server.*" ++ target] w)
    as (w1 & Hrun & Hd1).
  rewrite (bind_Ok _ _ _ _ _ Hrun), He. cbn [head default from_option id].
  change (0 =? 1) with false. change (negb (0 =? 0)) with false. cbv iota.
  destruct (strings.Fields out) as [|f fields] eqn:Hf; [done|].
  destruct (round_run (server.terminateFor target) (λ w pid, spec.terminated w target pid)
              (f :: fields) (terminated_same target) (terminateFor_run target) w1)
    as (w2 & Hround & Hd2).
  exists w2. split; [done|].
  pose proof (did_then _ _ _ _ _ Hd1 Hd2) as (Ht & _). apply newEvents_app. rewrite Ht.
  unfold spec.discovered, spec.pgrepFor. rewrite Hf. cbn [app]. do 2 f_equal.
  destruct Hd1 as (_ & _ & Hfind & Hsend).
  apply list_bind_ext; [|done]. intros pid'. by apply terminated_same.
Qed.

Lemma signals_app sig l k : spec.signals sig (l ++ k) = spec.signals sig l ++ spec.signals sig k.
Proof. apply omap_app. Qed.

Lemma spawns_app l k : spec.spawns (l ++ k) = (spec.spawns l + spec.spawns k)%nat.
Proof. unfold spec.spawns. by rewrite omap_app, length_app. Qed.

Lemma terminated_signals w target pids :
  spec.signals SIGTERM (pids ≫= spec.terminated w target)
  = filter (λ pid, findable w pid = None) pids
  ∧ spec.signals SIGKILL (pids ≫= spec.terminated w target) = []
  ∧ spec.spawns (pids ≫= spec.terminated w target) = 0%nat.
Proof.
  induction pids as [|pid pids (IH1 & IH2 & IH3)]; [done|].
  cbn [mbind list_bind]. rewrite !signals_app, spawns_app, IH1, IH2, IH3, filter_cons.
  unfold spec.terminated. destruct (findable w pid) as [err|].
  - rewrite decide_False by done. done.
  - rewrite decide_True by done. by destruct (deliverable w pid SIGTERM).
Qed.

(** [Kill] by name: when the scan prints PIDs, every one of them that the
    system can find is sent the graceful signal, once and in the order of
    the scan; no other signal is sent and no second scan is made; a
    signal that fails is reported and the next PID has its turn; and the
    command succeeds, however many signals failed. *)
Theorem Kill_by_name target w pid out files rest :
  strconv.Atoi target = None →
  execs w = Ran pid 0 out files :: rest → strings.Fields out ≠ [] →
  let events := spec.newEvents w (snd (server.Kill target w)) in
  fst (server.Kill target w) = Ok ()
  ∧ spec.signals SIGTERM events = filter (λ pid, findable w pid = None) (spec.discovered out)
  ∧ spec.signals SIGKILL events = []
  ∧ spec.spawns events = 1%nat
  ∧ (∀ pid' err, pid' ∈ spec.discovered out → findable w pid' = None →
       deliverable w pid' SIGTERM = Some err →
       spec.signalFailure pid' SIGTERM err ∈ events).
Proof.
  intros Hname He Hfields events. subst events.
  destruct (Kill_by_name_run target w pid out files rest Hname He Hfields)
    as (w' & Hrun & Hev). rewrite Hrun. cbn [fst snd]. rewrite Hev.
  destruct (terminated_signals w target (spec.discovered out)) as (Hterm & Hkill & Hspawn).
  split; [done|]. change (?e :: ?l) with ([e] ++ l).
  rewrite !signals_app, spawns_app, Hterm, Hkill, Hspawn.
  split; [done|]. split; [done|]. split; [done|].
  intros pid' err Hin Hfind Hsend. apply elem_of_app. right.
  apply list_elem_of_bind. exists pid'. split; [|done].
  unfold spec.terminated. rewrite Hfind, Hsend. right. left.
Qed.

(** [Kill] of a number takes it for a PID, whether or not a model has
    that slug: no scan is made, and the one process is sent the graceful
    signal; here a failure to find or to signal the process is the error
    of the command. *)
Theorem Kill_by_pid target pid w :
  strconv.Atoi target = Some pid →
  let r := fst (server.Kill target w) in
  let events := spec.newEvents w (snd (server.Kill target w)) in
  spec.spawns events = 0%nat ∧ spec.signals SIGKILL events = []
  ∧ match findable w pid, deliverable w pid SIGTERM with
    | Some err, _ => r = Err (wrapf "finding process" err) ∧ events = []
    | None, Some err =>
        r = Err (wrapf "terminating process" err) ∧ events = [EvSignal pid SIGTERM]
    | None, None =>
        r = Ok ()
        ∧ events = [EvSignal pid SIGTERM;
                    EvInfo (lit "Process with PID " ++ strconv.Itoa pid
                            ++ lit " terminated.")]
    end.
Proof.
  intros Hpid r events. subst r events.
  destruct (server.Kill target w) as [r w'] eqn:Hrun. cbn [fst snd]. revert Hrun.
  unfold server.Kill. rewrite Hpid.
  unfold bind at 1, wrapping at 1, exec.FindProcess, bind at 1, get at 1.
  destruct (findable w pid) as [err|].
  { unfold raise. intros [= <- <-]. unfold spec.newEvents. by rewrite drop_all. }
  unfold ret at 1. unfold bind at 1, wrapping at 1.
  destruct (signal_run pid SIGTERM w) as (w1 & Hsig & Ht & _).
  unfold attempt in Hsig. destruct (exec.Signal_ pid SIGTERM w) as [rs ws].
  injection Hsig as -> ->.
  destruct (deliverable w pid SIGTERM) as [err|].
  - intros [= <- <-]. rewrite (newEvents_app _ _ _ Ht). repeat split.
  - unfold ui.PrintInfo, emit. intros [= <- <-].
    match goal with |- context [spec.newEvents w ?w2] =>
      assert (trace w2 = trace w ++ [EvSignal pid SIGTERM;
                                     EvInfo (lit "Process with PID " ++ strconv.Itoa pid
                                             ++ lit " terminated.")]) as Ht2
        by (cbn [trace with_trace]; by rewrite Ht, <- app_assoc)
    end.
    rewrite (newEvents_app _ _ _ Ht2). repeat split.
Qed.

(** With no server to terminate, no signal is sent and nobody waits:
    when the scan finds no process, [Kill] by name fails and says so, and
    [KillAll] warns and succeeds. *)
Theorem no_server_to_terminate w scan rest :
  execs w = scan :: rest → spec.findsNone scan = true →
  (∀ target, strconv.Atoi target = None →
     fst (server.Kill target w) = Err (server.noServerFor target)
     ∧ spec.newEvents w (snd (server.Kill target w)) = [spec.pgrepFor target])
  ∧ fst (server.KillAll w) = Ok ()
  ∧ spec.newEvents w (snd (server.KillAll w))
    = [spec.scan; EvWarn (lit "No running llama-server processes found.")].
Proof.
  intros He Hnone. destruct scan as [err|pid code out files]; [done|].
  cbn [spec.findsNone] in Hnone. split.
  - intros target Hname.
    destruct (server.Kill target w) as [r w'] eqn:Hrun. cbn [fst snd]. revert Hrun.
    unfold server.Kill. rewrite Hname.
    destruct (Run_spec [lit "pgrep"; lit "-f"; lit "llama-server.*" ++ target] w)
      as (w1 & Hscan & Ht & _).
    rewrite (bind_Ok _ _ _ _ _ Hscan), He. cbn [head default from_option id].
    destruct (Z.eqb_spec code 1) as [->|H1]; cbn [orb] in Hnone.
    + intros [= <- <-]. by rewrite (newEvents_app _ _ _ Ht).
    + apply andb_true_iff in Hnone as [->%Z.eqb_eq Hout%bool_decide_eq_true].
      change (0 =? 1) with false. change (negb (0 =? 0)) with false. cbv iota.
      rewrite Hout. intros [= <- <-]. by rewrite (newEvents_app _ _ _ Ht).
  - destruct (server.KillAll w) as [r w'] eqn:Hrun. cbn [fst snd]. revert Hrun.
    unfold server.KillAll.
    destruct (Run_spec server.pgrepAll w) as (w1 & Hscan & Ht & _).
    rewrite (bind_Ok _ _ _ _ _ Hscan), He. cbn [head default from_option id].
    destruct (Z.eqb_spec code 1) as [->|H1]; cbn [orb] in Hnone.
    + unfold ui.PrintWarn, emit. intros [= <- <-]. split; [done|].
      erewrite newEvents_app; [done|]. cbn [trace with_trace]. by rewrite Ht, <- app_assoc.
    + apply andb_true_iff in Hnone as [->%Z.eqb_eq Hout%bool_decide_eq_true].
      change (0 =? 1) with false. change (negb (0 =? 0)) with false. cbv iota.
      rewrite Hout. unfold ui.PrintWarn, emit. intros [= <- <-].
      split; [done|].
      erewrite newEvents_app; [done|]. cbn [trace with_trace]. by rewrite Ht, <- app_assoc.
Qed.

(** ** The command line *)

Lemma reads_lit cmd text : main.reads cmd text = true → cmd = lit text.
Proof. unfold main.reads. by intros ?%bool_decide_eq_true. Qed.

Lemma reads_other cmd text : cmd ≠ lit text → main.reads cmd text = false.
Proof. unfold main.reads. intros H. by apply bool_decide_eq_false. Qed.

Lemma printed_printed texts more w :
  spec.printed more (spec.printed texts w) = spec.printed (texts ++ more) w.
Proof. unfold spec.printed. destruct w. cbn. by rewrite fmap_app, app_assoc. Qed.

Lemma emit_printed text w : emit (EvStdout text) w = (Ok (), spec.printed [text] w).
Proof. done. Qed.

Lemma PrintHelp_prints command description args w :
  ∃ texts, ui.PrintHelp command description args w = (Ok (), spec.printed texts w)
           ∧ head texts = Some (lit "Usage: llm-cli " ++ ui.colorGreen ++ command
                                ++ ui.colorReset ++ lit " " ++ args ++ [10]).
Proof.
  unfold ui.PrintHelp, ui.Println.
  rewrite (bind_Ok _ _ _ _ _ (emit_printed _ _)), (bind_Ok _ _ _ _ _ (emit_printed _ _)),
    (bind_Ok _ _ _ _ _ (emit_printed _ _)).
  destruct args as [|a args].
  - unfold ret. rewrite !printed_printed. by eexists.
  - rewrite (bind_Ok _ _ _ _ _ (emit_printed _ _)), emit_printed.
    rewrite !printed_printed. by eexists.
Qed.

Lemma prints_seq (m k : M unit) :
  (∃ texts, ∀ w, m w = (Ok (), spec.printed texts w)) →
  (∃ texts, ∀ w, k w = (Ok (), spec.printed texts w)) →
  ∃ texts, ∀ w, (m ;; k) w = (Ok (), spec.printed texts w).
Proof.
  intros [t1 H1] [t2 H2]. exists (t1 ++ t2). intros w. unfold bind.
  by rewrite H1, H2, printed_printed.
Qed.

Lemma prints_emit text :
  ∃ texts, ∀ w, emit (EvStdout text) w = (Ok (), spec.printed texts w).
Proof. by exists [text]. Qed.

Lemma PrintUsage_prints : ∃ texts, ∀ w, ui.PrintUsage w = (Ok (), spec.printed texts w).
Proof.
  unfold ui.PrintUsage, ui.printCommand, ui.Println.
  repeat (apply prints_seq; [apply prints_emit|]). apply prints_emit.
Qed.

(** [run] with no command prints the usage and succeeds; with a word that
    is no command it prints the usage and fails, naming the word. In both
    cases the configuration was loaded and the store opened before, and
    the store is closed after. *)
Theorem run_prints_usage c osArgs w cfg w1 w2 :
  main.config_Load c w = (Ok cfg, w1) →
  main.db_New c (config.DBPath cfg) w1 = (Ok (), w2) →
  let closed := snd (main.store_Close c (snd (ui.PrintUsage w2))) in
  ((length osArgs < 2)%nat → main.run c osArgs w = (Ok (), closed))
  ∧ (∀ prog cmd args, osArgs = prog :: cmd :: args → cmd ∉ spec.commands →
       main.run c osArgs w = (Err (lit "unknown command: " ++ cmd), closed)).
Proof.
  intros Hload Hnew closed. subst closed. unfold main.run.
  rewrite (bind_Ok _ _ _ _ _ (wrapping_Ok _ _ _ _ _ Hload)).
  rewrite (bind_Ok _ _ _ _ _ (wrapping_Ok _ _ _ _ _ Hnew)).
  unfold main.deferring. destruct PrintUsage_prints as [texts Husage]. split.
  - intros Hlen. destruct osArgs as [|prog [|cmd args]]; [| |simpl in Hlen; lia];
      by rewrite Husage.
  - intros prog cmd args -> Hcmd. unfold spec.commands in Hcmd.
    cbn [fmap list_fmap] in Hcmd.
    repeat (apply not_elem_of_cons in Hcmd as [?%reads_other Hcmd]).
    unfold main.dispatch. repeat match goal with H : main.reads cmd _ = false |- _ =>
      rewrite H; clear H end.
    unfold bind. by rewrite Husage.
Qed.

(** A command given fewer arguments than it needs fails with its own
    message and does nothing: nothing is printed, no command runs. As the
    count is checked first, [--help] alone is refused by the commands
    that need two arguments. *)
Theorem too_few_arguments c cfg name n msg args w :
  (name, n, msg) ∈ spec.arities → (length args < n)%nat →
  main.dispatch c cfg (lit name) args w = (Err (lit msg), w).
Proof.
  unfold spec.arities. intros Hrow Hlen.
  repeat (apply elem_of_cons in Hrow as [[= -> -> ->]|Hrow]);
    try (by apply elem_of_nil in Hrow);
    destruct args as [|a [|b args]]; simpl in Hlen; try lia; by vm_compute.
Qed.

(** Every command but [ls], asked for [--help] with enough arguments to
    pass its count, prints its help text, starting with its usage line,
    and does nothing else: the world is the same but for the terminal. *)
Theorem help_only_prints c cfg cmd rest w :
  cmd ∈ spec.commands → cmd ≠ lit "ls" → (spec.needs cmd ≤ S (length rest))%nat →
  ∃ texts usage,
    main.dispatch c cfg cmd (lit "--help" :: rest) w = (Ok (), spec.printed texts w)
    ∧ head texts = Some (lit "Usage: llm-cli " ++ ui.colorGreen ++ cmd ++ ui.colorReset
                         ++ lit " " ++ usage ++ [10]).
Proof.
  unfold spec.commands. cbn [fmap list_fmap]. intros Hcmd Hls Hneeds.
  repeat (apply elem_of_cons in Hcmd as [->|Hcmd]);
    try (by apply elem_of_nil in Hcmd); try done;
    vm_compute in Hneeds;
    try (destruct rest as [|arg1 rest]; [simpl in Hneeds; lia|]);
    unfold main.dispatch, main.reads;
    repeat (case_bool_decide as Htest; [try (by vm_compute in Htest)|try done]);
    edestruct PrintHelp_prints as (texts & Hrun & Hhead);
    eexists _, _; (split; [exact Hrun|exact Hhead]).
Qed.

(** ** The properties at work *)

Lemma stocked_unique : spec.slugsUnique (models examples.stocked).
Proof. unfold spec.slugsUnique. refine (bool_decide_unpack _ _). by vm_compute. Qed.

Lemma stocked_phi : examples.phi ∈ models examples.stocked.
Proof. apply list_elem_of_lookup. by exists 1%nat. Qed.

(** Storing [phi] anew, and reading it back. *)
Lemma AddModel_then_GetModelBySlug_witness :
  let w' := snd (db.AddModel (lit "phi") (lit "msft/phi") (lit "phi.q4_k_m.gguf")
                   (lit "/models/phi.q4_k_m.gguf") (lit "2300M") examples.stocked) in
  ∃ m, fst (db.GetModelBySlug (lit "phi") w') = Ok m
       ∧ spec.holds m (lit "phi") (lit "msft/phi") (lit "phi.q4_k_m.gguf")
           (lit "/models/phi.q4_k_m.gguf") (lit "2300M").
Proof.
  destruct (AddModel_then_GetModelBySlug (lit "phi") (lit "msft/phi") (lit "phi.q4_k_m.gguf")
              (lit "/models/phi.q4_k_m.gguf") (lit "2300M") examples.stocked eq_refl)
    as (_ & m & Hget & Hholds & _).
  by exists m.
Defined.


(** [phi] becomes [phi-mini]. *)
Lemma Alias_then_GetModelBySlug_witness :
  let w' := snd (model.Alias (lit "phi") (lit "phi-mini") examples.stocked) in
  fst (db.GetModelBySlug (lit "phi-mini") w') = Ok (db.setSlug (lit "phi-mini") examples.phi)
  ∧ fst (db.GetModelBySlug (lit "phi") w') = Err (db.notFound (lit "phi")).
Proof.
  assert (¬ spec.hasRecord (lit "phi-mini") examples.stocked) as Hnew.
  { apply under_nil_absent. by vm_compute. }
  destruct (Alias_then_GetModelBySlug (lit "phi") (lit "phi-mini") examples.phi
              examples.stocked stocked_unique stocked_phi eq_refl Hnew eq_refl)
    as (_ & Hnew' & Hold & _).
  by split.
Defined.

(** [phi] cannot take the slug of [tiny]. *)
Lemma Alias_failure_changes_nothing_witness :
  fst (model.Alias (lit "phi") (lit "qwen-tiny") examples.stocked)
  = Err (model.alreadyExists (lit "qwen-tiny"))
  ∧ models (snd (model.Alias (lit "phi") (lit "qwen-tiny") examples.stocked))
    = models examples.stocked.
Proof.
  assert (fst (model.Alias (lit "phi") (lit "qwen-tiny") examples.stocked)
          = Err (model.alreadyExists (lit "qwen-tiny"))) as Hfails by (by vm_compute).
  split; [exact Hfails|].
  exact (Alias_failure_changes_nothing _ _ _ _ Hfails).
Defined.

(** [phi] is removed; [tiny] and its file stay. *)
Lemma Remove_then_GetModelBySlug_witness :
  let w' := snd (model.Remove examples.cfg (lit "phi") examples.stocked) in
  fst (model.Remove examples.cfg (lit "phi") examples.stocked) = Ok ()
  ∧ fs w' = delete (FilePath examples.phi) (fs examples.stocked)
  ∧ models w' = [examples.tiny]
  ∧ fst (db.GetModelBySlug (lit "phi") w') = Err (db.notFound (lit "phi")).
Proof.
  assert (fs examples.stocked !! FilePath examples.phi = Some (mkFileInfo false 2411724800))
    as Hfile by (by vm_compute).
  exact (Remove_then_GetModelBySlug examples.cfg (lit "phi") examples.phi _
           examples.stocked stocked_unique stocked_phi eq_refl Hfile eq_refl eq_refl eq_refl).
Defined.

(** The file of [phi] is gone, and its record cannot be removed. *)
Lemma Remove_of_orphaned_record_witness :
  spec.orphanedRecord scenarios.bereft examples.phi
  ∧ fst (model.Remove examples.cfg (lit "phi") scenarios.bereft)
    = Err (wrapf "removing file" (os.noEntry "remove" (FilePath examples.phi)))
  ∧ models (snd (model.Remove examples.cfg (lit "phi") scenarios.bereft))
    = models scenarios.bereft.
Proof.
  assert (spec.orphanedRecord scenarios.bereft examples.phi) as Horphan.
  { split; [exact stocked_phi|by vm_compute]. }
  destruct (Remove_of_orphaned_record examples.cfg (lit "phi") examples.phi scenarios.bereft
              stocked_unique Horphan eq_refl) as (_ & Hsame & Herr).
  split; [exact Horphan|]. split; [exact (Herr eq_refl eq_refl)|exact Hsame].
Defined.

(** The network is down. *)
Lemma Pull_without_offer_witness :
  let w' := snd (model.Pull examples.cfg (lit "qwen/tiny") examples.quiet) in
  models w' = models examples.quiet ∧ fs w' = fs examples.quiet
  ∧ execs w' = execs examples.quiet.
Proof. exact (Pull_without_offer examples.cfg (lit "qwen/tiny") examples.quiet eq_refl). Defined.

(** [google/gemma] is pulled and found under [google-gemma]. *)
Lemma Pull_then_GetModelBySlug_witness :
  let w' := snd (model.Pull examples.cfg scenarios.gemma scenarios.offering) in
  fst (model.Pull examples.cfg scenarios.gemma scenarios.offering) = Ok ()
  ∧ ∃ m, fst (db.GetModelBySlug (lit "google-gemma") w') = Ok m
         ∧ spec.holds m (lit "google-gemma") scenarios.gemma scenarios.gemmaFile
             scenarios.gemmaPath (lit "1500M").
Proof.
  assert (model.validateModelID scenarios.gemma = true) as Hvalid by (by vm_compute).
  assert (fs scenarios.offering
            !! filepath.Join [config.ModelsDir examples.cfg; scenarios.gemma] = None)
    as Hnew by (by vm_compute).
  assert (spec.clearPath scenarios.offering
            (filepath.Join [config.ModelsDir examples.cfg; scenarios.gemma]) = true)
    as Hclear by (by vm_compute).
  assert (hub scenarios.offering (spec.manifestURL scenarios.gemma)
          = HubResponse 200 (Manifest [lit "README.md"; scenarios.gemmaFile;
                                       lit "gemma.q8_0.gguf"]))
    as Hhub by (by vm_compute).
  assert (spec.quantized [lit "README.md"; scenarios.gemmaFile; lit "gemma.q8_0.gguf"]
          = Some scenarios.gemmaFile) as Hfile by (by vm_compute).
  assert (({[ scenarios.gemmaPath := mkFileInfo false 1572864000 ]} : gmap gostring FileInfo)
            !! filepath.Join [filepath.Join [config.ModelsDir examples.cfg; scenarios.gemma];
                              scenarios.gemmaFile]
          = Some (mkFileInfo false 1572864000)) as Hgot by (by vm_compute).
  destruct (Pull_then_GetModelBySlug examples.cfg scenarios.gemma scenarios.offering
              _ _ 700 [] _ [] _ Hvalid Hnew Hclear Hhub Hfile eq_refl Hgot eq_refl eq_refl)
    as (Hok & _ & m & Hget & Hholds).
  split; [exact Hok|]. exists m. split; [exact Hget|exact Hholds].
Defined.

Lemma formatChatPrompt_extends_witness :
  server.formatChatPrompt [lit "Hello"; lit "Hi there"; lit "Bye"]
  = server.formatChatPrompt [lit "Hello"] ++ lit "Hi there" ++ spec.humanMark ++ lit "Bye"
    ++ spec.assistantMark.
Proof. exact (formatChatPrompt_extends [] (lit "Hello") (lit "Hi there") (lit "Bye") eq_refl). Defined.

(** The two fragments of the stream go to the terminal and, joined, to the
    transcript. *)
Lemma chatTurn_keeps_what_it_prints_witness :
  ∃ fragments,
    fst (server.chatTurn examples.cfg [] (lit "Hello") examples.streaming)
    = Ok ([] ++ [lit "Hello"; mjoin fragments])
    ∧ spec.newEvents examples.streaming
        (snd (server.chatTurn examples.cfg [] (lit "Hello") examples.streaming))
      = spec.turnRequest examples.cfg ([] ++ [lit "Hello"]) :: EvStdout (lit "Assistant: ")
        :: (EvStdout <$> fragments) ++ [EvStdout [10]]
    ∧ (length fragments ≤ 3)%nat.
Proof.
  exact (chatTurn_keeps_what_it_prints examples.cfg [] (lit "Hello") examples.streaming
           _ [] eq_refl).
Defined.


(** [phi] is stamped, though no server can be started for it. *)
Lemma EnsureServerRunning_stamps_first_witness :
  let w' := snd (server.EnsureServerRunning examples.cfg (lit "phi") examples.stocked) in
  spec.hasRecord (lit "phi") w'
  ∧ Forall (λ m, LastUsed m = Some (now examples.stocked)) (spec.under (lit "phi") (models w')).
Proof.
  assert (spec.hasRecord (lit "phi") examples.stocked) as Hphi.
  { exists examples.phi. split; [exact stocked_phi|reflexivity]. }
  exact (EnsureServerRunning_stamps_first examples.cfg (lit "phi") examples.stocked Hphi
           eq_refl).
Defined.

(** A server for [phi] runs already. *)
Lemma EnsureServerRunning_reuses_witness :
  let w' := snd (server.EnsureServerRunning examples.cfg (lit "phi") scenarios.served) in
  fst (server.EnsureServerRunning examples.cfg (lit "phi") scenarios.served) = Ok ()
  ∧ spec.newEvents scenarios.served w'
    = [EvSql (SelectBySlug (lit "phi")); EvSql (TouchLastUsed (lit "phi"));
       spec.pgrepFor (FilePath examples.phi);
       EvInfo (lit "Server for model " ++ lit "phi" ++ lit " is already running.")]
  ∧ inference w' = inference scenarios.served ∧ execs w' = [].
Proof.
  exact (EnsureServerRunning_reuses examples.cfg (lit "phi") examples.phi scenarios.served
           _ [] eq_refl eq_refl eq_refl eq_refl).
Defined.


(** Two servers are found; both get the graceful signal, and the one that
    cannot be signalled is reported. *)
Lemma Kill_by_name_witness :
  let events := spec.newEvents examples.stubborn (snd (server.Kill (lit "phi") examples.stubborn)) in
  fst (server.Kill (lit "phi") examples.stubborn) = Ok ()
  ∧ spec.signals SIGTERM events = [4711; 4712]
  ∧ spec.signals SIGKILL events = []
  ∧ spec.signalFailure 4712 SIGTERM (lit "operation not permitted") ∈ events.
Proof.
  assert (strings.Fields (lit "4711 4712 ") ≠ []) as Hf by (by vm_compute).
  destruct (Kill_by_name (lit "phi") examples.stubborn 900 (lit "4711 4712 ") ∅
              [Ran 901 0 (lit "4711 ") ∅] eq_refl eq_refl Hf)
    as (Hok & Hterm & Hkill & _ & Hrep).
  split; [exact Hok|]. split; [exact Hterm|]. split; [exact Hkill|].
  apply Hrep; [|reflexivity..].
  apply list_elem_of_lookup. by exists 1%nat.
Defined.

(** A number is a PID. *)
Lemma Kill_by_pid_witness :
  let events := spec.newEvents examples.stubborn
                  (snd (server.Kill (lit "4712") examples.stubborn)) in
  fst (server.Kill (lit "4712") examples.stubborn)
  = Err (wrapf "terminating process" (lit "operation not permitted"))
  ∧ events = [EvSignal 4712 SIGTERM].
Proof.
  destruct (Kill_by_pid (lit "4712") 4712 examples.stubborn eq_refl) as (_ & _ & Hcase).
  exact Hcase.
Defined.

(** Nothing runs. *)
Lemma no_server_to_terminate_witness :
  fst (server.Kill (lit "phi") scenarios.deserted) = Err (server.noServerFor (lit "phi"))
  ∧ fst (server.KillAll scenarios.deserted) = Ok ()
  ∧ spec.newEvents scenarios.deserted (snd (server.KillAll scenarios.deserted))
    = [spec.scan; EvWarn (lit "No running llama-server processes found.")].
Proof.
  destruct (no_server_to_terminate scenarios.deserted (Ran 900 1 [] ∅) [] eq_refl eq_refl)
    as (Hkill & Hok & Hevents).
  split; [exact (proj1 (Hkill (lit "phi") eq_refl))|]. by split.
Defined.

(** A word that is no command. *)
Lemma run_prints_usage_witness :
  main.run scenarios.inert [lit "llm-cli"; lit "frobnicate"] examples.quiet
  = (Err (lit "unknown command: " ++ lit "frobnicate"),
     snd (main.store_Close scenarios.inert (snd (ui.PrintUsage examples.quiet)))).
Proof.
  destruct (run_prints_usage scenarios.inert [lit "llm-cli"; lit "frobnicate"] examples.quiet
              examples.cfg examples.quiet examples.quiet eq_refl eq_refl) as [_ Hunknown].
  apply (Hunknown (lit "llm-cli") (lit "frobnicate") [] eq_refl).
  refine (bool_decide_unpack _ _). by vm_compute.
Defined.

(** [alias --help] is refused. *)
Lemma too_few_arguments_witness :
  main.dispatch scenarios.inert examples.cfg (lit "alias") [lit "--help"] examples.quiet
  = (Err (lit "alias requires old and new slugs"), examples.quiet).
Proof.
  apply (too_few_arguments scenarios.inert examples.cfg "alias" 2
           "alias requires old and new slugs"); [|simpl; lia].
  apply list_elem_of_lookup. by exists 2%nat.
Defined.

(** [pull --help]. *)
Lemma help_only_prints_witness :
  ∃ texts usage,
    main.dispatch scenarios.inert examples.cfg (lit "pull") [lit "--help"] scenarios.offering
    = (Ok (), spec.printed texts scenarios.offering)
    ∧ head texts = Some (lit "Usage: llm-cli " ++ ui.colorGreen ++ lit "pull" ++ ui.colorReset
                         ++ lit " " ++ usage ++ [10]).
Proof.
  apply help_only_prints.
  - apply list_elem_of_lookup. by exists 0%nat.
  - by vm_compute.
  - vm_compute. lia.
Defined.

(** ** A slug that is not in the table *)

Lemma GetModelBySlug_absent slug w :
  ¬ spec.hasRecord slug w → dbFaults w = [] →
  db.GetModelBySlug slug w = (Err (db.notFound slug), spec.sent (SelectBySlug slug) w).
Proof.
  intros Hno%under_nil_absent Hf. rewrite GetModelBySlug_unfold, Hf. cbn [nextFault fst].
  unfold spec.under in Hno. by rewrite Hno.
Qed.

(** A command that is given a slug the table does not hold stops at the
    lookup: [Remove], [Alias], [EnsureServerRunning] and [Chat] fail with
    [model with slug ... not found], and the query is all they have done:
    no file is removed, no record written or stamped, no process started,
    nothing printed. *)
Theorem unknown_slug_stops_at_lookup cfg slug w :
  ¬ spec.hasRecord slug w → dbFaults w = [] →
  let stopped := (Err (db.notFound slug), spec.sent (SelectBySlug slug) w) in
  model.Remove cfg slug w = stopped
  ∧ (∀ newSlug, model.Alias slug newSlug w = stopped)
  ∧ server.EnsureServerRunning cfg slug w = stopped
  ∧ server.Chat cfg slug w = stopped.
Proof.
  intros Hno Hf stopped. subst stopped.
  pose proof (GetModelBySlug_absent slug w Hno Hf) as Hget.
  assert (server.EnsureServerRunning cfg slug w
          = (Err (db.notFound slug), spec.sent (SelectBySlug slug) w)) as Hensure.
  { unfold server.EnsureServerRunning. by rewrite (bind_Err _ _ _ _ _ Hget). }
  repeat split.
  - unfold model.Remove. by rewrite (bind_Err _ _ _ _ _ Hget).
  - intros newSlug. unfold model.Alias. by rewrite (bind_Err _ _ _ _ _ Hget).
  - exact Hensure.
  - unfold server.Chat. by rewrite (bind_Err _ _ _ _ _ Hensure).
Qed.

(** ** An alias, and back *)

Lemma rename_back oldSlug newSlug rows :
  Forall (λ x, Slug x ≠ newSlug) rows →
  spec.renamed newSlug oldSlug <$> (spec.renamed oldSlug newSlug <$> rows) = rows.
Proof.
  induction 1 as [|x rows Hx _ IH]; [done|]. rewrite !fmap_cons, IH. f_equal.
  destruct (decide (Slug x = oldSlug)) as [Hxo|Hxo].
  - rewrite (rename_old oldSlug newSlug) by done.
    rewrite (rename_old newSlug oldSlug) by done. destruct x. cbn in *. by subst.
  - rewrite (rename_other oldSlug newSlug) by done.
    by rewrite (rename_other newSlug oldSlug).
Qed.

Lemma Alias_run oldSlug newSlug w :
  spec.hasRecord oldSlug w → ¬ spec.hasRecord newSlug w → dbFaults w = [] →
  ∃ w1, model.Alias oldSlug newSlug w = (Ok (), w1)
        ∧ models w1 = spec.renamed oldSlug newSlug <$> models w
        ∧ dbFaults w1 = [].
Proof.
  intros Hold Hnew Hf.
  assert (Forall (λ x, Slug x ≠ newSlug) (models w)) as Hfree.
  { apply Forall_forall. intros x Hx Hxs. apply Hnew. by exists x. }
  unfold model.Alias, bind at 1.
  destruct (GetModelBySlug_present oldSlug w Hold Hf) as [m0 ->].
  unfold bind at 1, attempt. rewrite GetModelBySlug_unfold.
  cbn [spec.sent dbFaults with_dbFaults with_trace models]. rewrite Hf. cbn [nextFault fst snd].
  apply under_nil_absent in Hnew. unfold spec.under in Hnew. rewrite Hnew.
  unfold bind at 1. rewrite UpdateModelSlug_unfold.
  cbn [spec.sent dbFaults with_dbFaults with_trace models]. rewrite Hf.
  cbn [nextFault fst snd].
  rewrite decide_False.
  2:{ intros [(x & Hx & Hxs & _)%Exists_exists _].
      apply (proj1 (Forall_forall _ _) Hfree x Hx Hxs). }
  destruct (Z.eqb_spec (Z.of_nat (length (spec.under oldSlug (models w)))) 0) as [Hz|Hz].
  { exfalso. apply under_length_zero in Hz. by apply Hz. }
  unfold ui.PrintInfo, emit. eexists. split; [reflexivity|].
  cbn. by rewrite Hf.
Qed.

(** An alias can be taken back: [Alias] from a slug to a free one and
    then from that one to the first succeeds twice and leaves the table
    as it was, every record with its id, its columns and its place. *)
Theorem Alias_and_back oldSlug newSlug w :
  spec.hasRecord oldSlug w → ¬ spec.hasRecord newSlug w → dbFaults w = [] →
  let w1 := snd (model.Alias oldSlug newSlug w) in
  let w2 := snd (model.Alias newSlug oldSlug w1) in
  fst (model.Alias oldSlug newSlug w) = Ok ()
  ∧ fst (model.Alias newSlug oldSlug w1) = Ok ()
  ∧ models w2 = models w.
Proof.
  intros Hold Hnew Hf w1 w2.
  assert (Forall (λ x, Slug x ≠ newSlug) (models w)) as Hfree.
  { apply Forall_forall. intros x Hx Hxs. apply Hnew. by exists x. }
  assert (oldSlug ≠ newSlug) as Hne by (by intros <-).
  destruct (Alias_run oldSlug newSlug w Hold Hnew Hf) as (w1' & Hrun1 & Hrows1 & Hf1).
  assert (w1 = w1') as -> by (subst w1; by rewrite Hrun1).
  assert (spec.hasRecord newSlug w1') as Hnew1.
  { destruct Hold as (m & Hm & Hs). exists (spec.renamed oldSlug newSlug m). split.
    - rewrite Hrows1. by apply list_elem_of_fmap_2.
    - by rewrite (rename_old oldSlug newSlug). }
  assert (¬ spec.hasRecord oldSlug w1') as Hold1.
  { apply under_nil_absent. rewrite Hrows1. by apply rename_under_old. }
  destruct (Alias_run newSlug oldSlug w1' Hnew1 Hold1 Hf1) as (w2' & Hrun2 & Hrows2 & _).
  subst w2. rewrite Hrun1, Hrun2. cbn [fst snd]. split; [done|]. split; [done|].
  by rewrite Hrows2, Hrows1, rename_back.
Qed.

Lemma unknown_slug_stops_at_lookup_witness :
  model.Remove examples.cfg (lit "gemma") examples.stocked
  = (Err (db.notFound (lit "gemma")), spec.sent (SelectBySlug (lit "gemma")) examples.stocked)
  ∧ server.Chat examples.cfg (lit "gemma") examples.stocked
    = (Err (db.notFound (lit "gemma")), spec.sent (SelectBySlug (lit "gemma")) examples.stocked).
Proof.
  assert (¬ spec.hasRecord (lit "gemma") examples.stocked) as Hno.
  { apply under_nil_absent. by vm_compute. }
  destruct (unknown_slug_stops_at_lookup examples.cfg (lit "gemma") examples.stocked Hno
              eq_refl) as (Hremove & _ & _ & Hchat).
  by split.
Defined.

(** [phi] becomes [phi-mini] and [phi] again. *)
Lemma Alias_and_back_witness :
  models (snd (model.Alias (lit "phi-mini") (lit "phi")
                 (snd (model.Alias (lit "phi") (lit "phi-mini") examples.stocked))))
  = models examples.stocked.
Proof.
  assert (spec.hasRecord (lit "phi") examples.stocked) as Hphi.
  { exists examples.phi. split; [exact stocked_phi|reflexivity]. }
  assert (¬ spec.hasRecord (lit "phi-mini") examples.stocked) as Hnew.
  { apply under_nil_absent. by vm_compute. }
  destruct (Alias_and_back (lit "phi") (lit "phi-mini") examples.stocked Hphi Hnew eq_refl)
    as (_ & _ & Hsame).
  exact Hsame.
Defined.
